(** * compas_pattern: quad-mesh topology, strips and polyedges

    A shallow embedding of the combinatorial core of [compas_pattern]
    ([QuadMesh], [face_strip_operations], [polyline_extraction], [Mesh])
    and the properties stated about it.

    Conventions.
    - A Python dictionary is an association list in iteration order
      (insertion order); [dget], [dset], [ddel] are lookup, item
      assignment and [del].  Order matters: [edges.pop()] and
      [[... for nbr in ...][0]] depend on it.
    - A Python exception is [None] in the option monad; the Python value
      [None] stored in the half-edge table is [None : option nat] inside
      the entry, so that [halfedge[u][v]] has type [option (option nat)].
    - Vertex and face keys are natural numbers; coordinates are exact
      rationals standing for the floats of the source. *)

From Stdlib Require Import ZArith QArith Lia.
From stdpp Require Import base option list relations.

Set Default Proof Using "Type".
#[local] Set Warnings "-clear-no-such-hyp".

(** ** Python lists *)

Section pylist.
Context {A : Type} `{EqDecision A}.

(** [l.index(x)] *)
Fixpoint index (x : A) (l : list A) : option nat :=
  match l with
  | [] => None
  | y :: l' => if decide (x = y) then Some 0 else S <$> index x l'
  end.

(** [x in l] *)
Definition py_in (x : A) (l : list A) : bool := bool_decide (x ∈ l).

(** [l.remove(x)]: drops the first occurrence. *)
Fixpoint remove1 (x : A) (l : list A) : list A :=
  match l with
  | [] => []
  | y :: l' => if decide (x = y) then l' else y :: remove1 x l'
  end.

(** [l.pop()]: the last item and the list without it. *)
Definition pop (l : list A) : option (A * list A) :=
  match last l with
  | Some x => Some (x, removelast l)
  | None => None
  end.

(** [l[i]] for a possibly negative index [i]. *)
Definition py_nth (l : list A) (i : Z) : option A :=
  if decide (0 ≤ i)%Z then l !! Z.to_nat i
  else if decide (- Z.of_nat (length l) ≤ i)%Z
       then l !! Z.to_nat (Z.of_nat (length l) + i)
       else None.

(** [compas.utilities.pairwise] *)
Definition pairwise (l : list A) : list (A * A) := zip l (tail l).

(** the pairs of a closed cycle: [pairwise(l + l[0:1])] *)
Definition cycle_keys (l : list A) : list (A * A) := pairwise (l ++ take 1 l).
End pylist.

(** ** Python dictionaries *)

Abbreviation dict K V := (list (K * V)) (only parsing).

Section dict.
Context {K V : Type} `{EqDecision K}.

Fixpoint dget (d : dict K V) (k : K) : option V :=
  match d with
  | [] => None
  | (k', v) :: d' => if decide (k = k') then Some v else dget d' k
  end.

Fixpoint dset (d : dict K V) (k : K) (v : V) : dict K V :=
  match d with
  | [] => [(k, v)]
  | (k', v') :: d' =>
      if decide (k = k') then (k, v) :: d' else (k', v') :: dset d' k v
  end.

Fixpoint ddel (d : dict K V) (k : K) : dict K V :=
  match d with
  | [] => []
  | (k', v') :: d' => if decide (k = k') then d' else (k', v') :: ddel d' k
  end.

Definition dmem (d : dict K V) (k : K) : bool :=
  match dget d k with Some _ => true | None => false end.

Definition dkeys (d : dict K V) : list K := d.*1.
End dict.

(** ** The half-edge mesh *)

Definition xyz : Type := (Q * Q * Q)%type.
Abbreviation edge := (nat * nat)%type (only parsing).

Definition flip (e : edge) : edge := (e.2, e.1).

Record Mesh : Type := mkMesh {
  vertex : dict nat xyz;
  halfedge : dict nat (dict nat (option nat));
  face : dict nat (list nat);
  max_int_key : Z;
  max_int_fkey : Z;
  strip : dict Z (list edge);
}.

Definition empty_mesh : Mesh :=
  {| vertex := []; halfedge := []; face := [];
     max_int_key := -1; max_int_fkey := -1; strip := [] |}.

Definition set_halfedge (m : Mesh) (h : dict nat (dict nat (option nat))) : Mesh :=
  {| vertex := vertex m; halfedge := h; face := face m;
     max_int_key := max_int_key m; max_int_fkey := max_int_fkey m;
     strip := strip m |}.

Definition set_face (m : Mesh) (f : dict nat (list nat)) : Mesh :=
  {| vertex := vertex m; halfedge := halfedge m; face := f;
     max_int_key := max_int_key m; max_int_fkey := max_int_fkey m;
     strip := strip m |}.

Definition set_strip (m : Mesh) (s : dict Z (list edge)) : Mesh :=
  {| vertex := vertex m; halfedge := halfedge m; face := face m;
     max_int_key := max_int_key m; max_int_fkey := max_int_fkey m;
     strip := s |}.

(** *** Kernel queries

    The base class [compas.datastructures.Mesh] is an external
    collaborator; its operations follow the contract of the HalfedgeMesh
    component. *)

(** Modelled from the spec: [halfedge[u][v]] of the external mesh kernel,
    "for directed pair (u,v), maps to the face lying to its left, or to
    none if (u,v) is a boundary-facing direction". *)
Definition halfedge_get (m : Mesh) (u v : nat) : option (option nat) :=
  nbrs ← dget (halfedge m) u; dget nbrs v.

(** Modelled from the spec: the test [v in halfedge[u]] on the external
    kernel's adjacency table. *)
Definition halfedge_mem (m : Mesh) (u v : nat) : option bool :=
  nbrs ← dget (halfedge m) u; Some (dmem nbrs v).

(** Modelled from the spec: [vertices()], [faces()], [face_vertices] and
    the counters of the external kernel. *)
Definition vertices (m : Mesh) : list nat := dkeys (vertex m).
Definition faces (m : Mesh) : list nat := dkeys (face m).
Definition face_vertices (m : Mesh) (fkey : nat) : option (list nat) :=
  dget (face m) fkey.
Definition number_of_vertices (m : Mesh) : nat := length (vertices m).
Definition number_of_faces (m : Mesh) : nat := length (faces m).

(** Modelled from the spec: [face_halfedges] of the external kernel, the
    directed pairs of the face cycle. *)
Definition face_halfedges (m : Mesh) (fkey : nat) : option (list edge) :=
  cycle_keys <$> face_vertices m fkey.

(** Modelled from the spec: [face_vertex_descendant(face, v)] of the
    external kernel, "next vertex walking the face cycle from v". *)
Definition face_vertex_descendant (m : Mesh) (fkey key : nat) : option nat :=
  fv ← face_vertices m fkey;
  l ← last fv;
  if decide (l = key) then head fv
  else i ← index key fv; fv !! S i.

(** Modelled from the spec: [face_vertex_ancestor(face, v)] of the
    external kernel, "previous vertex walking the face cycle from v". *)
Definition face_vertex_ancestor (m : Mesh) (fkey key : nat) : option nat :=
  fv ← face_vertices m fkey;
  h ← head fv;
  if decide (h = key) then last fv
  else i ← index key fv; fv !! pred i.

(** Modelled from the spec: [edges()] of the external kernel, one
    directed pair per undirected edge, in the iteration order of the
    half-edge table. *)
Fixpoint edges_loop (hs seen : list edge) : list edge :=
  match hs with
  | [] => []
  | (u, v) :: hs' =>
      if py_in (u, v) seen || py_in (v, u) seen then edges_loop hs' seen
      else (u, v) :: edges_loop hs' ((u, v) :: (v, u) :: seen)
  end.

Definition halfedges (m : Mesh) : list edge :=
  '(u, nbrs) ← halfedge m; (λ v, (u, v)) <$> dkeys nbrs.

Definition edges (m : Mesh) : list edge := edges_loop (halfedges m) [].
Definition number_of_edges (m : Mesh) : nat := length (edges m).

(** Modelled from the spec: [is_vertex_on_boundary(v)] of the external
    kernel: some outgoing half-edge of [v] has no face. *)
Definition is_vertex_on_boundary (m : Mesh) (key : nat) : option bool :=
  nbrs ← dget (halfedge m) key;
  Some (existsb (λ kv, bool_decide (kv.2 = None)) nbrs).

(** Modelled from the spec: [is_edge_on_boundary(u,v)] of the external
    kernel: one of the two directions has no face. *)
Definition is_edge_on_boundary (m : Mesh) (u v : nat) : option bool :=
  a ← halfedge_get m v u;
  if decide (a = None) then Some true
  else b ← halfedge_get m u v; Some (bool_decide (b = None)).

(** Modelled from the spec: [vertex_neighbors(v, ordered)] of the external
    kernel.  Unordered, the keys of [halfedge[v]]; ordered, the walk over
    the faces around [v] that starts at a boundary-facing neighbour when
    there is one ("a consistent cyclic rotation"). *)
Fixpoint ordered_walk (m : Mesh) (key start : nat) (count : nat)
    (fkey : option nat) (nbrs : list nat) : option (list nat) :=
  match count with
  | 0 => Some nbrs
  | S count' =>
      f ← fkey;
      nbr ← face_vertex_descendant m f key;
      fkey' ← halfedge_get m nbr key;
      if decide (nbr = start) then Some nbrs
      else
        let nbrs := nbrs ++ [nbr] in
        if decide (fkey' = None) then Some nbrs
        else ordered_walk m key start count' fkey' nbrs
  end.

Definition vertex_neighbors (m : Mesh) (key : nat) (ordered : bool)
    : option (list nat) :=
  d ← dget (halfedge m) key;
  let temp := dkeys d in
  if negb ordered then Some temp
  else if decide (length temp ≤ 1) then Some temp
  else
    first ← head temp;
    let start :=
      default first (fst <$> head (filter (λ kv, kv.2 = None) d)) in
    fkey ← halfedge_get m start key;
    ordered_walk m key start 1000 fkey [start].

(** Modelled from the spec: [vertex_degree(v)] of the external kernel. *)
Definition vertex_degree (m : Mesh) (key : nat) : option nat :=
  length <$> vertex_neighbors m key false.

(** Modelled from the spec: [is_quadmesh()] of the external kernel, "all
    faces have 4 vertices". *)
Definition is_quadmesh (m : Mesh) : bool :=
  forallb (λ kf, bool_decide (length kf.2 = 4)) (face m).

(** *** Kernel mutation *)

(** Modelled from the spec: [add_vertex(coord) -> id] of the external
    kernel; without a key the next integer key is taken. *)
Definition add_vertex (m : Mesh) (key : option nat) (attr : xyz) : nat * Mesh :=
  let '(k, mx) :=
    match key with
    | None => (Z.to_nat (max_int_key m + 1), (max_int_key m + 1)%Z)
    | Some k => (k, Z.max (max_int_key m) (Z.of_nat k))
    end in
  (k, {| vertex := dset (vertex m) k attr;
         halfedge := if dmem (vertex m) k then halfedge m
                     else dset (halfedge m) k [];
         face := face m;
         max_int_key := mx; max_int_fkey := max_int_fkey m;
         strip := strip m |}).

Definition origin : xyz := (0, 0, 0)%Q.

Definition hset (h : dict nat (dict nat (option nat))) (u v : nat)
    (x : option nat) : dict nat (dict nat (option nat)) :=
  dset h u (dset (default [] (dget h u)) v x).

Definition hdel (h : dict nat (dict nat (option nat))) (u v : nat)
    : dict nat (dict nat (option nat)) :=
  dset h u (ddel (default [] (dget h u)) v).

(** Modelled from the spec: [add_face(cyclic vertex ids, optional id) -> id]
    of the external kernel: the cycle is stored under the key, each of
    its directed pairs maps to the face, and a missing opposite direction
    is created boundary-facing. *)
Definition add_face_halfedge (fkey : nat) (h : dict nat (dict nat (option nat)))
    (uv : edge) : dict nat (dict nat (option nat)) :=
  let h := hset h uv.1 uv.2 (Some fkey) in
  if dmem (default [] (dget h uv.2)) uv.1 then h else hset h uv.2 uv.1 None.

Definition add_face (m : Mesh) (vs : list nat) (fkey : option nat)
    : option nat * Mesh :=
  if decide (length vs < 3) then (None, m)
  else
    let m := foldl (λ m k, if dmem (vertex m) k then m
                           else (add_vertex m (Some k) origin).2) m vs in
    let '(f, mx) :=
      match fkey with
      | None => (Z.to_nat (max_int_fkey m + 1), (max_int_fkey m + 1)%Z)
      | Some f => (f, Z.max (max_int_fkey m) (Z.of_nat f))
      end in
    (Some f,
     {| vertex := vertex m;
        halfedge := foldl (add_face_halfedge f) (halfedge m) (cycle_keys vs);
        face := dset (face m) f vs;
        max_int_key := max_int_key m; max_int_fkey := mx;
        strip := strip m |}).

(** Modelled from the spec: [delete_face(id)] of the external kernel
    ("clears halfedge entries, leaving endpoints boundary if no opposite
    face remains"); the statement sequence is the one kept as a comment in
    [datastructures/mesh/mesh.py], with its test [u in self.halfedge[v]]
    before the opposite direction is read. *)
Definition delete_face_halfedge (h : option (dict nat (dict nat (option nat))))
    (uv : edge) : option (dict nat (dict nat (option nat))) :=
  h ← h;
  _ ← dget h uv.1;
  let h := hset h uv.1 uv.2 None in
  nbrs ← dget h uv.2;
  if decide (dget nbrs uv.1 = Some None)
  then Some (hdel (hdel h uv.1 uv.2) uv.2 uv.1)
  else Some h.

Definition delete_face (m : Mesh) (fkey : nat) : option Mesh :=
  hes ← face_halfedges m fkey;
  h ← foldl delete_face_halfedge (Some (halfedge m)) hes;
  Some (set_face (set_halfedge m h) (ddel (face m) fkey)).

(** Modelled from the spec: the bulk constructor
    [from_vertices_and_faces(vertex list, face list of vertex-id lists)]
    of the external kernel. *)
Definition from_vertices_and_faces (vs : list xyz) (fs : list (list nat)) : Mesh :=
  let m := foldl (λ m p, (add_vertex m None p).2) empty_mesh vs in
  foldl (λ m f, (add_face m f None).2) m fs.

(** ** [QuadMesh] (datastructures/mesh_quad/mesh_quad.py) *)

(** [not_none_edges]: the edges oriented so that they carry a face. *)
Definition not_none_edges (m : Mesh) : option (list edge) :=
  mapM (λ uv : edge,
    b ← halfedge_mem m uv.1 uv.2;
    if b : bool then
      f ← halfedge_get m uv.1 uv.2;
      Some (if decide (f = None) then flip uv else uv)
    else Some (flip uv)) (edges m).

(** [face_opposite_edge(u, v)] *)
Definition face_opposite_edge (m : Mesh) (u v : nat) : option edge :=
  fkey ← halfedge_get m u v;
  fkey ← fkey;
  w ← face_vertex_descendant m fkey v;
  x ← face_vertex_descendant m fkey w;
  Some (w, x).

(** [is_vertex_singular(vkey)] *)
Definition is_vertex_singular (m : Mesh) (vkey : nat) : option bool :=
  b ← is_vertex_on_boundary m vkey;
  d ← vertex_degree m vkey;
  Some ((b && negb (d =? 3)) || (negb b && negb (d =? 4))).

(** The comprehension
    [[nbr for nbr in nbrs if nbr != u and self.is_vertex_on_boundary(nbr)]]. *)
Fixpoint boundary_nbrs (m : Mesh) (u : nat) (nbrs : list nat) : option (list nat) :=
  match nbrs with
  | [] => Some []
  | nbr :: nbrs' =>
      if decide (nbr = u) then boundary_nbrs m u nbrs'
      else
        b ← is_vertex_on_boundary m nbr;
        r ← boundary_nbrs m u nbrs';
        Some (if b : bool then nbr :: r else r)
  end.

(** [vertex_opposite_vertex(u, v)]; [Some None] is the Python [None]. *)
Definition vertex_opposite_vertex (m : Mesh) (u v : nat) : option (option nat) :=
  s ← is_vertex_singular m v;
  if s : bool then Some None
  else
    bv ← is_vertex_on_boundary m v;
    if bv : bool then
      bu ← is_vertex_on_boundary m u;
      if negb bu then Some None
      else
        nbrs ← vertex_neighbors m v false;
        cand ← boundary_nbrs m u nbrs;
        Some <$> head cand
    else
      nbrs ← vertex_neighbors m v true;
      i ← index u nbrs;
      Some <$> py_nth nbrs (Z.of_nat i - 2).

(** [self.vertex_opposite_vertex( *polyedge[-2:])] *)
Definition opposite_of_tail (m : Mesh) (polyedge : list nat) : option (option nat) :=
  match reverse polyedge with
  | v :: u :: _ => vertex_opposite_vertex m u v
  | _ => None
  end.

(** The [while] loop of [polyedge]; every round appends one vertex, so the
    fuel [number_of_vertices] outlasts the guard on the length. *)
Fixpoint polyedge_loop (m : Mesh) (fuel : nat) (polyedge : list nat)
    : option (list nat) :=
  match fuel with
  | 0 => if decide (length polyedge ≤ number_of_vertices m) then None
         else Some polyedge
  | S fuel' =>
      if decide (length polyedge ≤ number_of_vertices m) then
        a ← head polyedge;
        b ← last polyedge;
        if decide (a = b) then Some polyedge
        else
          w ← opposite_of_tail m polyedge;
          match w with
          | Some w => polyedge_loop m fuel' (polyedge ++ [w])
          | None =>
              let polyedge := reverse polyedge in
              w ← opposite_of_tail m polyedge;
              match w with
              | Some w => polyedge_loop m fuel' (polyedge ++ [w])
              | None => Some polyedge
              end
          end
      else Some polyedge
  end.

(** [polyedge(u0, v0)] *)
Definition polyedge (m : Mesh) (u0 v0 : nat) : option (list nat) :=
  polyedge_loop m (number_of_vertices m) [u0; v0].

(** The removal loop shared by [polyedges] and [collect_strips]:
    [for u, v in collected: if (u, v) in edges: edges.remove((u, v))
     elif (v, u) in edges: edges.remove((v, u))]. *)
Definition remove_collected (collected edges : list edge) : list edge :=
  foldl (λ edges uv,
    if py_in uv edges then remove1 uv edges
    else if py_in (flip uv) edges then remove1 (flip uv) edges
    else edges) edges collected.

(** The [while len(edges) > 0] loop of [polyedges]; every round pops an
    edge, so [length edges] rounds suffice. *)
Fixpoint polyedges_loop (m : Mesh) (fuel : nat) (edges : list edge)
    (polyedges : list (list nat)) : option (list (list nat)) :=
  match pop edges with
  | None => Some polyedges
  | Some ((u0, v0), edges) =>
      match fuel with
      | 0 => None
      | S fuel' =>
          p ← polyedge m u0 v0;
          polyedges_loop m fuel' (remove_collected (pairwise p) edges)
                         (polyedges ++ [p])
      end
  end.

(** [polyedges()] *)
Definition polyedges (m : Mesh) : option (list (list nat)) :=
  polyedges_loop m (length (edges m)) (edges m) [].

(** [w not in self.halfedge[x] or self.halfedge[x][w] is None] *)
Definition halfedge_blocked (m : Mesh) (x w : nat) : option bool :=
  b ← halfedge_mem m x w;
  if negb b then Some true
  else f ← halfedge_get m x w; Some (bool_decide (f = None)).

(** The [while count > 0] loop of [collect_strip]. *)
Fixpoint collect_strip_loop (m : Mesh) (count : nat) (edges : list edge)
    : option (list edge) :=
  match count with
  | 0 => Some edges
  | S count' =>
      '(u, v) ← last edges;
      '(w, x) ← face_opposite_edge m u v;
      e0 ← head edges;
      if decide ((x, w) = e0) then Some edges
      else
        let edges := edges ++ [(x, w)] in
        b ← halfedge_blocked m x w;
        if b : bool then
          let edges := flip <$> reverse edges in
          '(u, v) ← last edges;
          b' ← halfedge_blocked m u v;
          if b' : bool then Some edges
          else collect_strip_loop m count' edges
        else collect_strip_loop m count' edges
  end.

(** [collect_strip(u0, v0)] *)
Definition collect_strip (m : Mesh) (u0 v0 : nat) : option (list edge) :=
  f ← halfedge_get m u0 v0;
  let e0 := if decide (f = None) then (v0, u0) else (u0, v0) in
  collect_strip_loop m (number_of_edges m) [e0].

(** The [while len(edges) > 0] loop of [collect_strips]; every round pops
    an edge, so [length edges] rounds suffice. *)
Fixpoint collect_strips_loop (m : Mesh) (fuel : nat) (edges : list edge)
    (strip : Z) (table : dict Z (list edge)) : option (Z * dict Z (list edge)) :=
  match pop edges with
  | None => Some (strip, table)
  | Some ((u0, v0), edges) =>
      match fuel with
      | 0 => None
      | S fuel' =>
          let strip := (strip + 1)%Z in
          strip_edges ← collect_strip m u0 v0;
          collect_strips_loop m fuel' (remove_collected strip_edges edges)
                              strip (dset table strip strip_edges)
      end
  end.

(** [collect_strips()]: the returned integer and the mesh with its strip
    table replaced. *)
Definition collect_strips (m : Mesh) : option (Z * Mesh) :=
  edges ← not_none_edges m;
  '(k, table) ← collect_strips_loop m (length edges) edges (-1) [];
  Some (k, set_strip m table).

(** ** Worked meshes *)

(** The single quad face with vertex cycle 0-1-2-3-0. *)
Definition single_quad : Mesh :=
  from_vertices_and_faces
    [(0, 0, 0); (1, 0, 0); (1, 1, 0); (0, 1, 0)]%Q [[0; 1; 2; 3]].

(** Two quads side by side: vertices 0 1 2 on the lower row, 3 4 5 on the
    upper row. *)
Definition two_quads : Mesh :=
  from_vertices_and_faces
    [(0, 0, 0); (1, 0, 0); (2, 0, 0); (0, 1, 0); (1, 1, 0); (2, 1, 0)]%Q
    [[0; 1; 4; 3]; [1; 2; 5; 4]].

(** The 2 x 2 grid of quads on a 3 x 3 grid of vertices. *)
Definition grid22 : Mesh :=
  from_vertices_and_faces
    [(0, 0, 0); (1, 0, 0); (2, 0, 0); (0, 1, 0); (1, 1, 0); (2, 1, 0);
     (0, 2, 0); (1, 2, 0); (2, 2, 0)]%Q
    [[0; 1; 4; 3]; [1; 2; 5; 4]; [3; 4; 7; 6]; [4; 5; 8; 7]].

(** ** Well-formed quad meshes

    A quad mesh is a half-edge table that agrees with its face table:
    every face is a cycle of four distinct vertices and owns its four
    directed pairs, every entry of the half-edge table comes from a face
    cycle or is the boundary-facing side of one, and the dictionaries have
    no repeated key. *)

Record wf_mesh (m : Mesh) : Prop := {
  wf_face_quad : ∀ f vs, face_vertices m f = Some vs →
    length vs = 4 ∧ NoDup vs;
  wf_face_he : ∀ f vs uv, face_vertices m f = Some vs →
    uv ∈ cycle_keys vs → halfedge_get m uv.1 uv.2 = Some (Some f);
  wf_he_face : ∀ u v f, halfedge_get m u v = Some (Some f) →
    ∃ vs, face_vertices m f = Some vs ∧ (u, v) ∈ cycle_keys vs;
  wf_he_sym : ∀ u v, is_Some (halfedge_get m u v) →
    is_Some (halfedge_get m v u);
  wf_he_boundary : ∀ u v, halfedge_get m u v = Some None →
    ∃ f, halfedge_get m v u = Some (Some f);
  wf_nbrs_nodup : ∀ u d, dget (halfedge m) u = Some d → NoDup (dkeys d);
  wf_halfedges : ∀ uv, uv ∈ halfedges m → is_Some (halfedge_get m uv.1 uv.2);
}.

Definition face_ok (m : Mesh) (kf : nat * list nat) : bool :=
  bool_decide (length kf.2 = 4) && bool_decide (NoDup kf.2)
  && forallb (λ uv : edge,
       bool_decide (halfedge_get m uv.1 uv.2 = Some (Some kf.1)))
     (cycle_keys kf.2).

Definition halfedge_ok (m : Mesh) (uv : edge) : bool :=
  match halfedge_get m uv.1 uv.2 with
  | Some (Some f) =>
      match face_vertices m f with
      | Some vs => py_in uv (cycle_keys vs)
      | None => false
      end
      && bool_decide (is_Some (halfedge_get m uv.2 uv.1))
  | Some None =>
      match halfedge_get m uv.2 uv.1 with
      | Some (Some _) => true
      | _ => false
      end
  | None => false
  end.

Definition wf_meshb (m : Mesh) : bool :=
  forallb (face_ok m) (face m)
  && forallb (halfedge_ok m) (halfedges m)
  && bool_decide (NoDup (dkeys (face m)))
  && bool_decide (NoDup (dkeys (halfedge m)))
  && forallb (λ ud : nat * dict nat (option nat),
       bool_decide (NoDup (dkeys ud.2))) (halfedge m).

(** ** Undirected edges and the strip relation *)

(** The representative of a directed pair among its two directions. *)
Definition canon (e : edge) : edge := if decide (e.1 ≤ e.2) then e else flip e.

(** [e] is in [l] in one of its two directions. *)
Definition inU (e : edge) (l : list edge) : Prop := e ∈ l ∨ flip e ∈ l.

(** How often [l] holds the edge [e], counted in both directions. *)
Definition occurrences (e : edge) (l : list edge) : nat :=
  length (filter (λ x, x = e ∨ x = flip e) l).

(** The directed pair [e] has a face on its side. *)
Definition has_face (m : Mesh) (e : edge) : Prop :=
  ∃ f, halfedge_get m e.1 e.2 = Some (Some f).

(** [e'] is the edge opposite to [e] in the face of [e]. *)
Definition opp (m : Mesh) (e e' : edge) : Prop :=
  face_opposite_edge m e.1 e.2 = Some e'.

(** One step of the strip walk: across the face of [e], then turned to
    face the next quad. *)
Definition strip_next (m : Mesh) (e e' : edge) : Prop :=
  ∃ s, opp m e s ∧ e' = flip s.

(** Two directed pairs belong to the same strip when they are linked by
    turning a pair around and by crossing a face to the opposite edge. *)
Definition strip_step (m : Mesh) (e e' : edge) : Prop :=
  e' = flip e ∨ opp m e e'.

Definition same_strip (m : Mesh) : relation edge := rtc (strip_step m).

(** A run of the strip walk: every pair leads to the next ([links]) and
    has a face ([chain]). *)
Definition links (m : Mesh) (l : list edge) : Prop :=
  ∀ i e e', l !! i = Some e → l !! S i = Some e' → strip_next m e e'.

Definition chain (m : Mesh) (l : list edge) : Prop :=
  (∀ e, e ∈ l → has_face m e) ∧ links m l.

(** The list is closed under the strip relation, in both directions. *)
Definition strip_closed (m : Mesh) (l : list edge) : Prop :=
  ∀ e e', inU e l → strip_step m e e' → inU e' l.

(** [r] holds the strip of [seed]: every edge of the strip once, in one
    direction, and nothing else. *)
Definition is_strip (m : Mesh) (seed : edge) (r : list edge) : Prop :=
  r ≠ [] ∧ NoDup (canon <$> r) ∧ ∀ e, inU e r ↔ same_strip m seed e.

(** What the strip table holds after some rounds of [collect_strips]:
    keys [0..k], every entry a closed-under-the-strip-relation list of
    distinct edges of the mesh, and no edge in two entries. *)
Definition table_ok (m : Mesh) (k : Z) (table : dict Z (list edge)) : Prop :=
  dkeys table = Z.of_nat <$> seq 0 (Z.to_nat (k + 1)) ∧ (-1 ≤ k)%Z ∧
  (∀ s l, dget table s = Some l →
     l ≠ [] ∧ NoDup (canon <$> l) ∧ strip_closed m l ∧
     ∀ e, e ∈ l → inU e (edges m)) ∧
  (∀ s s' l l' e, dget table s = Some l → dget table s' = Some l' →
     s ≠ s' → inU e l → ¬ inU e l').

(** Every edge of the mesh is either still to be consumed or in a strip. *)
Definition edges_split (m : Mesh) (rest : list edge)
    (table : dict Z (list edge)) : Prop :=
  ∀ e, inU e (edges m) →
    (inU e rest ∧ ∀ s l, dget table s = Some l → ¬ inU e l) ∨
    (¬ inU e rest ∧ ∃ s l, dget table s = Some l ∧ inU e l).

(** ** Dictionary order

    The source runs on an interpreter whose dictionaries of small integer
    keys iterate in increasing key order; [by_key] rearranges the tables
    of a mesh that way, so that order-dependent results can be read off in
    both orders. *)

Fixpoint dinsert {V} (k : nat) (v : V) (d : dict nat V) : dict nat V :=
  match d with
  | [] => [(k, v)]
  | (k', v') :: d' =>
      if decide (k ≤ k') then (k, v) :: d else (k', v') :: dinsert k v d'
  end.

Definition dsort {V} (d : dict nat V) : dict nat V :=
  foldr (λ kv acc, dinsert kv.1 kv.2 acc) [] d.

Definition by_key (m : Mesh) : Mesh :=
  {| vertex := dsort (vertex m);
     halfedge := dsort ((λ ud, (ud.1, dsort ud.2)) <$> halfedge m);
     face := dsort (face m);
     max_int_key := max_int_key m; max_int_fkey := max_int_fkey m;
     strip := strip m |}.

(** How many consecutive vertex pairs of the polyedges cover the edge. *)
Definition coverage (ps : list (list nat)) (e : edge) : nat :=
  sum_list ((λ p, occurrences e (pairwise p)) <$> ps).

(** ** Regular neighbourhoods *)

(** The walk around [v] reaches every neighbour of [v]: the faces at [v]
    form one fan. *)
Definition manifold_vertex (m : Mesh) (v : nat) : bool :=
  match vertex_neighbors m v true, vertex_neighbors m v false with
  | Some l, Some l' => bool_decide (l ≡ₚ l')
  | _, _ => false
  end.

(** ** [face_strips_merge] (topology/face_strip_operations.py) *)

(** The search for the polyedge of the edge: the last polyline with [u]
    and [v] next to each other; none leaves [polyedge] unbound, and its
    first use raises. *)
Definition on_polyline (u v : nat) (polyline : list nat) : bool :=
  existsb (λ ab : nat * nat,
    bool_decide ((u = ab.1 ∧ v = ab.2) ∨ (v = ab.1 ∧ u = ab.2)))
    (pairwise polyline).

Definition find_polyedge (polylines : list (list nat)) (u v : nat)
    : option (list nat) :=
  last (filter (λ p, on_polyline u v p = true) polylines).

(** The check loop: [Some true] when it meets a singular vertex. *)
Fixpoint any_singular (m : Mesh) (polyedge : list nat) : option bool :=
  match polyedge with
  | [] => Some false
  | vkey :: rest =>
      s ← is_vertex_singular m vkey;
      if s : bool then Some true else any_singular m rest
  end.

(** One round of the merging loop: the two faces on the edge become one
    quad. *)
Definition merge_edge (st : option (Mesh * list (option nat))) (uv : edge)
    : option (Mesh * list (option nat)) :=
  '(m, faces) ← st;
  fkey_1 ← halfedge_get m uv.1 uv.2; fkey_1 ← fkey_1;
  fkey_2 ← halfedge_get m uv.2 uv.1; fkey_2 ← fkey_2;
  a ← face_vertex_descendant m fkey_1 uv.2;
  b ← face_vertex_descendant m fkey_1 a;
  c ← face_vertex_descendant m fkey_2 uv.1;
  d ← face_vertex_descendant m fkey_2 c;
  m ← delete_face m fkey_1;
  m ← delete_face m fkey_2;
  let '(fkey, m) := add_face m [a; b; c; d] None in
  Some (m, faces ++ [fkey]).

(** [face_strips_merge(cls, mesh, u, v)]: the returned value ([None] is
    the failure signal) and the mesh afterwards.  [quad_mesh_polylines] is
    imported from [polyline_extraction], which does not define it; it is a
    parameter here. *)
Definition face_strips_merge
    (quad_mesh_polylines : Mesh → option (list (list nat)))
    (m : Mesh) (u v : nat) : option (option (list (option nat)) * Mesh) :=
  if negb (is_quadmesh m) then Some (None, m)
  else
    b ← is_edge_on_boundary m u v;
    if b : bool then Some (None, m)
    else
      polylines ← quad_mesh_polylines m;
      polyedge ← find_polyedge polylines u v;
      s ← any_singular m polyedge;
      if s : bool then Some (None, m)
      else
        '(m', faces) ← foldl merge_edge (Some (m, [])) (pairwise polyedge);
        Some (Some faces, m').

(** The two edges lie opposite each other in a face, whatever the
    direction they are written in. *)
Definition opposite_edges (m : Mesh) (e1 e2 : edge) : Prop :=
  opp m e1 e2 ∨ opp m e1 (flip e2) ∨ opp m (flip e1) e2 ∨
  opp m (flip e1) (flip e2).

(** ** [mesh_polylines_boundary] (topology/polyline_extraction.py) *)

(** How a loop without a bound of its own ends: with a value, with a
    Python exception, or not within the given number of rounds. *)
Inductive outcome (A : Type) : Type :=
  | Done (a : A)
  | Raised
  | OutOfFuel.
Arguments Done {A} a.
Arguments Raised {A}.
Arguments OutOfFuel {A}.

(** [vertices.add(x)] on the set kept as a list without repetition. *)
Definition add_to_set (x : nat) (s : list nat) : list nat :=
  if py_in x s then s else s ++ [x].

(** The entries [halfedge[key][nbr] is None]. *)
Definition boundary_halfedges (m : Mesh) : list edge :=
  '(key, nbrs) ← halfedge m;
  '(nbr, fkey) ← nbrs;
  if decide (fkey = None) then [(key, nbr)] else [].

(** The first loop: every vertex next to a boundary-facing half-edge. *)
Definition boundary_vertices (m : Mesh) : list nat :=
  foldl (λ s uv, add_to_set uv.2 (add_to_set uv.1 s)) [] (boundary_halfedges m).

(** The [for ... break] scan: the first neighbour behind a boundary-facing
    half-edge of [key]. *)
Definition boundary_successor (m : Mesh) (key : nat) : option (option nat) :=
  nbrs ← dget (halfedge m) key;
  Some (fst <$> head (filter (λ kv, kv.2 = None) nbrs)).

(** The loop [while 1]; each round uses one unit of [fuel], and what is
    left is handed back. *)
Fixpoint trace_boundary (m : Mesh) (fuel : nat) (boundary vertices : list nat)
    : outcome (list nat * list nat * nat) :=
  match fuel with
  | 0 => OutOfFuel
  | S fuel' =>
      match last boundary ≫= boundary_successor m with
      | None => Raised
      | Some next =>
          let boundary :=
            match next with
            | Some nbr => boundary ++ [nbr]
            | None => boundary
            end in
          match head boundary, last boundary with
          | Some a, Some b =>
              if decide (a = b) then Done (boundary, vertices, fuel')
              else if py_in b vertices
                   then trace_boundary m fuel' boundary (remove1 b vertices)
                   else Raised
          | _, _ => Raised
          end
      end
  end.

(** The loop [while len(vertices) > 0]. *)
Fixpoint boundaries_loop (m : Mesh) (rounds fuel : nat) (vertices : list nat)
    (boundaries : list (list nat)) : outcome (list (list nat)) :=
  match pop vertices with
  | None => Done boundaries
  | Some (v, vertices) =>
      match rounds with
      | 0 => OutOfFuel
      | S rounds' =>
          match trace_boundary m fuel [v] vertices with
          | Done (boundary, vertices, fuel') =>
              boundaries_loop m rounds' fuel' vertices (boundaries ++ [boundary])
          | Raised => Raised
          | OutOfFuel => OutOfFuel
          end
      end
  end.

(** [mesh_polylines_boundary(mesh)] run for at most [fuel] rounds of its
    inner loop. *)
Definition mesh_polylines_boundary_fuel (fuel : nat) (m : Mesh)
    : outcome (list (list nat)) :=
  boundaries_loop m fuel fuel (boundary_vertices m) [].

(** [mesh_polylines_boundary(mesh)]: one round per boundary vertex is
    enough. *)
Definition mesh_polylines_boundary (m : Mesh) : outcome (list (list nat)) :=
  mesh_polylines_boundary_fuel (length (boundary_vertices m)) m.

(** The boundary of the mesh is a union of loops: a vertex with a
    boundary-facing half-edge going out has one coming in and conversely,
    and no two boundary-facing half-edges come into the same vertex. *)
Record manifold_boundary (m : Mesh) : Prop := {
  mb_keys : NoDup (dkeys (halfedge m));
  mb_nbrs : ∀ u d, dget (halfedge m) u = Some d → NoDup (dkeys d);
  mb_out : ∀ u v, halfedge_get m u v = Some None →
    ∃ w, halfedge_get m v w = Some None;
  mb_in : ∀ u v, halfedge_get m u v = Some None →
    ∃ t, halfedge_get m t u = Some None;
  mb_inj : ∀ u u' v, halfedge_get m u v = Some None →
    halfedge_get m u' v = Some None → u = u';
}.

Definition manifold_boundaryb (m : Mesh) : bool :=
  bool_decide (NoDup (dkeys (halfedge m)))
  && forallb (λ ud : nat * dict nat (option nat),
       bool_decide (NoDup (dkeys ud.2))) (halfedge m)
  && forallb (λ uv : edge,
       existsb (λ e : edge, bool_decide (e.1 = uv.2)) (boundary_halfedges m)
       && existsb (λ e : edge, bool_decide (e.2 = uv.1)) (boundary_halfedges m)
       && forallb (λ e : edge,
            bool_decide (e.2 = uv.2 → e.1 = uv.1)) (boundary_halfedges m))
     (boundary_halfedges m).

(** The 3 x 3 grid of quads without its middle face: an outer boundary
    and a hole. *)
Definition ring8 : Mesh :=
  from_vertices_and_faces (replicate 16 origin)
    [[0; 1; 5; 4]; [1; 2; 6; 5]; [2; 3; 7; 6]; [4; 5; 9; 8];
     [6; 7; 11; 10]; [8; 9; 13; 12]; [9; 10; 14; 13]; [10; 11; 15; 14]].

(** Consecutive vertices of [b] follow the scan of [trace_boundary]. *)
Definition boundary_linked (m : Mesh) (b : list nat) : Prop :=
  ∀ i x y, b !! i = Some x → b !! S i = Some y →
    boundary_successor m x = Some (Some y).

(** Every vertex of [r] has its boundary successor in [r]. *)
Definition successor_closed (m : Mesh) (r : list nat) : Prop :=
  ∀ x, x ∈ r → ∃ y, y ∈ r ∧ boundary_successor m x = Some (Some y).

(** A closed polyline along boundary-facing half-edges. *)
Definition boundary_loop (m : Mesh) (b : list nat) : Prop :=
  (∃ v p, b = v :: p ++ [v]) ∧
  ∀ i x y, b !! i = Some x → b !! S i = Some y →
    halfedge_get m x y = Some None.

(** ** [Mesh.to_vertices_and_faces] (datastructures/mesh/mesh.py) *)

(** Modelled from the spec: [key_index()] and [vertex_coordinates(key)] of
    the external kernel: the position of a vertex key in [vertices()], and
    the coordinates stored under the key. *)
Definition key_index (m : Mesh) (key : nat) : option nat :=
  index key (vertices m).

Definition vertex_coordinates (m : Mesh) (key : nat) : option xyz :=
  dget (vertex m) key.

(** [to_vertices_and_faces(keep_keys)]: the two dictionaries when the keys
    are kept, the two lists otherwise. *)
Definition to_vertices_and_faces (m : Mesh) (keep_keys : bool)
    : option (dict nat xyz * dict nat (list nat) + list xyz * list (list nat)) :=
  if keep_keys then
    vs ← mapM (λ vkey, p ← vertex_coordinates m vkey; Some (vkey, p)) (vertices m);
    fs ← mapM (λ fkey, c ← face_vertices m fkey; Some (fkey, c)) (faces m);
    Some (inl (vs, fs))
  else
    vs ← mapM (vertex_coordinates m) (vertices m);
    fs ← mapM (λ fkey, c ← face_vertices m fkey; mapM (key_index m) c) (faces m);
    Some (inr (vs, fs)).

(** A mesh whose half-edge table agrees with its face table, with faces of
    any length from three on, over vertices of the mesh. *)
Record consistent_mesh (m : Mesh) : Prop := {
  cm_vertex_keys : NoDup (vertices m);
  cm_face_keys : NoDup (faces m);
  cm_face : ∀ f cyc, face_vertices m f = Some cyc →
    3 ≤ length cyc ∧ ∀ x, x ∈ cyc → x ∈ vertices m;
  cm_face_he : ∀ f cyc uv, face_vertices m f = Some cyc →
    uv ∈ cycle_keys cyc → halfedge_get m uv.1 uv.2 = Some (Some f);
  cm_he_face : ∀ u v f, halfedge_get m u v = Some (Some f) →
    ∃ cyc, face_vertices m f = Some cyc ∧ (u, v) ∈ cycle_keys cyc;
  cm_he_sym : ∀ u v, is_Some (halfedge_get m u v) →
    is_Some (halfedge_get m v u);
  cm_he_boundary : ∀ u v, halfedge_get m u v = Some None →
    ∃ f, halfedge_get m v u = Some (Some f);
  cm_he_vertices : ∀ u v, is_Some (halfedge_get m u v) → u ∈ vertices m;
}.

Definition consistent_meshb (m : Mesh) : bool :=
  bool_decide (NoDup (vertices m)) && bool_decide (NoDup (faces m))
  && forallb (λ kf : nat * list nat,
       bool_decide (3 ≤ length kf.2)
       && forallb (λ x, py_in x (vertices m)) kf.2
       && forallb (λ uv : edge,
            bool_decide (halfedge_get m uv.1 uv.2 = Some (Some kf.1)))
          (cycle_keys kf.2)) (face m)
  && forallb (λ uv : edge, halfedge_ok m uv && py_in uv.1 (vertices m))
       (halfedges m).

(** Two triangles on the vertex keys 10, 20, 30, 40. *)
Definition kite : Mesh :=
  foldl (λ m f, (add_face m f None).2) empty_mesh [[10; 20; 30]; [10; 30; 40]].

(** The relabelling of the round trip: a key goes to its position in
    [vertices()], a face key to its position in [faces()]. *)
Definition vertex_position (m : Mesh) (key : nat) : nat :=
  default 0 (index key (vertices m)).

Definition face_position (m : Mesh) (fkey : nat) : nat :=
  default 0 (index fkey (faces m)).

(** The entry of a half-edge table, and the table as the trace of the
    assignments made by [add_face]. *)
Definition hget (h : dict nat (dict nat (option nat))) (a b : nat)
    : option (option nat) :=
  d ← dget h a; dget d b.

Definition face_ops (fkey : nat) (cyc : list nat) : list (edge * nat) :=
  (λ uv, (uv, fkey)) <$> cycle_keys cyc.

Definition apply_op (h : dict nat (dict nat (option nat))) (o : edge * nat)
    : dict nat (dict nat (option nat)) :=
  add_face_halfedge o.2 h o.1.

Definition table_ops (faces : dict nat (list nat)) : list (edge * nat) :=
  jc ← faces; face_ops jc.1 jc.2.

(** What [to_vertices_and_faces(keep_keys=False)] exports from a mesh
    whose faces run over its vertices. *)
Definition exported_vertices (m : Mesh) : list xyz :=
  (λ k, default origin (vertex_coordinates m k)) <$> vertices m.

Definition exported_faces (m : Mesh) : list (list nat) :=
  (λ f, vertex_position m <$> default [] (face_vertices m f)) <$> faces m.

(** ** [dual_edge_groups] (topology/polyline_extraction.py) *)

(** [for e0, e1 in edge_groups: if edge_groups[(e0, e1)] == old_group: ...] *)
Definition relabel_group (old_group new_group : nat)
    (edge_groups : dict edge nat) : dict edge nat :=
  foldl (λ eg e,
    if decide (dget eg e = Some old_group)
    then dset (dset eg e new_group) (flip e) new_group
    else eg) edge_groups (dkeys edge_groups).

(** The body of the loop over [[a, b, c, d], [b, c, d, a]]: the state is
    the table and [max_group]. *)
Definition group_pair (st : dict edge nat * nat) (uvwx : edge * edge)
    : dict edge nat * nat :=
  let '(eg, max_group) := st in
  let '((u, v), (w, x)) := uvwx in
  let '(eg, max_group) :=
    if decide (u = v) then
      if dmem eg (w, x) then (eg, max_group)
      else (dset (dset eg (w, x) (S max_group)) (x, w) (S max_group), S max_group)
    else if decide (w = x) then
      if dmem eg (u, v) then (eg, max_group)
      else (dset (dset eg (u, v) (S max_group)) (v, u) (S max_group), S max_group)
    else (eg, max_group) in
  match dget eg (u, v), dget eg (w, x) with
  | Some new_group, Some old_group =>
      (relabel_group old_group new_group eg, max_group)
  | None, Some group =>
      (dset (dset eg (u, v) group) (v, u) group, max_group)
  | Some group, None =>
      (dset (dset eg (w, x) group) (x, w) group, max_group)
  | None, None =>
      let g := S max_group in
      (dset (dset (dset (dset eg (u, v) g) (v, u) g) (w, x) g) (x, w) g, g)
  end.

(** [dual_edge_groups(mesh)]: [Some None] is the Python [None] returned
    for a mesh that is not a quad mesh. *)
Definition dual_edge_groups (m : Mesh) : option (option (dict edge nat * nat)) :=
  if negb (is_quadmesh m) then Some None
  else
    Some <$> foldl (λ st kf,
      st ← st;
      match kf.2 with
      | [a; b; c; d] =>
          Some (foldl group_pair st [((a, b), (c, d)); ((b, c), (d, a))])
      | _ => None
      end) (Some ([], 0)) (face m).

(** ** [face_strip_collapse] (topology/face_strip_operations.py) *)

(** Modelled from the spec: [vertex_faces(v)] of the external kernel, the
    faces of the half-edges going out of [v]. *)
Definition vertex_faces (m : Mesh) (vkey : nat) : option (list nat) :=
  (λ nbrs : dict nat (option nat),
     omap (λ kv : nat * option nat, kv.2) nbrs) <$> dget (halfedge m) vkey.

(** Modelled from the spec: [edge_midpoint(u, v)] of the external kernel. *)
Definition midpoint (p q : xyz) : xyz :=
  ((p.1.1 + q.1.1) / 2, (p.1.2 + q.1.2) / 2, (p.2 + q.2) / 2)%Q.

Definition edge_midpoint (m : Mesh) (u v : nat) : option xyz :=
  p ← vertex_coordinates m u; q ← vertex_coordinates m v; Some (midpoint p q).

(** The first loop: delete the face on each edge of the group. *)
Definition delete_strip_face (m : option Mesh) (uv : edge) : option Mesh :=
  m ← m;
  b ← halfedge_mem m uv.1 uv.2;
  if b : bool then
    fkey ← halfedge_get m uv.1 uv.2;
    match fkey with
    | Some fkey => delete_face m fkey
    | None => Some m
    end
  else Some m.

(** [face_vertices[idx] = w] for [idx = face_vertices.index(vkey)]. *)
Definition substitute_first (vkey w : nat) (face_vertices : list nat)
    : option (list nat) :=
  idx ← index vkey face_vertices; Some (<[idx := w]> face_vertices).

(** The innermost loop: put [w] for [vkey] in a face and replace the
    face. *)
Definition relink_face (vkey w : nat) (m : option Mesh) (fkey : nat)
    : option Mesh :=
  m ← m;
  face_vertices ← face_vertices m fkey;
  face_vertices ← substitute_first vkey w face_vertices;
  m ← delete_face m fkey;
  Some (add_face m face_vertices (Some fkey)).2.

(** The second loop: one new vertex per collapsed edge. *)
Definition merge_edge_vertices (boundary_vertices : list nat)
    (m : option Mesh) (uv : edge) : option Mesh :=
  m ← m;
  p ← (if py_in uv.1 boundary_vertices && negb (py_in uv.2 boundary_vertices)
       then vertex_coordinates m uv.2
       else if py_in uv.2 boundary_vertices && negb (py_in uv.1 boundary_vertices)
       then vertex_coordinates m uv.1
       else edge_midpoint m uv.1 uv.2);
  let '(w, m) := add_vertex m None p in
  foldl (λ m vkey,
    m ← m;
    fkeys ← vertex_faces m vkey;
    foldl (relink_face vkey w) (Some m) fkeys) (Some m) [uv.1; uv.2].

(** [face_strip_collapse(cls, mesh, u, v)]: the returned value ([None] is
    the failure signal, [Some 0] the final [return 0]) and the mesh object
    of the caller afterwards.  The groups come from [dual_edge_groups],
    the function of [polyline_extraction] with the result
    [edge_groups, max_group] that the call unpacks.  [weld_mesh] is
    imported from [joining_welding] and is a parameter; the mesh rebuilt
    from its result is bound to the local name only. *)
Definition face_strip_collapse
    (weld_mesh : Mesh → option (list xyz * list (list nat)))
    (m : Mesh) (u v : nat) : option (option Z * Mesh) :=
  if negb (is_quadmesh m) then Some (None, m)
  else
    a ← halfedge_mem m u v;
    b ← (if a : bool then Some true else halfedge_mem m v u);
    if negb b then Some (None, m)
    else
      groups ← dual_edge_groups m;
      '(edge_groups, max_group) ← groups;
      group_number ← dget edge_groups (u, v);
      let edges_to_collapse :=
        (filter (λ eg, eg.2 = group_number) edge_groups).*1 in
      m ← foldl delete_strip_face (Some m) edges_to_collapse;
      let boundary_vertices := boundary_vertices m in
      m ← foldl (merge_edge_vertices boundary_vertices) (Some m) edges_to_collapse;
      vf ← weld_mesh m;
      let rebuilt := from_vertices_and_faces vf.1 vf.2 in
      Some (Some 0%Z, m).


(** [edges_to_collapse]: the keys of the group of [(u, v)], both
    directions of every edge of the strip. *)
Definition edges_to_collapse (m : Mesh) (u v : nat) : list edge :=
  match dual_edge_groups m with
  | Some (Some (edge_groups, _)) =>
      match dget edge_groups (u, v) with
      | Some group_number =>
          (filter (λ eg, eg.2 = group_number) edge_groups).*1
      | None => []
      end
  | _ => []
  end.

(** A face is touched by a list of edges when one of its sides is among
    them, in either direction. *)
Definition touched (es : list edge) (cyc : list nat) : bool :=
  existsb (λ p, py_in p es || py_in (flip p) es) (cycle_keys cyc).

Definition faces_touched (m : Mesh) (u v : nat) : list nat :=
  (filter (λ kf, touched (edges_to_collapse m u v) kf.2 = true) (face m)).*1.

(** What the kernel keeps of its tables besides the half-edge structure:
    distinct face keys, faces over stored vertices, a row of the
    half-edge table for every vertex, and integer keys below the
    counter that [add_vertex] draws new keys from. *)
Record kernel_mesh (m : Mesh) : Prop := {
  km_face_keys : NoDup (dkeys (face m));
  km_face_vertices : ∀ f cyc x,
    dget (face m) f = Some cyc → x ∈ cyc → x ∈ dkeys (vertex m);
  km_rows : ∀ x, x ∈ dkeys (vertex m) → is_Some (dget (halfedge m) x);
  km_max_key : ∀ x, x ∈ dkeys (vertex m) → (Z.of_nat x ≤ max_int_key m)%Z;
}.

Definition kernel_meshb (m : Mesh) : bool :=
  bool_decide (NoDup (dkeys (face m)))
  && forallb (λ kf : nat * list nat,
       forallb (λ x, py_in x (dkeys (vertex m))) kf.2) (face m)
  && forallb (λ x, dmem (halfedge m) x
                   && bool_decide (Z.of_nat x ≤ max_int_key m)%Z)
       (dkeys (vertex m)).

(** The state of the tables between two steps of the collapse: every
    entry of the half-edge table that names a face is a side of that
    face; conflicting sides may have overwritten one another. *)
Record collapse_inv (m : Mesh) : Prop := {
  ci_face_keys : NoDup (dkeys (face m));
  ci_face_len : ∀ f cyc, dget (face m) f = Some cyc → length cyc = 4;
  ci_face_vertices : ∀ f cyc x,
    dget (face m) f = Some cyc → x ∈ cyc → x ∈ dkeys (vertex m);
  ci_rows : ∀ x, x ∈ dkeys (vertex m) → is_Some (dget (halfedge m) x);
  ci_rows_nodup : ∀ u d, dget (halfedge m) u = Some d → NoDup (dkeys d);
  ci_he_face : ∀ u v f, hget (halfedge m) u v = Some (Some f) →
    ∃ cyc, dget (face m) f = Some cyc ∧ (u, v) ∈ cycle_keys cyc;
  ci_max_key : ∀ x, x ∈ dkeys (vertex m) → (Z.of_nat x ≤ max_int_key m)%Z;
}.

(** The vertices with keys up to [bound] stand at most once in a face. *)
Definition once_below (bound : Z) (m : Mesh) : Prop :=
  ∀ f cyc i j x, dget (face m) f = Some cyc →
    cyc !! i = Some x → cyc !! j = Some x → (Z.of_nat x ≤ bound)%Z → i = j.

(** The rows of a half-edge table hold each neighbour once. *)
Definition rows_nodup (h : dict nat (dict nat (option nat))) : Prop :=
  ∀ u d, dget h u = Some d → NoDup (dkeys d).

(** The table of [dual_edge_groups] between two faces: both directions of
    an edge carry the same group, and the keys are pairs of vertices
    that satisfy [P]. *)
Definition group_inv (P : nat → Prop) (edge_groups : dict edge nat) : Prop :=
  (∀ e, dget edge_groups (flip e) = dget edge_groups e) ∧
  (∀ a b, is_Some (dget edge_groups (a, b)) → P a ∧ P b).

(** One of the directed sides of the face is in the list. *)
Definition side_in (es : list edge) (cyc : list nat) : bool :=
  existsb (λ p, py_in p es) (cycle_keys cyc).

(** The mesh [m] in the first loop of the collapse of [m0], after the
    edges [done]: the faces with a side among them are gone, and the
    rest is a consistent half-edge structure. *)
Record strip_deleted (m0 : Mesh) (done : list edge) (m : Mesh) : Prop := {
  sd_face : face m = filter (λ kf, side_in done kf.2 = false) (face m0);
  sd_vertex : vertex m = vertex m0;
  sd_max_key : max_int_key m = max_int_key m0;
  sd_rows_nodup : rows_nodup (halfedge m);
  sd_rows : ∀ x, is_Some (dget (halfedge m0) x) → is_Some (dget (halfedge m) x);
  sd_face_he : ∀ f cyc p, dget (face m) f = Some cyc → p ∈ cycle_keys cyc →
    hget (halfedge m) p.1 p.2 = Some (Some f);
  sd_he_face : ∀ u v f, hget (halfedge m) u v = Some (Some f) →
    ∃ cyc, dget (face m) f = Some cyc ∧ (u, v) ∈ cycle_keys cyc;
}.


(** ** List utilities (utilities/lists.py) *)

Section lists.
Context {A : Type} `{EqDecision A}.

(** [sorted(set(indices))] on integers: increasing, each value once. *)
Fixpoint insert_sorted (x : Z) (l : list Z) : list Z :=
  match l with
  | [] => [x]
  | y :: l' =>
      if decide (x < y)%Z then x :: l
      else if decide (x = y) then l
      else y :: insert_sorted x l'
  end.

Definition sorted_set (l : list Z) : list Z := foldr insert_sorted [] l.

(** The loop [for index, item in enumerate(l)] of [list_split]; the list
    collected last, [[item]] of the last item, is dropped with the loop. *)
Fixpoint split_loop (n : nat) (indices : list Z) (index : nat) (l : list A)
    (current_list : list A) (split_lists : list (list A)) : list (list A) :=
  match l with
  | [] => split_lists
  | item :: l' =>
      let current_list := current_list ++ [item] in
      if (py_in (Z.of_nat index) indices && negb (index =? 0))
         || (index =? n - 1)
      then split_loop n indices (S index) l' [item]
                      (split_lists ++ [current_list])
      else split_loop n indices (S index) l' current_list split_lists
  end.

(** The list [indices] of the caller after the call: [indices.remove(n - 1)]
    and [indices.append(0)] change it in place before the name is bound
    to the sorted copy. *)
Definition split_indices (l : list A) (indices : list Z) : list Z :=
  if bool_decide (head l = last l)
     && py_in (Z.of_nat (length l) - 1)%Z indices
  then
    let indices := remove1 (Z.of_nat (length l) - 1)%Z indices in
    if py_in 0%Z indices then indices else indices ++ [0%Z]
  else indices.

(** [list_split(l, indices)]: the nested lists, and the list of the
    caller afterwards.  An empty [l] raises at [l[0]]; on a closed list
    without [0] among the indices, [split_lists.pop(0)] followed by
    [split_lists[-1]] raises when only one list was collected. *)
Definition list_split (l : list A) (indices : list Z)
    : option (list (list A) * list Z) :=
  first ← head l;
  lst ← last l;
  let n := length l in
  let closed := bool_decide (first = lst) in
  let caller_indices := split_indices l indices in
  let indices := sorted_set caller_indices in
  let split_lists := split_loop n indices 0 l [] [] in
  if closed && negb (py_in 0%Z indices) then
    '(start, split_lists) ← (match split_lists with
                             | [] => None
                             | p :: rest => Some (drop 1 p, rest)
                             end);
    lst_list ← last split_lists;
    Some (removelast split_lists ++ [lst_list ++ start], caller_indices)
  else Some (split_lists, caller_indices).

(** The lists of a split put together again: each one begins with the
    item the one before ends with. *)
Definition unsplit (split_lists : list (list A)) : list A :=
  match split_lists with
  | [] => []
  | p :: rest => p ++ concat (tail <$> rest)
  end.

(** [sublist_from_to_items_in_closed_list(l, from_item, to_item)]: the
    returned list ([None] inside when the loop finds none) and the list
    [l] of the caller afterwards, closed by [l.append(l[0])]. *)
Definition sublist_from_to_items_in_closed_list (l : list A)
    (from_item to_item : A) : option (option (list A) * list A) :=
  if decide (from_item = to_item) then Some (Some [from_item], l)
  else
    first ← head l;
    lst ← last l;
    let l := if decide (first = lst) then l else l ++ [first] in
    from_idx ← index from_item l;
    to_idx ← index to_item l;
    '(sublists, _) ← list_split l [Z.of_nat from_idx; Z.of_nat to_idx];
    Some (head (filter (λ sublist, head sublist = Some from_item) sublists), l).

(** [are_items_in_list(items, l)]: the loop returns at the first item
    that is not in [l]. *)
Fixpoint are_items_in_list (items l : list A) : bool :=
  match items with
  | [] => true
  | i :: items' => if py_in i l then are_items_in_list items' l else false
  end.

(** [common_items(l1, l2)] *)
Definition common_items (l1 l2 : list A) : list A :=
  filter (λ item, py_in item l2 = true) l1.
End lists.

(** The positions at which [list_split] cuts a list of [n] items besides
    its last one: the indices from [1] to [n - 2] that are among
    [indices]; and the items from position [i] to position [j], both
    included. *)
Definition split_positions (n : nat) (indices : list Z) : list nat :=
  filter (λ k, Z.of_nat k ∈ indices) (seq 1 (n - 2)).

Definition segment {A} (l : list A) (i j : nat) : list A :=
  take (S j - i) (drop i l).

Fixpoint segments {A} (l : list A) (start : nat) (ends : list nat)
    : list (list A) :=
  match ends with
  | [] => []
  | e :: ends' => segment l start e :: segments l e ends'
  end.

(** The positions go up from [start], each one beyond the one before. *)
Fixpoint ascending (start : nat) (ends : list nat) : Prop :=
  match ends with
  | [] => True
  | e :: ends' => start < e ∧ ascending e ends'
  end.

(** ** Mesh modifications (datastructures/mesh/mesh.py) *)

(** [mesh_move_vertex(mesh, vector, vkey)]: the returned coordinates and
    the mesh afterwards.  [vector] is a Python list: a missing component
    raises, as a missing vertex does. *)
Definition mesh_move_vertex (m : Mesh) (vector : list Q) (vkey : nat)
    : option (xyz * Mesh) :=
  p ← dget (vertex m) vkey;
  dx ← vector !! 0;
  dy ← vector !! 1;
  dz ← vector !! 2;
  let p' := (p.1.1 + dx, p.1.2 + dy, p.2 + dz)%Q in
  let m' := {| vertex := dset (vertex m) vkey p'; halfedge := halfedge m;
               face := face m; max_int_key := max_int_key m;
               max_int_fkey := max_int_fkey m; strip := strip m |} in
  p'' ← vertex_coordinates m' vkey;
  Some (p'', m').

(** [mesh_move(mesh, vector)]: the mesh afterwards. *)
Definition mesh_move (m : Mesh) (vector : list Q) : option Mesh :=
  foldl (λ m vkey, m ← m; snd <$> mesh_move_vertex m vector vkey)
        (Some m) (vertices m).

(** [mesh_substitute_vertex_in_faces(mesh, old_vkey, new_vkey, fkeys)]
    for a list [fkeys] given by the caller: one round of its loop, and
    the loop. *)
Definition substitute_in_face (old_vkey new_vkey : nat) (m : option Mesh)
    (fkey : nat) : option Mesh :=
  m ← m;
  fv ← face_vertices m fkey;
  let face_vertices :=
    (λ key, if decide (key = old_vkey) then new_vkey else key) <$> fv in
  m ← delete_face m fkey;
  Some (add_face m face_vertices (Some fkey)).2.

Definition mesh_substitute_vertex_in_faces (m : Mesh)
    (old_vkey new_vkey : nat) (fkeys : list nat) : option Mesh :=
  foldl (substitute_in_face old_vkey new_vkey) (Some m) fkeys.

(** ** The strip table of [mesh_quad.py], read and updated *)

(** [strips()] and [number_of_strips()] *)
Definition strips (m : Mesh) : list Z := dkeys (strip m).

Definition number_of_strips (m : Mesh) : nat := length (strips m).

(** [strip_edges(skey)]: [self.strip[skey]], a [KeyError] for a key that
    is not in the table. *)
Definition strip_edges (m : Mesh) (skey : Z) : option (list edge) :=
  dget (strip m) skey.

(** [is_strip_closed(skey)]:
    [not self.is_edge_on_boundary( *self.strip[skey][0])]. *)
Definition is_strip_closed (m : Mesh) (skey : Z) : option bool :=
  edges ← dget (strip m) skey;
  '(u, v) ← head edges;
  negb <$> is_edge_on_boundary m u v.

(** [edge_strip(edge)]: the loop over [self.strip.items()] returns at the
    first strip holding the edge in one of its directions; the result is
    Python's [None] (here the inner [None]) when the loop ends. *)
Fixpoint edge_strip_loop (items : dict Z (list edge)) (e : edge) : option Z :=
  match items with
  | [] => None
  | (strip, edges) :: items =>
      if py_in e edges || py_in (flip e) edges then Some strip
      else edge_strip_loop items e
  end.

Definition edge_strip (m : Mesh) (e : edge) : option Z :=
  edge_strip_loop (strip m) e.

(** [strip_faces(skey)]:
    [[self.halfedge[u][v] for u, v in self.strip_edges(skey)
      if self.halfedge[u][v] is not None]]. *)
Definition strip_faces (m : Mesh) (skey : Z) : option (list nat) :=
  edges ← strip_edges m skey;
  fs ← mapM (λ uv : edge, halfedge_get m uv.1 uv.2) edges;
  Some (omap id fs).

(** [face_strips(fkey)]:
    [[self.edge_strip((u, v)) for u, v in list(self.face_halfedges(fkey))[:2]]]. *)
Definition face_strips (m : Mesh) (fkey : nat) : option (list (option Z)) :=
  hs ← face_halfedges m fkey;
  Some (edge_strip m <$> take 2 hs).

(** [substitute_vertex_in_strips(old_vkey, new_vkey, strips)]: the new
    entries are computed first (a [KeyError] for a key that is not in the
    table leaves the mesh as it was), then [self.strip.update] stores
    them. *)
Definition substitute_in_edge (old_vkey new_vkey : nat) (e : edge) : edge :=
  (if decide (e.1 = old_vkey) then new_vkey else e.1,
   if decide (e.2 = old_vkey) then new_vkey else e.2).

Definition dupdate {K V} `{EqDecision K} (d : dict K V) (kvs : list (K * V))
    : dict K V :=
  foldl (λ d kv, dset d kv.1 kv.2) d kvs.

Definition substitute_vertex_in_strips (m : Mesh) (old_vkey new_vkey : nat)
    (skeys : option (list Z)) : option Mesh :=
  let skeys := default (strips m) skeys in
  entries ← mapM (λ skey,
    edges ← dget (strip m) skey;
    Some (skey, substitute_in_edge old_vkey new_vkey <$> (edges : list edge)))
    skeys;
  Some (set_strip m (dupdate (strip m) entries)).

(** [delete_face_in_strips(fkey)]: the table is rebuilt, every strip
    without the pairs whose half-edge holds [fkey]; [self.halfedge[u][v]]
    is a [KeyError] for a pair that is not in the half-edge table. *)
Definition delete_face_in_strip (m : Mesh) (fkey : nat) (edges : list edge)
    : option (list edge) :=
  marked ← mapM (λ uv : edge,
    f ← halfedge_get m uv.1 uv.2; Some (uv, f)) edges;
  Some (filter (λ p : edge * option nat, p.2 ≠ Some fkey) marked).*1.

Definition delete_face_in_strips (m : Mesh) (fkey : nat) : option Mesh :=
  table ← mapM (λ skey,
    edges ← dget (strip m) skey;
    edges ← delete_face_in_strip m fkey edges;
    Some (skey, edges)) (strips m);
  Some (set_strip m table).

(** [vertex_index(vkey)].  The module is Python 2 (it has [print]
    statements), where [/] on two integers is the floor division. *)
Definition vertex_index (m : Mesh) (vkey : nat) : option Z :=
  d ← vertex_degree m vkey;
  if decide (d = 0) then Some 0%Z
  else
    b ← is_vertex_on_boundary m vkey;
    let regular_valency := if negb b then 4%Z else 3%Z in
    Some ((regular_valency - Z.of_nat d) `div` 4)%Z.

(** [singularities()] *)
Definition singularities (m : Mesh) : option (list nat) :=
  flags ← mapM (λ vkey, b ← is_vertex_singular m vkey; Some (vkey, b))
             (vertices m);
  Some (filter (λ p : nat * bool, p.2 = true) flags).*1.

(** *** The shape of a collected strip *)

(** What the walk of [collect_strip] leaves: every pair leads to the next
    across a face; and either all pairs have a face and the last leads
    back to the first (the strip is a ring), or the list runs from one
    boundary edge to another: all pairs but the last have a face, and
    neither the last pair nor the first one turned around has one. *)
Definition ring (m : Mesh) (r : list edge) : Prop :=
  (∀ e, e ∈ r → has_face m e) ∧
  ∃ e0 el, head r = Some e0 ∧ last r = Some el ∧ strip_next m el e0.

Definition band (m : Mesh) (r : list edge) : Prop :=
  ∃ e0 r' el, r = e0 :: r' ++ [el] ∧
    (∀ e, e ∈ e0 :: r' → has_face m e) ∧
    ¬ has_face m el ∧ ¬ has_face m (flip e0).

Definition walk_shape (m : Mesh) (r : list edge) : Prop :=
  links m r ∧ (ring m r ∨ band m r).

(** The 2 x 2 grid with its strips collected. *)
Definition grid22_strips : Mesh :=
  default grid22 (snd <$> collect_strips grid22).


(** * Properties *)

(** ** Dictionaries *)

Section dict_facts.
Context {K V : Type} `{EqDecision K}.
Implicit Types (d : dict K V) (k : K) (v : V).

Lemma dget_Some_elem_of d k v : dget d k = Some v → (k, v) ∈ d.
Proof.
  induction d as [|[k' v'] d IH]; simpl; [done|].
  case_decide; [intros [= <-]; subst; left | right; auto].
Qed.

Lemma dget_None_keys d k : dget d k = None ↔ k ∉ dkeys d.
Proof.
  unfold dkeys. induction d as [|[k' v'] d IH]; simpl.
  - split; [intros _; apply not_elem_of_nil | done].
  - case_decide; subst.
    + split; [done | intros []; left].
    + rewrite IH, not_elem_of_cons. tauto.
Qed.

Lemma elem_of_dget d k v : NoDup (dkeys d) → (k, v) ∈ d → dget d k = Some v.
Proof.
  unfold dkeys. induction d as [|[k' v'] d IH]; simpl.
  - intros _ H; by apply elem_of_nil in H.
  - rewrite NoDup_cons. intros [Hk Hd] [[= -> ->]|Hin]%elem_of_cons.
    + by rewrite decide_True.
    + rewrite decide_False; [auto|]. intros ->. apply Hk.
      apply list_elem_of_fmap. by exists (k', v).
Qed.

Lemma dkeys_elem_of d k : k ∈ dkeys d ↔ is_Some (dget d k).
Proof.
  destruct (dget d k) eqn:E.
  - split; [eauto|]. intros _. apply dget_Some_elem_of in E.
    apply list_elem_of_fmap. by exists (k, v).
  - apply dget_None_keys in E. split; [done | by intros [? ?]].
Qed.

Lemma dmem_true d k : dmem d k = true ↔ is_Some (dget d k).
Proof.
  unfold dmem. destruct (dget d k); split; eauto; try done.
Qed.
End dict_facts.

(** ** The half-edge table *)

Lemma halfedges_elem_of m u v :
  (u, v) ∈ halfedges m ↔
  ∃ d x, (u, d) ∈ halfedge m ∧ (v, x) ∈ d.
Proof.
  unfold halfedges. rewrite list_elem_of_bind. split.
  - intros [[u' d] [Hin Hd]]. apply list_elem_of_fmap in Hin as [v' [[= -> ->] Hv]].
    apply list_elem_of_fmap in Hv as [[v'' x] [-> Hx]]. eauto.
  - intros (d & x & Hd & Hx). exists (u, d). split; [|done].
    apply list_elem_of_fmap. exists v. split; [done|].
    apply list_elem_of_fmap. by exists (v, x).
Qed.

Lemma halfedge_get_halfedges m u v :
  is_Some (halfedge_get m u v) → (u, v) ∈ halfedges m.
Proof.
  unfold halfedge_get. intros [x Hx].
  destruct (dget (halfedge m) u) as [d|] eqn:Hd; [|done]. simpl in Hx.
  apply halfedges_elem_of. exists d, x.
  split; by apply dget_Some_elem_of.
Qed.

Lemma wf_meshb_sound m : wf_meshb m = true → wf_mesh m.
Proof.
  unfold wf_meshb. rewrite !andb_true_iff, !bool_decide_eq_true.
  intros [[[[Hf Hh] Hnf] Hnh] Hnn].
  rewrite forallb_forall in Hf, Hh, Hnn.
  assert (Hface : ∀ f vs, face_vertices m f = Some vs → face_ok m (f, vs) = true).
  { intros f vs E. apply Hf, list_elem_of_In, dget_Some_elem_of, E. }
  assert (Hhe : ∀ u v, is_Some (halfedge_get m u v) → halfedge_ok m (u, v) = true).
  { intros u v E. apply Hh, list_elem_of_In, halfedge_get_halfedges, E. }
  split.
  - intros f vs E. apply Hface in E. unfold face_ok in E.
    rewrite !andb_true_iff, !bool_decide_eq_true in E. naive_solver.
  - intros f vs uv E Hin. apply Hface in E. unfold face_ok in E.
    rewrite !andb_true_iff, forallb_forall in E. destruct E as [_ E].
    apply list_elem_of_In, E in Hin. by apply bool_decide_eq_true in Hin.
  - intros u v f E. specialize (Hhe u v (ex_intro _ _ E)).
    unfold halfedge_ok in Hhe. simpl in Hhe. rewrite E in Hhe.
    apply andb_true_iff in Hhe as [Hhe _].
    destruct (face_vertices m f) as [vs|]; [|done].
    exists vs. split; [done|]. by apply bool_decide_eq_true in Hhe.
  - intros u v E. specialize (Hhe u v E). destruct E as [x E].
    unfold halfedge_ok in Hhe. simpl in Hhe. rewrite E in Hhe.
    destruct x.
    + apply andb_true_iff in Hhe as [_ Hhe]. by apply bool_decide_eq_true in Hhe.
    + destruct (halfedge_get m v u) as [[?|]|]; eauto; done.
  - intros u v E. specialize (Hhe u v (ex_intro _ _ E)).
    unfold halfedge_ok in Hhe. simpl in Hhe. rewrite E in Hhe.
    destruct (halfedge_get m v u) as [[?|]|]; eauto; done.
  - intros u d E. apply dget_Some_elem_of, list_elem_of_In, Hnn in E.
    by apply bool_decide_eq_true in E.
  - intros [u v] Hin. simpl. apply halfedges_elem_of in Hin as (d & x & Hd & Hx).
    unfold halfedge_get. rewrite (elem_of_dget _ _ _ Hnh Hd). simpl.
    specialize (Hnn _ (proj1 (list_elem_of_In _ _) Hd)).
    apply bool_decide_eq_true in Hnn. simpl in Hnn.
    rewrite (elem_of_dget _ _ _ Hnn Hx). eauto.
Qed.


(** ** Quad faces *)

Lemma flip_flip e : flip (flip e) = e.
Proof. by destruct e. Qed.

Lemma flip_inj e e' : flip e = flip e' → e = e'.
Proof. destruct e, e'; unfold flip; simpl; congruence. Qed.

Lemma length_four {A} (l : list A) :
  length l = 4 → ∃ a b c d, l = [a; b; c; d].
Proof.
  destruct l as [|a [|b [|c [|d [|]]]]]; simpl; try lia. eauto 6.
Qed.

Lemma NoDup_four (a b c d : nat) :
  NoDup [a; b; c; d] →
  a ≠ b ∧ a ≠ c ∧ a ≠ d ∧ b ≠ c ∧ b ≠ d ∧ c ≠ d.
Proof.
  rewrite !NoDup_cons, !not_elem_of_cons. naive_solver.
Qed.

Section quad.
Context (m : Mesh) (f a b c d : nat).
Hypothesis Hf : face_vertices m f = Some [a; b; c; d].
Hypothesis Hnd : NoDup [a; b; c; d].

Lemma descendant_quad :
  face_vertex_descendant m f a = Some b ∧
  face_vertex_descendant m f b = Some c ∧
  face_vertex_descendant m f c = Some d ∧
  face_vertex_descendant m f d = Some a.
Proof using Hf Hnd.
  destruct (NoDup_four _ _ _ _ Hnd) as (?&?&?&?&?&?).
  unfold face_vertex_descendant. rewrite Hf. simpl.
  repeat split; repeat (case_decide; simplify_eq/=; try done).
Qed.

Lemma cycle_keys_quad :
  cycle_keys [a; b; c; d] = [(a, b); (b, c); (c, d); (d, a)].
Proof. reflexivity. Qed.
End quad.

(** ** The opposite edge across a face *)

Section opposite.
Context (m : Mesh).
Hypothesis Hwf : wf_mesh m.

Lemma has_face_quad u v f :
  halfedge_get m u v = Some (Some f) →
  ∃ a b c d, face_vertices m f = Some [a; b; c; d] ∧ NoDup [a; b; c; d] ∧
    (u, v) ∈ [(a, b); (b, c); (c, d); (d, a)].
Proof using Hwf.
  intros E. destruct (wf_he_face m Hwf _ _ _ E) as (vs & Hvs & Hin).
  destruct (wf_face_quad m Hwf _ _ Hvs) as [Hlen Hnd].
  destruct (length_four _ Hlen) as (a & b & c & d & ->).
  exists a, b, c, d. by rewrite cycle_keys_quad in Hin.
Qed.

Lemma face_opposite_edge_eval u v f w x :
  halfedge_get m u v = Some (Some f) →
  face_vertex_descendant m f v = Some w →
  face_vertex_descendant m f w = Some x →
  face_opposite_edge m u v = Some (w, x).
Proof.
  intros E Hw Hx. unfold face_opposite_edge. rewrite E. simpl.
  rewrite Hw. simpl. by rewrite Hx.
Qed.

Lemma face_opposite_edge_spec u v f :
  halfedge_get m u v = Some (Some f) →
  ∃ w x, face_opposite_edge m u v = Some (w, x) ∧
    halfedge_get m w x = Some (Some f) ∧
    face_opposite_edge m w x = Some (u, v) ∧
    u ≠ v ∧ (w, x) ≠ (u, v) ∧ (w, x) ≠ (v, u).
Proof using Hwf.
  intros E. destruct (has_face_quad _ _ _ E) as (a & b & c & d & Hf & Hnd & Hin).
  destruct (descendant_quad m f a b c d Hf Hnd) as (Ha & Hb & Hc & Hd).
  destruct (NoDup_four _ _ _ _ Hnd) as (?&?&?&?&?&?).
  assert (Hcyc : ∀ p q, (p, q) ∈ [(a, b); (b, c); (c, d); (d, a)] →
            halfedge_get m p q = Some (Some f)).
  { intros p q Hpq. apply (wf_face_he m Hwf f [a; b; c; d] (p, q) Hf).
    by rewrite cycle_keys_quad. }
  assert (Hab := Hcyc a b ltac:(set_solver)).
  assert (Hbc := Hcyc b c ltac:(set_solver)).
  assert (Hcd := Hcyc c d ltac:(set_solver)).
  assert (Hda := Hcyc d a ltac:(set_solver)).
  rewrite !elem_of_cons in Hin.
  destruct Hin as [[= -> ->]|[[= -> ->]|[[= -> ->]|[[= -> ->]|Hin]]]];
    [| | | |by apply elem_of_nil in Hin].
  - exists c, d. rewrite (face_opposite_edge_eval _ _ _ _ _ Hab Hb Hc).
    rewrite (face_opposite_edge_eval _ _ _ _ _ Hcd Hd Ha).
    repeat split; congruence.
  - exists d, a. rewrite (face_opposite_edge_eval _ _ _ _ _ Hbc Hc Hd).
    rewrite (face_opposite_edge_eval _ _ _ _ _ Hda Ha Hb).
    repeat split; congruence.
  - exists a, b. rewrite (face_opposite_edge_eval _ _ _ _ _ Hcd Hd Ha).
    rewrite (face_opposite_edge_eval _ _ _ _ _ Hab Hb Hc).
    repeat split; congruence.
  - exists b, c. rewrite (face_opposite_edge_eval _ _ _ _ _ Hda Ha Hb).
    rewrite (face_opposite_edge_eval _ _ _ _ _ Hbc Hc Hd).
    repeat split; congruence.
Qed.

Lemma opp_has_face e e' : opp m e e' → has_face m e ∧ has_face m e'.
Proof using Hwf.
  unfold opp, has_face. intros H.
  assert (∃ f, halfedge_get m e.1 e.2 = Some (Some f)) as [f Hf].
  { unfold face_opposite_edge in H.
    destruct (halfedge_get m e.1 e.2) as [[f|]|]; simplify_eq/=; eauto. }
  split; [eauto|].
  destruct (face_opposite_edge_spec _ _ _ Hf) as (w & x & Hwx & Hf' & _).
  rewrite Hwx in H. simplify_eq/=. eauto.
Qed.

Lemma has_face_opp e : has_face m e → ∃ e', opp m e e'.
Proof using Hwf.
  intros [f Hf].
  destruct (face_opposite_edge_spec _ _ _ Hf) as (w & x & Hwx & _).
  by exists (w, x).
Qed.

Lemma opp_sym e e' : opp m e e' → opp m e' e.
Proof using Hwf.
  intros H. destruct (opp_has_face _ _ H) as [[f Hf] _].
  destruct (face_opposite_edge_spec _ _ _ Hf) as (w & x & Hwx & _ & Hback & _).
  unfold opp in *. rewrite Hwx in H. simplify_eq/=. by destruct e.
Qed.

Lemma opp_fun e e1 e2 : opp m e e1 → opp m e e2 → e1 = e2.
Proof. unfold opp. congruence. Qed.

Lemma opp_inj e1 e2 e : opp m e1 e → opp m e2 e → e1 = e2.
Proof using Hwf. intros H1%opp_sym H2%opp_sym. eapply opp_fun; eauto. Qed.

Lemma opp_neq e e' : opp m e e' → e' ≠ e ∧ e' ≠ flip e ∧ e.1 ≠ e.2.
Proof using Hwf.
  intros H. destruct (opp_has_face _ _ H) as [[f Hf] _].
  destruct (face_opposite_edge_spec _ _ _ Hf) as (w & x & Hwx & _ & _ & ? & ? & ?).
  unfold opp in H. rewrite Hwx in H. simplify_eq/=. destruct e; simpl in *.
  unfold flip; simpl. done.
Qed.

Lemma has_face_neq e : has_face m e → e.1 ≠ e.2.
Proof using Hwf.
  intros [e' H]%has_face_opp. by apply opp_neq in H as (_ & _ & ?).
Qed.

Lemma strip_step_sym e e' : strip_step m e e' → strip_step m e' e.
Proof using Hwf.
  intros [->|H]; [left; by rewrite flip_flip | right; by apply opp_sym].
Qed.

Lemma same_strip_sym e e' : same_strip m e e' → same_strip m e' e.
Proof using Hwf.
  induction 1 as [|x y z Hxy _ IH]; [constructor|].
  eapply rtc_r; [exact IH | by apply strip_step_sym].
Qed.

Lemma strip_next_fun e e1 e2 :
  strip_next m e e1 → strip_next m e e2 → e1 = e2.
Proof.
  intros (s1 & H1 & ->) (s2 & H2 & ->). f_equal. eapply opp_fun; eauto.
Qed.

Lemma strip_next_inj e1 e2 e :
  strip_next m e1 e → strip_next m e2 e → e1 = e2.
Proof using Hwf.
  intros (s1 & H1 & ->) (s2 & H2 & E). apply flip_inj in E as ->.
  eapply opp_inj; eauto.
Qed.

(** what [halfedge_blocked] answers on a well-formed mesh *)
Lemma halfedge_blocked_spec x w :
  is_Some (dget (halfedge m) x) →
  ∃ b, halfedge_blocked m x w = Some b ∧
    (b = false ↔ has_face m (x, w)).
Proof.
  intros [d Hd]. unfold halfedge_blocked, halfedge_mem, halfedge_get, has_face.
  simpl. unfold halfedge_get. rewrite Hd. simpl. unfold dmem.
  destruct (dget d w) as [[f|]|] eqn:E; simpl.
  - exists false. split; [done|]. split; [eauto|done].
  - exists true. split; [done|]. split; [done|]. by intros [? ?].
  - exists true. split; [done|]. split; [done|]. by intros [? ?].
Qed.

Lemma has_face_key e : has_face m e → is_Some (dget (halfedge m) e.1).
Proof.
  intros [f Hf]. unfold halfedge_get in Hf.
  destruct (dget (halfedge m) e.1); [eauto | done].
Qed.
End opposite.


(** ** Undirected edges *)

Lemma canon_flip e : canon (flip e) = canon e.
Proof.
  destruct e as [u v]. unfold canon, flip; simpl.
  repeat case_decide; simpl; try done; try lia.
  f_equal; lia.
Qed.

Lemma canon_eq e e' : canon e = canon e' ↔ e' = e ∨ e' = flip e.
Proof.
  split.
  - destruct e as [u v], e' as [u' v']. unfold canon, flip; simpl.
    repeat case_decide; simpl; intros [= -> ->]; auto.
  - intros [->| ->]; [done | by rewrite canon_flip].
Qed.

Lemma inU_canon e l : inU e l ↔ canon e ∈ canon <$> l.
Proof.
  unfold inU. rewrite list_elem_of_fmap. split.
  - intros [H|H]; [by exists e | exists (flip e); by rewrite canon_flip].
  - intros [y [Hy Hin]]. apply canon_eq in Hy as [->| ->]; auto.
Qed.

Lemma inU_flip e l : inU (flip e) l ↔ inU e l.
Proof. unfold inU. rewrite flip_flip. tauto. Qed.

Lemma inU_flip_reverse e l : inU e (flip <$> reverse l) ↔ inU e l.
Proof.
  rewrite !inU_canon. rewrite <- list_fmap_compose.
  rewrite (list_fmap_ext (canon ∘ flip) canon (reverse l) (λ _ x _, canon_flip x)).
  rewrite fmap_reverse. apply elem_of_reverse.
Qed.

Lemma NoDup_canon_flip_reverse l :
  NoDup (canon <$> (flip <$> reverse l)) ↔ NoDup (canon <$> l).
Proof.
  rewrite <- list_fmap_compose.
  rewrite (list_fmap_ext (canon ∘ flip) canon (reverse l) (λ _ x _, canon_flip x)).
  rewrite fmap_reverse. by rewrite reverse_Permutation.
Qed.

Lemma NoDup_canon_NoDup l : NoDup (canon <$> l) → NoDup l.
Proof. apply NoDup_fmap_1. Qed.

Lemma NoDup_canon_lookup l i j a b :
  NoDup (canon <$> l) → l !! i = Some a → l !! j = Some b →
  canon a = canon b → i = j.
Proof.
  intros Hnd Hi Hj E.
  eapply (NoDup_lookup _ i j (canon a) Hnd); rewrite list_lookup_fmap.
  - by rewrite Hi.
  - by rewrite Hj, E.
Qed.

Lemma occurrences_canon e l :
  occurrences e l = length (filter (λ x, canon x = canon e) l).
Proof.
  unfold occurrences. induction l as [|y l IH]; [done|].
  rewrite !filter_cons.
  destruct (decide (y = e ∨ y = flip e)) as [H|H];
    destruct (decide (canon y = canon e)) as [H'|H']; simpl; auto.
  - exfalso. apply H'. symmetry. by apply canon_eq.
  - exfalso. apply H. by apply canon_eq.
Qed.

Lemma occurrences_0 e l : ¬ inU e l → occurrences e l = 0.
Proof.
  rewrite occurrences_canon, inU_canon. intros H.
  induction l as [|y l IH]; [done|].
  rewrite fmap_cons, not_elem_of_cons in H. destruct H as [H1 H2].
  rewrite filter_cons. rewrite decide_False by congruence. auto.
Qed.

Lemma occurrences_1 e l : NoDup (canon <$> l) → inU e l → occurrences e l = 1.
Proof.
  rewrite inU_canon. intros Hnd Hin.
  induction l as [|y l IH]; [by apply elem_of_nil in Hin|].
  rewrite fmap_cons in Hnd, Hin. apply NoDup_cons in Hnd as [Hy Hnd].
  rewrite occurrences_canon, filter_cons.
  destruct (decide (canon y = canon e)) as [E|E]; simpl.
  - rewrite <- occurrences_canon, occurrences_0; [done|].
    rewrite inU_canon. by rewrite <- E.
  - rewrite <- occurrences_canon. apply IH; [done|].
    apply elem_of_cons in Hin as [?|?]; [congruence | done].
Qed.

(** ** [edges()] lists every undirected edge once *)

Lemma py_in_canon e seen :
  py_in e seen || py_in (flip e) seen = true ↔ canon e ∈ canon <$> seen.
Proof.
  unfold py_in. rewrite orb_true_iff, !bool_decide_eq_true.
  apply inU_canon.
Qed.

Lemma edges_loop_sound hs seen e :
  e ∈ edges_loop hs seen → e ∈ hs ∧ canon e ∉ canon <$> seen.
Proof.
  revert seen. induction hs as [|[u v] hs IH]; intros seen; simpl.
  - intros H; by apply elem_of_nil in H.
  - destruct (py_in (u, v) seen || py_in (v, u) seen) eqn:E.
    + intros [? ?]%IH. split; [by right | done].
    + intros [->|[H1 H2]%IH]%elem_of_cons.
      * split; [by left|]. intros H. apply py_in_canon in H.
        unfold flip in H; simpl in H. exact (eq_true_false_abs _ H E).
      * split; [by right|]. intros H. apply H2.
        rewrite !fmap_cons. by do 2 right.
Qed.

Lemma edges_loop_complete hs seen e :
  e ∈ hs → canon e ∈ canon <$> seen ∨ canon e ∈ canon <$> edges_loop hs seen.
Proof.
  revert seen. induction hs as [|[u v] hs IH]; intros seen; simpl.
  - intros H; by apply elem_of_nil in H.
  - intros [->|Hin]%elem_of_cons.
    + destruct (py_in (u, v) seen || py_in (v, u) seen) eqn:E.
      * left. by apply (py_in_canon (u, v)).
      * right. rewrite fmap_cons. by left.
    + destruct (py_in (u, v) seen || py_in (v, u) seen) eqn:E; [by apply IH|].
      destruct (IH ((u, v) :: (v, u) :: seen) Hin) as [H|H].
      * rewrite !fmap_cons, !elem_of_cons in H.
        destruct H as [H|[H|H]]; [| |by left];
          right; rewrite fmap_cons, elem_of_cons; left; [done|].
        rewrite H. apply (canon_flip (u, v)).
      * right. rewrite fmap_cons. by right.
Qed.

Lemma edges_loop_NoDup hs seen : NoDup (canon <$> edges_loop hs seen).
Proof.
  revert seen. induction hs as [|[u v] hs IH]; intros seen; simpl.
  - constructor.
  - destruct (py_in (u, v) seen || py_in (v, u) seen) eqn:E; [apply IH|].
    rewrite fmap_cons. apply NoDup_cons. split; [|apply IH].
    intros [y [Hy Hin]]%list_elem_of_fmap.
    apply edges_loop_sound in Hin as [_ Hin]. apply Hin.
    rewrite <- Hy, fmap_cons. by left.
Qed.

Lemma edges_NoDup m : NoDup (canon <$> edges m).
Proof. apply edges_loop_NoDup. Qed.

Lemma edges_halfedges m e : e ∈ edges m → e ∈ halfedges m.
Proof. by intros [? _]%edges_loop_sound. Qed.

Lemma halfedges_edges m e : e ∈ halfedges m → inU e (edges m).
Proof.
  intros H. apply inU_canon.
  destruct (edges_loop_complete _ [] _ H) as [H'|H']; [|done].
  by apply elem_of_nil in H'.
Qed.

(** Pairwise distinct edges of the mesh are at most [number_of_edges]. *)
Lemma length_le_number_of_edges m l :
  NoDup (canon <$> l) → (∀ e, e ∈ l → inU e (edges m)) →
  length l ≤ number_of_edges m.
Proof.
  intros Hnd Hin. unfold number_of_edges.
  rewrite <- (length_fmap canon l), <- (length_fmap canon (edges m)).
  apply submseteq_length, NoDup_submseteq; [done|].
  intros x [y [-> Hy]]%list_elem_of_fmap. by apply inU_canon, Hin.
Qed.


(** ** The strip walk *)

Section strip_walk.
Context (m : Mesh).
Hypothesis Hwf : wf_mesh m.

Lemma has_face_inU_edges e : has_face m e → inU e (edges m).
Proof.
  intros [f Hf]. apply halfedges_edges.
  destruct e as [u v]. apply halfedge_get_halfedges. simpl in Hf. eauto.
Qed.

Lemma has_face_flip_key e : has_face m e → is_Some (dget (halfedge m) e.2).
Proof using Hwf.
  intros [f Hf].
  destruct (wf_he_sym m Hwf e.1 e.2) as [x Hx]; [eauto|].
  unfold halfedge_get in Hx. destruct (dget (halfedge m) e.2); [eauto|done].
Qed.

Lemma links_snoc l e e' :
  links m l → last l = Some e → strip_next m e e' → links m (l ++ [e']).
Proof.
  intros Hl Hlast Hn i a b Ha Hb.
  assert (S i < length (l ++ [e'])) as Hlt by (eapply lookup_lt_Some; eauto).
  rewrite length_app in Hlt. simpl in Hlt.
  rewrite lookup_app_l in Ha by lia.
  destruct (decide (S i < length l)) as [Hlt'|Hge].
  - rewrite lookup_app_l in Hb by lia. eauto.
  - assert (S i = length l) as Hi by lia.
    rewrite lookup_app_r, <- Hi, Nat.sub_diag in Hb by lia.
    simpl in Hb. simplify_eq.
    rewrite last_lookup, <- Hi in Hlast. simpl in Hlast. by simplify_eq.
Qed.

Lemma links_pred l i e :
  links m l → l !! S i = Some e → ∃ p, l !! i = Some p ∧ strip_next m p e.
Proof.
  intros Hl Hi. destruct (lookup_lt_is_Some_2 l i) as [p Hp].
  { apply lookup_lt_Some in Hi. lia. }
  eauto.
Qed.

Lemma links_succ l i e :
  links m l → l !! i = Some e → S i < length l →
  ∃ s, l !! S i = Some s ∧ strip_next m e s.
Proof.
  intros Hl Hi Hlt. destruct (lookup_lt_is_Some_2 l (S i)) as [s Hs]; eauto.
Qed.

Lemma strip_next_flip_opp e e' : strip_next m e e' → opp m e (flip e').
Proof. intros (s & Hs & ->). by rewrite flip_flip. Qed.

Lemma opp_strip_next e s : opp m e s → strip_next m e (flip s).
Proof. intros H. by exists s. Qed.

Lemma links_closed l :
  links m l →
  (∀ e, last l = Some e →
     ¬ has_face m e ∨ ∃ h, head l = Some h ∧ strip_next m e h) →
  (∀ h, head l = Some h →
     ¬ has_face m (flip h) ∨ ∃ e, last l = Some e ∧ strip_next m e h) →
  strip_closed m l.
Proof using Hwf.
  intros Hl Hlast Hhead e e' Hin [->|Hopp]; [by apply inU_flip|].
  destruct (opp_has_face m Hwf _ _ Hopp) as [Hfe _].
  destruct Hin as [Hin|Hin]; apply list_elem_of_lookup in Hin as [i Hi].
  - destruct (decide (S i < length l)) as [Hlt|Hge].
    + destruct (links_succ _ _ _ Hl Hi Hlt) as (s & Hs & Hn).
      apply strip_next_flip_opp in Hn.
      rewrite (opp_fun m _ _ _ Hopp Hn). right. rewrite flip_flip.
      eapply list_elem_of_lookup_2; eauto.
    + assert (last l = Some e) as Hl'.
      { rewrite last_lookup. apply lookup_lt_Some in Hi as Hi'.
        by replace (pred (length l)) with i by lia. }
      destruct (Hlast _ Hl') as [Hno|(h & Hh & Hn)]; [done|].
      apply strip_next_flip_opp in Hn.
      rewrite (opp_fun m _ _ _ Hopp Hn). right. rewrite flip_flip.
      by apply head_Some_elem_of.
  - destruct i as [|i].
    + rewrite <- head_lookup in Hi.
      destruct (Hhead _ Hi) as [Hno|(p & Hp & Hn)].
      { by rewrite flip_flip in Hno. }
      apply strip_next_flip_opp in Hn. rewrite flip_flip in Hn.
      apply (opp_sym m Hwf) in Hn.
      rewrite (opp_fun m _ _ _ Hopp Hn). left.
      by apply last_Some_elem_of.
    + destruct (links_pred _ _ _ Hl Hi) as (p & Hp & Hn).
      apply strip_next_flip_opp in Hn. rewrite flip_flip in Hn.
      apply (opp_sym m Hwf) in Hn.
      rewrite (opp_fun m _ _ _ Hopp Hn). left.
      eapply list_elem_of_lookup_2; eauto.
Qed.

Lemma strip_closed_flip_reverse l :
  strip_closed m l → strip_closed m (flip <$> reverse l).
Proof.
  intros H e e'. rewrite !inU_flip_reverse. apply H.
Qed.

Lemma strip_closed_rtc l e e' :
  strip_closed m l → inU e l → same_strip m e e' → inU e' l.
Proof.
  intros Hc Hin Hs. induction Hs as [|x y z Hxy _ IH]; [done|].
  apply IH. eapply Hc; eauto.
Qed.

(** The pair appended by a round of the walk is new. *)
Lemma strip_next_fresh l e e0 b :
  chain m l → NoDup (canon <$> l) →
  last l = Some e → head l = Some e0 →
  strip_next m e b → b ≠ e0 → ¬ inU b l.
Proof using Hwf.
  intros [Hface Hl] Hnd Hlast Hhead Hn Hne [Hin|Hin];
    apply list_elem_of_lookup in Hin as [j Hj].
  - destruct j as [|j].
    + rewrite <- head_lookup in Hj. congruence.
    + destruct (links_pred _ _ _ Hl Hj) as (p & Hp & Hn').
      assert (p = e) as -> by (eapply strip_next_inj; eauto).
      rewrite last_lookup in Hlast.
      assert (j = pred (length l)) as ->.
      { by eapply (NoDup_lookup l _ _ e); [apply NoDup_canon_NoDup|..]. }
      apply lookup_lt_Some in Hj. lia.
  - apply strip_next_flip_opp in Hn.
    assert (opp m (flip b) e) as Hback by by apply opp_sym.
    rewrite last_lookup in Hlast.
    destruct (decide (S j < length l)) as [Hlt|Hge].
    + destruct (links_succ _ _ _ Hl Hj Hlt) as (s & Hs & Hn').
      apply strip_next_flip_opp in Hn'.
      assert (e = flip s) as E by (eapply opp_fun; eauto).
      assert (S j = pred (length l)) as Hidx.
      { eapply (NoDup_canon_lookup l); eauto.
        rewrite E. by rewrite canon_flip. }
      rewrite <- Hidx, Hs in Hlast. simplify_eq.
      apply opp_neq in Hn as (_ & _ & Hn); [|done].
      destruct s as [s1 s2]. unfold flip in *. simpl in *. simplify_eq.
    + assert (j = pred (length l)) as ->.
      { apply lookup_lt_Some in Hj. lia. }
      rewrite Hj in Hlast. simplify_eq.
      by apply (opp_neq m Hwf) in Hn as (? & _ & _).
Qed.

Lemma chain_reverse l e e0 b :
  chain m l → last l = Some e → head l = Some e0 →
  strip_next m e b → has_face m (flip e0) →
  chain m (flip <$> reverse (l ++ [b])).
Proof using Hwf.
  intros [Hface Hl] Hlast Hhead Hn Hf0.
  assert (links m (l ++ [b])) as Hl1 by (eapply links_snoc; eauto).
  split.
  - intros y [x [-> Hx]]%list_elem_of_fmap.
    rewrite elem_of_reverse in Hx. apply list_elem_of_lookup in Hx as [i Hi].
    destruct i as [|i].
    + rewrite <- head_lookup, head_app, Hhead in Hi. by simplify_eq/=.
    + destruct (links_pred _ _ _ Hl1 Hi) as (p & Hp & Hn').
      apply strip_next_flip_opp in Hn'.
      by apply opp_has_face in Hn' as [_ ?].
  - intros i a a' Ha Ha'.
    rewrite list_lookup_fmap in Ha, Ha'.
    destruct (reverse (l ++ [b]) !! i) as [y|] eqn:Hy; [|done].
    destruct (reverse (l ++ [b]) !! S i) as [y'|] eqn:Hy'; [|done].
    simplify_eq/=.
    apply reverse_lookup_Some in Hy as [Hy Hlt].
    apply reverse_lookup_Some in Hy' as [Hy' Hlt'].
    replace (length (l ++ [b]) - S i) with (S (length (l ++ [b]) - S (S i)))
      in Hy by lia.
    pose proof (Hl1 _ _ _ Hy' Hy) as Hn'.
    apply strip_next_flip_opp in Hn'. apply (opp_sym m Hwf) in Hn'.
    exists y'. done.
Qed.

Lemma collect_strip_loop_spec seed count l :
  chain m l → l ≠ [] → NoDup (canon <$> l) →
  (∀ e, e ∈ l → same_strip m seed e) →
  length l + count = S (number_of_edges m) →
  ∃ r, collect_strip_loop m count l = Some r ∧ r ≠ [] ∧
    NoDup (canon <$> r) ∧ (∀ e, e ∈ r → same_strip m seed e) ∧
    strip_closed m r.
Proof using Hwf.
  revert l. induction count as [|count IH]; intros l Hch Hne Hnd Hconn Hlen.
  { exfalso. assert (length l ≤ number_of_edges m); [|lia].
    apply length_le_number_of_edges; [done|].
    intros e He. apply has_face_inU_edges. by apply Hch. }
  destruct (last l) as [[u v]|] eqn:Hlast; [|by apply last_None in Hlast].
  destruct (head l) as [e0|] eqn:Hhead; [|by apply head_None in Hhead].
  assert (has_face m (u, v)) as Hfl.
  { apply Hch. by apply last_Some_elem_of. }
  destruct (has_face_opp m Hwf _ Hfl) as [[w x] Hopp].
  pose proof (opp_strip_next _ _ Hopp) as Hnext.
  destruct (opp_has_face m Hwf _ _ Hopp) as [_ Hfs].
  simpl. rewrite Hlast. simpl. unfold opp in Hopp. simpl in Hopp.
  rewrite Hopp. simpl. rewrite Hhead. simpl.
  change (flip (w, x)) with (x, w) in Hnext.
  case_decide as Hclosed.
  { (* the walk is back at its first edge *)
    exists l. repeat split; try done.
    apply links_closed; [apply Hch|..].
    - intros e He. right. exists e0. split; [done|]. congruence.
    - intros h Hh. right. exists (u, v). split; [done|]. congruence. }
  assert (¬ inU (x, w) l) as Hfresh by (eapply strip_next_fresh; eauto).
  assert (NoDup (canon <$> (l ++ [(x, w)]))) as Hnd1.
  { rewrite fmap_app. apply NoDup_app. split; [done|]. split.
    - intros y Hy [->|[]%elem_of_nil]%elem_of_cons.
      by apply Hfresh, inU_canon.
    - simpl. apply NoDup_singleton. }
  assert (∀ e, e ∈ l ++ [(x, w)] → same_strip m seed e) as Hconn1.
  { intros e [He|He]%elem_of_app; [by apply Hconn|].
    apply list_elem_of_singleton in He as ->.
    eapply rtc_r; [eapply rtc_r|].
    - apply Hconn. by apply last_Some_elem_of.
    - right. exact Hopp.
    - by left. }
  destruct (halfedge_blocked_spec m x w) as (bl & Hbl & Hblspec).
  { apply (has_face_flip_key (w, x) Hfs). }
  rewrite Hbl. simpl. destruct bl.
  - (* the strip reached the boundary: turn around *)
    assert (¬ has_face m (x, w)) as Hnf.
    { intros H. by apply Hblspec in H. }
    rewrite fmap_last, last_reverse, head_app, Hhead. simpl.
    assert (has_face m e0) as Hf0 by by apply Hch, head_Some_elem_of.
    destruct (halfedge_blocked_spec m e0.2 e0.1) as (bl' & Hbl' & Hblspec').
    { apply (has_face_flip_key e0 Hf0). }
    rewrite Hbl'. simpl. destruct bl'.
    + exists (flip <$> reverse (l ++ [(x, w)])). split; [done|].
      split.
      { intros H. apply fmap_nil_inv in H.
        apply (f_equal reverse) in H. rewrite reverse_involutive in H.
        by destruct l. }
      split; [by apply NoDup_canon_flip_reverse|]. split.
      { intros e [y [-> Hy]]%list_elem_of_fmap.
        rewrite elem_of_reverse in Hy.
        eapply rtc_r; [by apply Hconn1 | by left]. }
      apply strip_closed_flip_reverse, links_closed.
      * eapply links_snoc; eauto. apply Hch.
      * intros e He. rewrite last_snoc in He. simplify_eq. by left.
      * intros h Hh. rewrite head_app, Hhead in Hh. simplify_eq/=.
        left. intros H. by apply Hblspec' in H.
    + apply IH.
      * eapply chain_reverse; eauto. by apply Hblspec'.
      * intros H. apply fmap_nil_inv in H.
        apply (f_equal reverse) in H. rewrite reverse_involutive in H.
        by destruct l.
      * by apply NoDup_canon_flip_reverse.
      * intros e [y [-> Hy]]%list_elem_of_fmap.
        rewrite elem_of_reverse in Hy.
        eapply rtc_r; [by apply Hconn1 | by left].
      * rewrite length_fmap, length_reverse, length_app. simpl. lia.
  - (* the strip goes on *)
    apply IH; try done.
    + split.
      * intros e [He|He]%elem_of_app; [by apply Hch|].
        apply list_elem_of_singleton in He as ->. by apply Hblspec.
      * eapply links_snoc; eauto. apply Hch.
    + by destruct l.
    + rewrite length_app. simpl. lia.
Qed.
End strip_walk.


(** ** Consuming edges *)

Section remove.
Context {A : Type} `{EqDecision A}.
Implicit Types (l : list A) (x y : A).

Lemma remove1_sublist x l : remove1 x l `sublist_of` l.
Proof.
  induction l as [|y l IH]; simpl; [done|].
  case_decide; [by apply sublist_cons | by apply sublist_skip].
Qed.

Lemma elem_of_remove1 x y l :
  NoDup l → x ∈ remove1 y l ↔ x ∈ l ∧ x ≠ y.
Proof.
  induction l as [|z l IH]; simpl; intros Hnd.
  - split; [by intros ?%elem_of_nil | by intros [?%elem_of_nil _]].
  - apply NoDup_cons in Hnd as [Hz Hnd]. case_decide; subst.
    + rewrite elem_of_cons. split; [|naive_solver].
      intros H. split; [by right|]. by intros ->.
    + rewrite !elem_of_cons, IH by done. naive_solver.
Qed.

Lemma pop_Some l x l' : pop l = Some (x, l') ↔ l = l' ++ [x].
Proof.
  unfold pop. split.
  - destruct (last l) as [y|] eqn:E; [|done]. intros [= -> <-].
    apply last_Some in E as [l'' ->]. by rewrite List.removelast_last.
  - intros ->. by rewrite last_snoc, List.removelast_last.
Qed.

Lemma pop_None l : pop l = None ↔ l = [].
Proof.
  unfold pop. destruct (last l) eqn:E; [|by apply last_None in E].
  split; [done|]. intros ->. done.
Qed.
End remove.

Lemma NoDup_canon_inj l x y :
  NoDup (canon <$> l) → x ∈ l → y ∈ l → canon x = canon y → x = y.
Proof.
  intros Hnd [i Hi]%list_elem_of_lookup [j Hj]%list_elem_of_lookup E.
  assert (i = j) by (eapply NoDup_canon_lookup; eauto). congruence.
Qed.

Lemma NoDup_canon_sublist l k :
  l `sublist_of` k → NoDup (canon <$> k) → NoDup (canon <$> l).
Proof.
  intros H Hnd. eapply sublist_NoDup; [exact Hnd|]. by apply fmap_sublist.
Qed.

Lemma remove_collected_cons uv es rest :
  remove_collected (uv :: es) rest =
  remove_collected es
    (if py_in uv rest then remove1 uv rest
     else if py_in (flip uv) rest then remove1 (flip uv) rest else rest).
Proof. reflexivity. Qed.

Lemma remove_collected_spec es rest :
  NoDup (canon <$> rest) →
  remove_collected es rest `sublist_of` rest ∧
  ∀ x, x ∈ remove_collected es rest ↔ x ∈ rest ∧ ¬ inU x es.
Proof.
  revert rest. induction es as [|uv es IH]; intros rest Hnd.
  { split; [done|]. intros x. unfold inU. split; [|tauto].
    intros H. split; [done|]. by intros [?%elem_of_nil|?%elem_of_nil]. }
  rewrite remove_collected_cons.
  set (rest' := if py_in uv rest then remove1 uv rest
     else if py_in (flip uv) rest then remove1 (flip uv) rest else rest).
  assert (rest' `sublist_of` rest ∧
          ∀ x, x ∈ rest' ↔ x ∈ rest ∧ canon x ≠ canon uv) as [Hsub Hmem].
  { pose proof (NoDup_canon_NoDup _ Hnd) as Hnd'.
    unfold rest', py_in. repeat case_bool_decide.
    - split; [apply remove1_sublist|]. intros x.
      rewrite elem_of_remove1 by done. split; intros [Hx Hne]; split; auto.
      + intros E. apply Hne. eapply NoDup_canon_inj; eauto.
      + by intros ->.
    - split; [apply remove1_sublist|]. intros x.
      rewrite elem_of_remove1 by done. split; intros [Hx Hne]; split; auto.
      + intros E. apply Hne. eapply NoDup_canon_inj; eauto.
        by rewrite canon_flip.
      + intros ->. by rewrite canon_flip in Hne.
    - split; [done|]. intros x. split; [|tauto]. intros Hx. split; [done|].
      intros [->| ->]%canon_eq; [done|].
      by rewrite flip_flip in *. }
  destruct (IH rest') as [Hsub' Hmem'].
  { eapply NoDup_canon_sublist; eauto. }
  split; [by etrans|]. intros x. rewrite Hmem', Hmem.
  rewrite !inU_canon, fmap_cons, elem_of_cons. tauto.
Qed.

(** ** [collect_strip] and [collect_strips] *)

Section strips.
Context (m : Mesh).
Hypothesis Hwf : wf_mesh m.

Lemma same_strip_edges e e' :
  inU e (edges m) → same_strip m e e' → inU e' (edges m).
Proof using Hwf.
  intros He Hs. induction Hs as [|x y z Hxy _ IH]; [done|].
  apply IH. destruct Hxy as [->|Hopp]; [by apply inU_flip|].
  apply has_face_inU_edges. by apply opp_has_face in Hopp as [_ ?].
Qed.

Lemma collect_strip_spec u0 v0 :
  is_Some (halfedge_get m u0 v0) →
  ∃ r, collect_strip m u0 v0 = Some r ∧ is_strip m (u0, v0) r ∧
    strip_closed m r.
Proof using Hwf.
  intros [f Hf]. unfold collect_strip. rewrite Hf. simpl.
  set (e0 := if decide (f = None) then (v0, u0) else (u0, v0)).
  assert (has_face m e0 ∧ same_strip m (u0, v0) e0) as [Hf0 Hs0].
  { unfold e0. destruct (decide (f = None)) as [->|Hnn].
    - destruct (wf_he_boundary m Hwf _ _ Hf) as [g Hg].
      split; [by exists g|]. apply rtc_once. by left.
    - destruct f as [f|]; [|done]. split; [by exists f|constructor]. }
  destruct (collect_strip_loop_spec m Hwf (u0, v0) (number_of_edges m) [e0])
    as (r & Hr & Hne & Hnd & Hconn & Hclosed).
  - split.
    + by intros e ->%list_elem_of_singleton.
    + intros i a b Ha Hb. destruct i; done.
  - done.
  - apply NoDup_singleton.
  - by intros e ->%list_elem_of_singleton.
  - simpl. lia.
  - exists r. split; [done|]. split; [|done]. split; [done|].
    split; [done|]. intros e. split.
    + intros [He|He]; [by apply Hconn|].
      eapply rtc_r; [by apply Hconn|]. left. by rewrite flip_flip.
    + intros Hs. destruct r as [|x r]; [done|].
      assert (inU (u0, v0) (x :: r)) as Hseed.
      { eapply strip_closed_rtc; [done| |].
        - left. by left.
        - apply same_strip_sym; [done|]. apply Hconn. by left. }
      eapply strip_closed_rtc; eauto.
Qed.

Lemma halfedge_mem_get u v x :
  halfedge_get m u v = Some x → halfedge_mem m u v = Some true.
Proof.
  unfold halfedge_get, halfedge_mem, dmem.
  destruct (dget (halfedge m) u) as [d|]; simpl; [|done].
  by intros ->.
Qed.

Lemma not_none_edges_spec :
  ∃ rest, not_none_edges m = Some rest ∧
    canon <$> rest = canon <$> edges m ∧
    ∀ e, e ∈ rest → has_face m e.
Proof using Hwf.
  unfold not_none_edges.
  assert (∀ e, e ∈ edges m → is_Some (halfedge_get m e.1 e.2)) as Hin.
  { intros e He. by apply (wf_halfedges m Hwf), edges_halfedges. }
  induction (edges m) as [|e l IH].
  { exists []. repeat split. by intros e ?%elem_of_nil. }
  destruct IH as (rest & Hrest & Hcan & Hface).
  { intros e' He'. apply Hin. by right. }
  destruct (Hin e) as [f Hf]; [by left|].
  simpl. rewrite (halfedge_mem_get _ _ _ Hf). simpl. rewrite Hf. simpl.
  rewrite Hrest. simpl. eexists. split; [done|].
  destruct (decide (f = None)) as [->|Hnn].
  - split; [by rewrite fmap_cons, canon_flip, Hcan|].
    intros e' [->|?]%elem_of_cons; [|by auto].
    destruct (wf_he_boundary m Hwf _ _ Hf) as [g Hg]. by exists g.
  - split; [by rewrite fmap_cons, Hcan|].
    intros e' [->|?]%elem_of_cons; [|by auto].
    destruct f as [f|]; [by exists f | done].
Qed.

Lemma dget_dset {K V} `{EqDecision K} (d : dict K V) k v k' :
  dget (dset d k v) k' = if decide (k' = k) then Some v else dget d k'.
Proof.
  induction d as [|[k0 v0] d IH]; simpl.
  - by repeat case_decide.
  - repeat (case_decide; simpl; subst); try done.
Qed.

Lemma dkeys_dset_fresh {K V} `{EqDecision K} (d : dict K V) k v :
  k ∉ dkeys d → dkeys (dset d k v) = dkeys d ++ [k].
Proof.
  unfold dkeys. induction d as [|[k0 v0] d IH]; simpl; [done|].
  rewrite not_elem_of_cons. intros [Hne Hk].
  rewrite decide_False by done. rewrite !fmap_cons. simpl. f_equal. by apply IH.
Qed.

Lemma collect_strips_loop_spec fuel rest k table :
  table_ok m k table → edges_split m rest table →
  NoDup (canon <$> rest) → (∀ e, e ∈ rest → has_face m e) →
  length rest ≤ fuel →
  ∃ k' table', collect_strips_loop m fuel rest k table = Some (k', table') ∧
    table_ok m k' table' ∧ edges_split m [] table' ∧
    (rest = [] → k' = k ∧ table' = table).
Proof using Hwf.
  revert rest k table.
  induction fuel as [|fuel IH]; intros rest k table Htab Hsplit Hnd Hface Hlen.
  { destruct rest; [|simpl in Hlen; lia]. simpl. eauto 10. }
  destruct (pop rest) as [[[u0 v0] rest']|] eqn:Hpop.
  2:{ apply pop_None in Hpop as ->. simpl. eauto 10. }
  simpl. rewrite Hpop. apply pop_Some in Hpop as ->.
  assert (has_face m (u0, v0)) as Hf0.
  { apply Hface, elem_of_app. right. by left. }
  destruct (collect_strip_spec u0 v0) as (r & Hr & (Hrne & Hrnd & Hrmem) & Hrcl).
  { destruct Hf0 as [f Hf]. eauto. }
  rewrite Hr. simpl.
  rewrite fmap_app in Hnd. apply NoDup_app in Hnd as (Hnd' & Hnd0 & _).
  destruct (remove_collected_spec r rest' Hnd') as [Hsub Hmem].
  destruct Htab as (Hkeys & Hk & Hent & Hdisj).
  assert (inU (u0, v0) (edges m)) as Hseed by by apply has_face_inU_edges.
  assert (∀ s l, dget table s = Some l → ¬ inU (u0, v0) l) as Hseed_new.
  { destruct (Hsplit _ Hseed) as [[_ H]|[H _]]; [done|].
    exfalso. apply H. left. apply elem_of_app. right. by left. }
  assert (∀ s l e, dget table s = Some l → inU e l → ¬ inU e r) as Hnew.
  { intros s l e Hs Hel Her. apply (Hseed_new _ _ Hs).
    destruct (Hent _ _ Hs) as (_ & _ & Hcl & _).
    eapply strip_closed_rtc; [done..|].
    apply same_strip_sym; [done|]. by apply Hrmem. }
  assert ((k + 1)%Z ∉ dkeys table) as Hfresh.
  { rewrite Hkeys. intros [i [Hi Hin]]%list_elem_of_fmap.
    apply elem_of_seq in Hin. lia. }
  assert (∀ s l, dget table s = Some l → s ≠ (k + 1)%Z) as Hold.
  { intros s l Hs ->. apply Hfresh, dkeys_elem_of. eauto. }
  destruct (IH (remove_collected r rest') (k + 1)%Z (dset table (k + 1)%Z r))
    as (k' & table' & Hloop & Htab' & Hsplit' & _).
  - split; [|split; [lia|split]].
    + rewrite dkeys_dset_fresh, Hkeys by done.
      replace (Z.to_nat (k + 1 + 1)) with (S (Z.to_nat (k + 1))) by lia.
      rewrite seq_S, fmap_app. simpl. do 3 f_equal. lia.
    + intros s l. rewrite dget_dset. case_decide; [|by apply Hent].
      intros [= <-]. repeat split; try done.
      intros e He. eapply same_strip_edges; [exact Hseed|].
      apply Hrmem. by left.
    + intros s s' l l' e. rewrite !dget_dset.
      repeat case_decide; subst; try done.
      * intros [= <-] Hs' _ He He'. by eapply Hnew.
      * intros Hs [= <-] _ He He'. by eapply Hnew.
      * by apply Hdisj.
  - intros e He. destruct (decide (canon e ∈ canon <$> r)) as [Hin|Hnin].
    + right. split.
      * intros [H|H]; apply Hmem in H as [_ H]; apply H;
          [|apply inU_flip]; by apply inU_canon.
      * exists (k + 1)%Z, r. rewrite dget_dset, decide_True by done.
        split; [done|]. by apply inU_canon.
    + assert (¬ inU e r) as Hnr by by rewrite inU_canon.
      assert (∀ x, x ∈ rest' ++ [(u0, v0)] → ¬ inU x r → x ∈ remove_collected r rest')
        as Hkeep.
      { intros x [Hx|Hx]%elem_of_app Hxr; [by apply Hmem|].
        apply list_elem_of_singleton in Hx as ->.
        exfalso. apply Hxr, Hrmem. constructor. }
      destruct (Hsplit _ He) as [[Hin Hno]|[Hnin' (s & l & Hs & Hl)]].
      * left. split.
        -- destruct Hin as [Hin|Hin]; [left|right]; apply Hkeep; try done.
           by rewrite inU_flip.
        -- intros s l. rewrite dget_dset. case_decide; [|by apply Hno].
           by intros [= <-].
      * right. split.
        -- intros [H|H]; apply Hmem in H as [H _]; apply Hnin';
             [left|right]; apply elem_of_app; by left.
        -- exists s, l. rewrite dget_dset, decide_False; [done|].
           by eapply Hold.
  - eapply NoDup_canon_sublist; eauto.
  - intros e He. apply Hface, elem_of_app. left. by apply Hmem in He as [? _].
  - apply sublist_length in Hsub. rewrite length_app in Hlen. simpl in Hlen. lia.
  - exists k', table'. split; [done|]. split; [done|]. split; [done|].
    intros H. by apply app_nil in H as [_ [=]].
Qed.
End strips.


Lemma collect_strips_spec m :
  wf_mesh m →
  ∃ k table, collect_strips m = Some (k, set_strip m table) ∧
    table_ok m k table ∧ edges_split m [] table.
Proof.
  intros Hwf. unfold collect_strips.
  destruct (not_none_edges_spec m Hwf) as (rest & -> & Hcan & Hface). simpl.
  assert (table_ok m (-1) []) as Htab0.
  { split; [done|]. split; [done|].
    split; [intros s l [=] | intros s s' l l' e [=]]. }
  assert (edges_split m rest []) as Hsplit0.
  { intros e He. left. split; [|done].
    apply inU_canon. rewrite Hcan. by apply inU_canon. }
  assert (NoDup (canon <$> rest)) as Hnd0.
  { rewrite Hcan. apply edges_NoDup. }
  destruct (collect_strips_loop_spec m Hwf (length rest) rest (-1) []
              Htab0 Hsplit0 Hnd0 Hface (le_n _))
    as (k & table & -> & Htab & Hsplit & _).
  simpl. eauto.
Qed.

Lemma table_ok_length m k table :
  table_ok m k table → k = (Z.of_nat (length table) - 1)%Z.
Proof.
  intros (Hkeys & Hk & _). apply (f_equal length) in Hkeys.
  unfold dkeys in Hkeys. rewrite !length_fmap, length_seq in Hkeys. lia.
Qed.



(** C10. [collect_strips] numbers the strips 0, 1, ..., k and returns the
    last number k, the number of stored strips minus one; on a mesh
    without edges it returns -1 and stores no strip. *)
Theorem collect_strips_returns_last_id m :
  wf_mesh m ∨ edges m = [] →
  ∃ k m', collect_strips m = Some (k, m') ∧
    dkeys (strip m') = Z.of_nat <$> seq 0 (Z.to_nat (k + 1)) ∧
    k = (Z.of_nat (length (strip m')) - 1)%Z ∧
    (edges m = [] → k = (-1)%Z ∧ strip m' = []).
Proof.
  assert (edges m = [] → collect_strips m = Some ((-1)%Z, set_strip m [])) as H0.
  { intros E. unfold collect_strips, not_none_edges. by rewrite E. }
  intros [Hwf|E].
  - destruct (collect_strips_spec m Hwf) as (k & table & Hrun & Htab & _).
    exists k, (set_strip m table). split; [done|]. simpl.
    split; [apply Htab|]. split; [by eapply table_ok_length|].
    intros E. rewrite (H0 E) in Hrun. by simplify_eq.
  - exists (-1)%Z, (set_strip m []). by rewrite (H0 E).
Qed.

Lemma collect_strips_returns_last_id_witness :
  (wf_mesh grid22 ∨ edges grid22 = []) ∧
  ∃ k m', collect_strips grid22 = Some (k, m') ∧
    dkeys (strip m') = Z.of_nat <$> seq 0 (Z.to_nat (k + 1)) ∧
    k = (Z.of_nat (length (strip m')) - 1)%Z ∧
    (edges grid22 = [] → k = (-1)%Z ∧ strip m' = []).
Proof.
  assert (wf_mesh grid22) as H.
  { apply wf_meshb_sound. vm_compute. reflexivity. }
  split; [by left|].
  apply (collect_strips_returns_last_id grid22). by left.
Defined.


(** ** Worked scenarios *)

(** C6. The single quad 0-1-2-3: it is a quad mesh, its four vertices have
    degree 2 and are singular, and [collect_strips] returns 1 and stores
    exactly two strips, each made of two boundary edges that lie opposite
    each other in the face. *)
Theorem single_quad_scenario :
  face single_quad = [(0, [0; 1; 2; 3])] ∧
  vertices single_quad = [0; 1; 2; 3] ∧
  is_quadmesh single_quad = true ∧
  (∀ v, v ∈ vertices single_quad →
     vertex_degree single_quad v = Some 2 ∧
     is_vertex_singular single_quad v = Some true) ∧
  ∃ m', collect_strips single_quad = Some (1%Z, m') ∧
    length (strip m') = 2 ∧
    ∀ s l, dget (strip m') s = Some l →
      ∃ e1 e2, l = [e1; e2] ∧ opposite_edges single_quad e1 e2 ∧
        is_edge_on_boundary single_quad e1.1 e1.2 = Some true ∧
        is_edge_on_boundary single_quad e2.1 e2.2 = Some true.
Proof.
  split; [reflexivity|]. split; [reflexivity|]. split; [reflexivity|]. split.
  - intros v Hv. change (vertices single_quad) with [0; 1; 2; 3] in Hv.
    rewrite !elem_of_cons in Hv.
    destruct Hv as [->|[->|[->|[->|Hv]]]]; [by vm_compute..|].
    by apply elem_of_nil in Hv.
  - eexists. split; [vm_compute; reflexivity|]. split; [reflexivity|].
    intros s l. cbn [strip set_strip].
    unfold dget. repeat case_decide; intros [= <-].
    + exists (0, 1), (3, 2). split; [done|]. split; [|by vm_compute].
      right. left. by vm_compute.
    + exists (3, 0), (2, 1). split; [done|]. split; [|by vm_compute].
      right. left. by vm_compute.
Qed.

(** C2 fails on two quads side by side: the interior edge 1-4 joins two
    regular boundary vertices, [vertex_opposite_vertex] walks on from it
    along the boundary, and the polyedges traced by [polyedges] overlap:
    the edge 0-1 is covered by three of them, in insertion order and in
    key order of the dictionaries alike. *)
Theorem polyedges_two_quads_overlap :
  wf_mesh two_quads ∧ is_quadmesh two_quads = true ∧
  (0, 1) ∈ edges two_quads ∧
  vertex_opposite_vertex two_quads 4 1 = Some (Some 0) ∧
  polyedges two_quads =
    Some [[0; 1; 4; 5]; [0; 1; 4; 3]; [5; 2]; [0; 1; 2]; [3; 0]] ∧
  (∃ ps, polyedges two_quads = Some ps ∧ coverage ps (0, 1) = 3) ∧
  (∃ ps, polyedges (by_key two_quads) = Some ps ∧ coverage ps (0, 1) = 3).
Proof.
  split; [apply wf_meshb_sound; by vm_compute|].
  split; [reflexivity|]. split; [by vm_compute; left|].
  split; [by vm_compute|]. split; [by vm_compute|].
  split; eexists; (split; [vm_compute; reflexivity|by vm_compute]).
Qed.


(** ** Faces around a vertex *)

Section around_vertex.
Context (m : Mesh).
Hypothesis Hwf : wf_mesh m.

Lemma ancestor_quad f a b c d :
  face_vertices m f = Some [a; b; c; d] → NoDup [a; b; c; d] →
  face_vertex_ancestor m f a = Some d ∧
  face_vertex_ancestor m f b = Some a ∧
  face_vertex_ancestor m f c = Some b ∧
  face_vertex_ancestor m f d = Some c.
Proof.
  intros Hf Hnd. destruct (NoDup_four _ _ _ _ Hnd) as (?&?&?&?&?&?).
  unfold face_vertex_ancestor. rewrite Hf. simpl.
  repeat split; repeat (case_decide; simplify_eq/=; try done).
Qed.

(** the face of an outgoing half-edge comes in through exactly one
    half-edge, and back *)
Lemma face_out_in v x f :
  halfedge_get m v x = Some (Some f) →
  ∃ y, face_vertex_ancestor m f v = Some y ∧
    halfedge_get m y v = Some (Some f).
Proof using Hwf.
  intros E. destruct (has_face_quad m Hwf _ _ _ E) as (a & b & c & d & Hf & Hnd & Hin).
  destruct (ancestor_quad _ _ _ _ _ Hf Hnd) as (Ha & Hb & Hc & Hd).
  assert (Hcyc : ∀ p q, (p, q) ∈ [(a, b); (b, c); (c, d); (d, a)] →
            halfedge_get m p q = Some (Some f)).
  { intros p q Hpq. apply (wf_face_he m Hwf f [a; b; c; d] (p, q) Hf).
    by rewrite cycle_keys_quad. }
  rewrite !elem_of_cons in Hin.
  destruct Hin as [[= -> ->]|[[= -> ->]|[[= -> ->]|[[= -> ->]|Hin]]]];
    [| | | |by apply elem_of_nil in Hin]; eexists; (split; [eassumption|]);
    apply Hcyc; set_solver.
Qed.

Lemma face_in_out y v f :
  halfedge_get m y v = Some (Some f) →
  ∃ x, face_vertex_descendant m f v = Some x ∧
    halfedge_get m v x = Some (Some f).
Proof using Hwf.
  intros E. destruct (has_face_quad m Hwf _ _ _ E) as (a & b & c & d & Hf & Hnd & Hin).
  destruct (descendant_quad m f a b c d Hf Hnd) as (Ha & Hb & Hc & Hd).
  assert (Hcyc : ∀ p q, (p, q) ∈ [(a, b); (b, c); (c, d); (d, a)] →
            halfedge_get m p q = Some (Some f)).
  { intros p q Hpq. apply (wf_face_he m Hwf f [a; b; c; d] (p, q) Hf).
    by rewrite cycle_keys_quad. }
  rewrite !elem_of_cons in Hin.
  destruct Hin as [[= -> ->]|[[= -> ->]|[[= -> ->]|[[= -> ->]|Hin]]]];
    [| | | |by apply elem_of_nil in Hin]; eexists; (split; [eassumption|]);
    apply Hcyc; set_solver.
Qed.

Lemma face_out_unique v x x' f :
  halfedge_get m v x = Some (Some f) → halfedge_get m v x' = Some (Some f) →
  x = x'.
Proof using Hwf.
  intros E E'.
  destruct (has_face_quad m Hwf _ _ _ E) as (a & b & c & d & Hf & Hnd & Hin).
  destruct (has_face_quad m Hwf _ _ _ E') as (a' & b' & c' & d' & Hf' & _ & Hin').
  rewrite Hf in Hf'. simplify_eq.
  destruct (NoDup_four _ _ _ _ Hnd) as (?&?&?&?&?&?).
  rewrite !elem_of_cons in Hin, Hin'.
  destruct Hin as [?|[?|[?|[?|?%elem_of_nil]]]];
    destruct Hin' as [?|[?|[?|[?|?%elem_of_nil]]]]; simplify_eq; done.
Qed.

Lemma face_in_unique y y' v f :
  halfedge_get m y v = Some (Some f) → halfedge_get m y' v = Some (Some f) →
  y = y'.
Proof using Hwf.
  intros E E'.
  destruct (has_face_quad m Hwf _ _ _ E) as (a & b & c & d & Hf & Hnd & Hin).
  destruct (has_face_quad m Hwf _ _ _ E') as (a' & b' & c' & d' & Hf' & _ & Hin').
  rewrite Hf in Hf'. simplify_eq.
  destruct (NoDup_four _ _ _ _ Hnd) as (?&?&?&?&?&?).
  rewrite !elem_of_cons in Hin, Hin'.
  destruct Hin as [?|[?|[?|[?|?%elem_of_nil]]]];
    destruct Hin' as [?|[?|[?|[?|?%elem_of_nil]]]]; simplify_eq; done.
Qed.

Lemma halfedge_get_keys v x d :
  dget (halfedge m) v = Some d →
  x ∈ dkeys d ↔ is_Some (halfedge_get m v x).
Proof.
  intros Hd. unfold halfedge_get. rewrite Hd. simpl. apply dkeys_elem_of.
Qed.

Lemma halfedge_get_sym_keys v x d :
  dget (halfedge m) v = Some d →
  x ∈ dkeys d ↔ is_Some (halfedge_get m x v).
Proof using Hwf.
  intros Hd. rewrite (halfedge_get_keys _ _ _ Hd).
  split; apply (wf_he_sym m Hwf).
Qed.
End around_vertex.

(** An injective map of a finite list into itself reaches every item. *)
Lemma injective_on_list_surjective (l : list nat) (g : nat → nat) :
  NoDup l → (∀ x, x ∈ l → g x ∈ l) →
  (∀ x x', x ∈ l → x' ∈ l → g x = g x' → x = x') →
  ∀ y, y ∈ l → ∃ x, x ∈ l ∧ g x = y.
Proof.
  intros Hnd Hin Hinj y Hy.
  assert (NoDup (g <$> l)) as Hnd' by by apply NoDup_fmap_2_strong.
  assert (g <$> l ⊆+ l) as Hsub.
  { apply NoDup_submseteq; [done|].
    intros z [x [-> Hx]]%list_elem_of_fmap. by apply Hin. }
  assert (g <$> l ≡ₚ l) as Hperm.
  { apply submseteq_length_Permutation; [done|]. by rewrite length_fmap. }
  rewrite <- Hperm in Hy. apply list_elem_of_fmap in Hy as [x [-> Hx]]. eauto.
Qed.

Section boundary_vertex.
Context (m : Mesh).
Hypothesis Hwf : wf_mesh m.

(** A vertex reached by a boundary-facing half-edge is on the boundary. *)
Lemma boundary_target_on_boundary v b :
  halfedge_get m v b = Some None → ∃ x, halfedge_get m b x = Some None.
Proof using Hwf.
  intros Hvb.
  destruct (wf_he_sym m Hwf v b) as [o Hbv]; [eauto|].
  destruct (dget (halfedge m) b) as [d|] eqn:Hd;
    [|unfold halfedge_get in Hbv; by rewrite Hd in Hbv].
  destruct (decide (Exists (λ x, halfedge_get m b x = Some None) (dkeys d)))
    as [Hex|Hall].
  { apply Exists_exists in Hex as (x & _ & Hx). eauto. }
  exfalso. rewrite <- Forall_Exists_neg, Forall_forall in Hall.
  assert (∀ x, x ∈ dkeys d → ∃ f, halfedge_get m b x = Some (Some f)) as Hout.
  { intros x Hx. pose proof (Hall x Hx) as Hn.
    apply (halfedge_get_keys m b x d Hd) in Hx as [[f|] Hx]; [eauto|done]. }
  set (g := λ x, match halfedge_get m b x with
                 | Some (Some f) => default 0 (face_vertex_ancestor m f b)
                 | _ => 0
                 end).
  assert (∀ x, x ∈ dkeys d → ∃ f, halfedge_get m b x = Some (Some f) ∧
            halfedge_get m (g x) b = Some (Some f)) as Hg.
  { intros x Hx. destruct (Hout x Hx) as [f Hf]. exists f. split; [done|].
    destruct (face_out_in m Hwf _ _ _ Hf) as (y & Hy & Hyb).
    unfold g. by rewrite Hf, Hy. }
  destruct (injective_on_list_surjective (dkeys d) g) with (y := v)
    as (x & Hx & Hgx).
  - by eapply wf_nbrs_nodup.
  - intros x Hx. destruct (Hg x Hx) as (f & _ & Hf).
    apply (halfedge_get_sym_keys m Hwf b _ d Hd). eauto.
  - intros x x' Hx Hx' E.
    destruct (Hg x Hx) as (f & Hf & Hgf), (Hg x' Hx') as (f' & Hf' & Hgf').
    rewrite E in Hgf. rewrite Hgf in Hgf'. simplify_eq.
    eapply face_out_unique; eauto.
  - apply (halfedge_get_sym_keys m Hwf b _ d Hd). eauto.
  - destruct (Hg x Hx) as (f & _ & Hf). rewrite Hgx in Hf. congruence.
Qed.

(** A vertex with a boundary-facing half-edge going out has one coming
    in. *)
Lemma boundary_source_has_incoming v b :
  halfedge_get m v b = Some None → ∃ a, halfedge_get m a v = Some None.
Proof using Hwf.
  intros Hvb.
  destruct (dget (halfedge m) v) as [d|] eqn:Hd;
    [|unfold halfedge_get in Hvb; by rewrite Hd in Hvb].
  destruct (decide (Exists (λ x, halfedge_get m x v = Some None) (dkeys d)))
    as [Hex|Hall].
  { apply Exists_exists in Hex as (x & _ & Hx). eauto. }
  exfalso. rewrite <- Forall_Exists_neg, Forall_forall in Hall.
  assert (∀ x, x ∈ dkeys d → ∃ f, halfedge_get m x v = Some (Some f)) as Hinc.
  { intros x Hx. pose proof (Hall x Hx) as Hn.
    apply (halfedge_get_sym_keys m Hwf v x d Hd) in Hx as [[f|] Hx]; [eauto|done]. }
  set (g := λ x, match halfedge_get m x v with
                 | Some (Some f) => default 0 (face_vertex_descendant m f v)
                 | _ => 0
                 end).
  assert (∀ x, x ∈ dkeys d → ∃ f, halfedge_get m x v = Some (Some f) ∧
            halfedge_get m v (g x) = Some (Some f)) as Hg.
  { intros x Hx. destruct (Hinc x Hx) as [f Hf]. exists f. split; [done|].
    destruct (face_in_out m Hwf _ _ _ Hf) as (y & Hy & Hyb).
    unfold g. by rewrite Hf, Hy. }
  destruct (injective_on_list_surjective (dkeys d) g) with (y := b)
    as (x & Hx & Hgx).
  - by eapply wf_nbrs_nodup.
  - intros x Hx. destruct (Hg x Hx) as (f & _ & Hf).
    apply (halfedge_get_keys m v _ d Hd). eauto.
  - intros x x' Hx Hx' E.
    destruct (Hg x Hx) as (f & Hf & Hgf), (Hg x' Hx') as (f' & Hf' & Hgf').
    rewrite E in Hgf. rewrite Hgf in Hgf'. simplify_eq.
    eapply face_in_unique; eauto.
  - apply (halfedge_get_keys m v _ d Hd). eauto.
  - destruct (Hg x Hx) as (f & _ & Hf). rewrite Hgx in Hf. congruence.
Qed.

Lemma is_vertex_on_boundary_true v :
  is_vertex_on_boundary m v = Some true ↔ ∃ x, halfedge_get m v x = Some None.
Proof using Hwf.
  unfold is_vertex_on_boundary, halfedge_get.
  destruct (dget (halfedge m) v) as [d|] eqn:Hd; simpl.
  2:{ split; [done|]. by intros [? ?]. }
  pose proof (wf_nbrs_nodup m Hwf _ _ Hd) as Hnd.
  split.
  - intros [= H]. apply existsb_exists in H as ([x o] & Hin & Ho).
    apply bool_decide_eq_true in Ho. simpl in Ho. subst.
    exists x. apply elem_of_dget; [done|]. by apply list_elem_of_In.
  - intros [x Hx]. f_equal. apply existsb_exists. exists (x, None).
    split; [|by apply bool_decide_eq_true].
    by apply list_elem_of_In, dget_Some_elem_of.
Qed.

Lemma is_vertex_on_boundary_defined v x :
  is_Some (halfedge_get m v x) → is_Some (is_vertex_on_boundary m v).
Proof.
  unfold is_vertex_on_boundary, halfedge_get.
  destruct (dget (halfedge m) v); simpl; [eauto|by intros [? ?]].
Qed.
End boundary_vertex.

(** ** [vertex_opposite_vertex] *)

Lemma vertex_neighbors_unordered m v :
  vertex_neighbors m v false = dkeys <$> dget (halfedge m) v.
Proof. unfold vertex_neighbors. by destruct (dget (halfedge m) v). Qed.

Lemma py_nth_offset {A} (l : list A) (i : nat) :
  i < length l → 2 ≤ length l →
  py_nth l (Z.of_nat i - 2) = l !! ((i + length l - 2) mod length l).
Proof.
  intros Hi Hlen. unfold py_nth.
  destruct (decide (0 ≤ Z.of_nat i - 2)%Z) as [Hge|Hlt].
  - f_equal. replace (i + length l - 2) with ((i - 2) + 1 * length l) by lia.
    rewrite Nat.Div0.mod_add, Nat.mod_small by lia. lia.
  - rewrite decide_True by lia. f_equal.
    rewrite Nat.mod_small by lia. lia.
Qed.

Lemma index_Some {A} `{EqDecision A} (x : A) (l : list A) :
  x ∈ l → ∃ i, index x l = Some i ∧ l !! i = Some x ∧ i < length l.
Proof.
  induction l as [|y l IH]; [by intros ?%elem_of_nil|].
  intros Hin. simpl. case_decide as E.
  - subst. exists 0. repeat split; simpl; lia.
  - apply elem_of_cons in Hin as [?|Hin]; [done|].
    destruct (IH Hin) as (i & -> & Hi & Hlt). exists (S i).
    repeat split; simpl; [done|lia].
Qed.

Lemma index_lookup_NoDup {A} `{EqDecision A} (l : list A) (i : nat) (x : A) :
  NoDup l → l !! i = Some x → index x l = Some i.
Proof.
  intros Hnd Hi.
  destruct (index_Some x l) as (j & Hj & Hjx & _);
    [by eapply list_elem_of_lookup_2|].
  rewrite Hj. f_equal. by eapply NoDup_lookup.
Qed.

Lemma boundary_nbrs_head m u nbrs w0 :
  (∀ x, x ∈ nbrs → is_Some (is_vertex_on_boundary m x)) →
  w0 ∈ nbrs → w0 ≠ u → is_vertex_on_boundary m w0 = Some true →
  ∃ cand w pre post, boundary_nbrs m u nbrs = Some cand ∧
    head cand = Some w ∧ nbrs = pre ++ w :: post ∧ w ≠ u ∧
    is_vertex_on_boundary m w = Some true ∧
    ∀ x, x ∈ pre → x = u ∨ is_vertex_on_boundary m x = Some false.
Proof.
  assert (∀ l, (∀ x, x ∈ l → is_Some (is_vertex_on_boundary m x)) →
            is_Some (boundary_nbrs m u l)) as Hdef.
  { induction l as [|y l IH]; intros Hl; simpl; [eauto|].
    destruct IH as [r Hr]; [intros x Hx; apply Hl; by right|].
    case_decide; [eauto|].
    destruct (Hl y) as [b Hb]; [by left|]. rewrite Hb, Hr. simpl. eauto. }
  induction nbrs as [|y l IH]; intros Hl Hin Hne Hb0;
    [by apply elem_of_nil in Hin|].
  destruct (Hdef l) as [r Hr]; [intros x Hx; apply Hl; by right|].
  simpl. case_decide as E.
  - subst y. apply elem_of_cons in Hin as [?|Hin]; [done|].
    destruct IH as (cand & w & pre & post & Hc & Hh & -> & ? & ? & Hpre);
      [intros x Hx; apply Hl; by right|done..|].
    exists cand, w, (u :: pre), post. repeat split; try done.
    intros x [->|Hx]%elem_of_cons; [by left|by apply Hpre].
  - destruct (Hl y) as [b Hb]; [by left|]. rewrite Hb, Hr. simpl.
    destruct b.
    + exists (y :: r), y, [], l. repeat split; try done.
      by intros x ?%elem_of_nil.
    + apply elem_of_cons in Hin as [->|Hin]; [congruence|].
      destruct IH as (cand & w & pre & post & Hc & Hh & -> & ? & ? & Hpre);
        [intros x Hx; apply Hl; by right|done..|].
      rewrite Hr in Hc. simplify_eq.
      exists cand, w, (y :: pre), post. repeat split; try done.
      intros x [->|Hx]%elem_of_cons; [by right|by apply Hpre].
Qed.

Lemma manifold_vertex_spec m v :
  wf_mesh m → manifold_vertex m v = true →
  ∃ l d, vertex_neighbors m v true = Some l ∧
    dget (halfedge m) v = Some d ∧ l ≡ₚ dkeys d ∧ NoDup l.
Proof.
  intros Hwf. unfold manifold_vertex.
  destruct (vertex_neighbors m v true) as [l|]; [|done].
  rewrite vertex_neighbors_unordered.
  destruct (dget (halfedge m) v) as [d|] eqn:Hd; [|done]. simpl.
  intros Hp%bool_decide_eq_true. exists l, d. repeat split; try done.
  rewrite Hp. by eapply wf_nbrs_nodup.
Qed.

(** The interior regular case, shared by the statements below. *)
Lemma vertex_opposite_vertex_interior m u v :
  wf_mesh m → is_Some (halfedge_get m v u) →
  is_vertex_singular m v = Some false →
  is_vertex_on_boundary m v = Some false →
  manifold_vertex m v = true →
  ∃ l i w,
    vertex_neighbors m v true = Some l ∧ index u l = Some i ∧
    l !! ((i + length l - 2) mod length l) = Some w ∧
    vertex_opposite_vertex m u v = Some (Some w) ∧
    NoDup l ∧ length l = 4 ∧ (∀ x, x ∈ l ↔ is_Some (halfedge_get m v x)).
Proof.
  intros Hwf Hadj Hs Hbv Hman.
  destruct (manifold_vertex_spec m v Hwf Hman) as (l & d & Hl & Hd & Hperm & Hnd).
  assert (∀ x, x ∈ l ↔ is_Some (halfedge_get m v x)) as Hmem.
  { intros x. rewrite Hperm. by apply halfedge_get_keys. }
  assert (u ∈ l) as Hul by by apply Hmem.
  destruct (index_Some u l Hul) as (i & Hi & Hiu & Hlt).
  assert (length l = 4) as Hlen.
  { unfold is_vertex_singular in Hs. rewrite Hbv in Hs. simpl in Hs.
    unfold vertex_degree in Hs. rewrite vertex_neighbors_unordered, Hd in Hs.
    simpl in Hs. simplify_eq. rewrite Hperm.
    destruct (length (dkeys d) =? 4) eqn:E; [by apply Nat.eqb_eq in E|done]. }
  destruct (lookup_lt_is_Some_2 l ((i + length l - 2) mod length l)) as [w Hw].
  { apply Nat.mod_upper_bound. lia. }
  exists l, i, w. repeat split; try done; try by apply Hmem.
  unfold vertex_opposite_vertex. rewrite Hs. simpl. rewrite Hbv. simpl.
  rewrite Hl. simpl. rewrite Hi. simpl.
  rewrite py_nth_offset by lia. by rewrite Hw.
Qed.



(** C9. Across an interior vertex [v] of degree 4 whose faces form one
    fan, [vertex_opposite_vertex] is an involution on the neighbours of
    [v]: the vertex opposite to [u] is another neighbour [w], and the
    vertex opposite to [w] is [u] again. *)
Theorem vertex_opposite_vertex_involution m u v :
  wf_mesh m → manifold_vertex m v = true →
  is_vertex_on_boundary m v = Some false → vertex_degree m v = Some 4 →
  is_Some (halfedge_get m v u) →
  ∃ w, vertex_opposite_vertex m u v = Some (Some w) ∧
    w ≠ u ∧ is_Some (halfedge_get m v w) ∧
    vertex_opposite_vertex m w v = Some (Some u).
Proof.
  intros Hwf Hman Hbv Hdeg Hadj.
  assert (is_vertex_singular m v = Some false) as Hs.
  { unfold is_vertex_singular. by rewrite Hbv, Hdeg. }
  destruct (vertex_opposite_vertex_interior m u v Hwf Hadj Hs Hbv Hman)
    as (l & i & w & Hl & Hi & Hw & Hvov & Hnd & Hlen & Hmem).
  assert (is_Some (halfedge_get m v w)) as Hadjw.
  { apply Hmem. by eapply list_elem_of_lookup_2. }
  destruct (vertex_opposite_vertex_interior m w v Hwf Hadjw Hs Hbv Hman)
    as (l' & i' & u' & Hl' & Hi' & Hu' & Hvov' & _).
  assert (l' = l) as -> by congruence.
  rewrite (index_lookup_NoDup _ _ _ Hnd Hw) in Hi'.
  assert (i' = (i + length l - 2) mod length l) as -> by congruence.
  destruct (index_Some u l) as (j & Hj & Hju & Hjlt); [by apply Hmem|].
  assert (j = i) as -> by congruence.
  rewrite Hlen in *.
  assert (((i + 4 - 2) mod 4 + 4 - 2) mod 4 = i) as Hback.
  { destruct i as [|[|[|[|]]]]; simpl; try done; lia. }
  rewrite Hback, Hju in Hu'. simplify_eq.
  exists w. repeat split; try done.
  intros ->. assert ((i + 4 - 2) mod 4 = i) as E.
  { eapply NoDup_lookup; eauto. }
  destruct i as [|[|[|[|]]]]; simpl in E; try done; lia.
Qed.

Lemma vertex_opposite_vertex_involution_witness :
  wf_mesh grid22 ∧ manifold_vertex grid22 4 = true ∧
  is_vertex_on_boundary grid22 4 = Some false ∧
  vertex_degree grid22 4 = Some 4 ∧ is_Some (halfedge_get grid22 4 1) ∧
  ∃ w, vertex_opposite_vertex grid22 1 4 = Some (Some w) ∧
    w ≠ 1 ∧ is_Some (halfedge_get grid22 4 w) ∧
    vertex_opposite_vertex grid22 w 4 = Some (Some 1).
Proof.
  assert (wf_mesh grid22) as Hwf.
  { apply wf_meshb_sound. vm_compute. reflexivity. }
  assert (manifold_vertex grid22 4 = true) as Hman.
  { vm_compute. reflexivity. }
  assert (is_vertex_on_boundary grid22 4 = Some false) as Hbv.
  { vm_compute. reflexivity. }
  assert (vertex_degree grid22 4 = Some 4) as Hdeg.
  { vm_compute. reflexivity. }
  assert (is_Some (halfedge_get grid22 4 1)) as Hadj.
  { vm_compute. eauto. }
  repeat (split; [assumption|]).
  apply (vertex_opposite_vertex_involution grid22 1 4 Hwf Hman Hbv Hdeg Hadj).
Defined.


(** ** [face_strips_merge] *)

Lemma any_singular_true m p x :
  x ∈ p → is_vertex_singular m x = Some true →
  (∀ y, y ∈ p → is_Some (is_vertex_singular m y)) →
  any_singular m p = Some true.
Proof.
  induction p as [|y p IH]; [by intros ?%elem_of_nil|].
  intros Hin Hx Hdef. simpl.
  destruct (Hdef y) as [s Hs]; [by left|]. rewrite Hs. simpl.
  destruct s; [done|]. apply elem_of_cons in Hin as [->|Hin]; [congruence|].
  apply IH; [done..|]. intros z Hz. apply Hdef. by right.
Qed.

(** C4. [face_strips_merge] on an edge [(u, v)] that is on the boundary,
    or whose polyedge holds a singular vertex, returns the failure signal
    [None] and leaves the mesh, vertices, faces, half-edges and strip
    table, exactly as it was. *)
Theorem face_strips_merge_failure quad_mesh_polylines m u v b :
  is_edge_on_boundary m u v = Some b →
  (b = true ∨
   ∃ polylines polyedge x,
     quad_mesh_polylines m = Some polylines ∧
     find_polyedge polylines u v = Some polyedge ∧
     x ∈ polyedge ∧ is_vertex_singular m x = Some true ∧
     ∀ y, y ∈ polyedge → is_Some (is_vertex_singular m y)) →
  face_strips_merge quad_mesh_polylines m u v = Some (None, m).
Proof.
  intros Hb H. unfold face_strips_merge.
  destruct (is_quadmesh m); simpl; [|done].
  rewrite Hb. simpl. destruct b; [done|].
  destruct H as [?|(pls & p & x & -> & Hp & Hx & Hs & Hdef)]; [done|].
  simpl. rewrite Hp. simpl.
  by rewrite (any_singular_true m p x Hx Hs Hdef).
Qed.

Lemma face_strips_merge_failure_witness :
  is_edge_on_boundary two_quads 1 4 = Some false ∧
  (∃ polylines polyedge x,
     polyedges two_quads = Some polylines ∧
     find_polyedge polylines 1 4 = Some polyedge ∧
     x ∈ polyedge ∧ is_vertex_singular two_quads x = Some true ∧
     ∀ y, y ∈ polyedge → is_Some (is_vertex_singular two_quads y)) ∧
  face_strips_merge polyedges two_quads 1 4 = Some (None, two_quads).
Proof.
  assert (is_edge_on_boundary two_quads 1 4 = Some false) as Hb.
  { vm_compute. reflexivity. }
  assert (∃ polylines polyedge x,
     polyedges two_quads = Some polylines ∧
     find_polyedge polylines 1 4 = Some polyedge ∧
     x ∈ polyedge ∧ is_vertex_singular two_quads x = Some true ∧
     ∀ y, y ∈ polyedge → is_Some (is_vertex_singular two_quads y)) as Hs.
  { exists [[0; 1; 4; 5]; [0; 1; 4; 3]; [5; 2]; [0; 1; 2]; [3; 0]], [0; 1; 4; 3], 0.
    split; [vm_compute; reflexivity|]. split; [vm_compute; reflexivity|].
    split; [left|]. split; [vm_compute; reflexivity|].
    intros y Hy. rewrite !elem_of_cons in Hy.
    destruct Hy as [->|[->|[->|[->|Hy]]]];
      [vm_compute; eauto..|by apply elem_of_nil in Hy]. }
  split; [exact Hb|]. split; [exact Hs|].
  apply (face_strips_merge_failure polyedges two_quads 1 4 false Hb).
  right. exact Hs.
Defined.


(** ** [mesh_polylines_boundary] *)

(** *** Termination on every mesh *)

Lemma length_remove1 {A} `{EqDecision A} (x : A) (l : list A) :
  x ∈ l → S (length (remove1 x l)) = length l.
Proof.
  induction l as [|y l IH]; [by intros ?%elem_of_nil|].
  intros Hin. simpl. case_decide; [done|]. simpl.
  apply elem_of_cons in Hin as [?|Hin]; [done|]. by rewrite IH.
Qed.

Lemma remove1_Permutation {A} `{EqDecision A} (x : A) (l : list A) :
  x ∈ l → x :: remove1 x l ≡ₚ l.
Proof.
  induction l as [|y l IH]; [by intros ?%elem_of_nil|].
  intros Hin. simpl. case_decide; [by subst|].
  apply elem_of_cons in Hin as [?|Hin]; [done|].
  rewrite Permutation_swap. by rewrite IH.
Qed.

Lemma trace_boundary_fuel m fuel boundary vertices :
  length vertices < fuel →
  match trace_boundary m fuel boundary vertices with
  | Done (_, vs, fuel') => length vs ≤ fuel' ∧ length vs ≤ length vertices
  | Raised => True
  | OutOfFuel => False
  end.
Proof.
  revert boundary vertices.
  induction fuel as [|fuel IH]; intros boundary vertices Hlt; [lia|].
  simpl. destruct (last boundary ≫= boundary_successor m) as [next|]; [|done].
  set (boundary' := match next with
                    | Some nbr => boundary ++ [nbr] | None => boundary end).
  destruct (head boundary') as [a|]; [|done].
  destruct (last boundary') as [b|]; [|done].
  case_decide; [lia|].
  unfold py_in. case_bool_decide as Hin; [|done].
  pose proof (length_remove1 _ _ Hin) as Hlen.
  assert (length (remove1 b vertices) < fuel) as Hlt' by lia.
  specialize (IH boundary' (remove1 b vertices) Hlt').
  destruct (trace_boundary m fuel boundary' (remove1 b vertices))
    as [[[? ?] ?]| |]; [lia|done|done].
Qed.

Lemma boundaries_loop_fuel m rounds fuel vertices boundaries :
  length vertices ≤ rounds → length vertices ≤ fuel →
  boundaries_loop m rounds fuel vertices boundaries ≠ OutOfFuel.
Proof.
  revert fuel vertices boundaries.
  induction rounds as [|rounds IH]; intros fuel vertices boundaries Hr Hf.
  { destruct vertices; [done|simpl in Hr; lia]. }
  simpl. destruct (pop vertices) as [[v vs]|] eqn:Hpop; [|done].
  apply pop_Some in Hpop as ->. rewrite length_app in Hr, Hf. simpl in *.
  pose proof (trace_boundary_fuel m fuel [v] vs) as Htr.
  destruct (trace_boundary m fuel [v] vs) as [[[b vs'] fuel']| |]; [|done|].
  - apply IH; lia.
  - exfalso. apply Htr. lia.
Qed.

(** *** The boundary vertices *)

Lemma add_to_set_spec x s :
  (∀ y, y ∈ add_to_set x s ↔ y = x ∨ y ∈ s) ∧
  (NoDup s → NoDup (add_to_set x s)) ∧
  length (add_to_set x s) ≤ S (length s).
Proof.
  unfold add_to_set, py_in. case_bool_decide as Hin.
  - split; [|split; [done|lia]].
    intros y. split; [by right | by intros [->|?]].
  - split; [|split].
    + intros y. rewrite elem_of_app, list_elem_of_singleton. tauto.
    + intros Hnd. apply NoDup_app. repeat split; [done| |apply NoDup_singleton].
      intros y Hy ->%list_elem_of_singleton. done.
    + rewrite length_app. simpl. lia.
Qed.

Lemma boundary_vertices_fold hs s :
  let r := foldl (λ s (uv : nat * nat), add_to_set uv.2 (add_to_set uv.1 s)) s hs in
  (∀ y, y ∈ r ↔ y ∈ s ∨ ∃ uv, uv ∈ hs ∧ (y = uv.1 ∨ y = uv.2)) ∧
  (NoDup s → NoDup r) ∧ length r ≤ length s + 2 * length hs.
Proof.
  revert s. induction hs as [|uv hs IH]; intros s; simpl.
  { split; [|split; [done|lia]]. intros y. split; [by left|].
    intros [?|(? & ?%elem_of_nil & _)]; done. }
  destruct (IH (add_to_set uv.2 (add_to_set uv.1 s))) as (Hmem & Hnd & Hlen).
  destruct (add_to_set_spec uv.1 s) as (Hm1 & Hn1 & Hl1).
  destruct (add_to_set_spec uv.2 (add_to_set uv.1 s)) as (Hm2 & Hn2 & Hl2).
  split; [|split; [auto|lia]].
  intros y. split.
  - intros Hy. apply Hmem in Hy as [Hy|(e & He & Hy)].
    + apply Hm2 in Hy as [->|Hy]; [right; exists uv; split; [by left|by right]|].
      apply Hm1 in Hy as [->|Hy]; [right; exists uv; split; [by left|by left]|].
      by left.
    + right. exists e. split; [by right|done].
  - intros [Hy|(e & [->|He]%elem_of_cons & Hy)]; apply Hmem.
    + left. apply Hm2. right. apply Hm1. by right.
    + left. apply Hm2. destruct Hy as [->| ->]; [right; apply Hm1|]; by left.
    + right. eauto.
Qed.

Lemma boundary_vertices_NoDup m : NoDup (boundary_vertices m).
Proof.
  apply (boundary_vertices_fold (boundary_halfedges m) []). constructor.
Qed.

Lemma elem_of_boundary_vertices m y :
  y ∈ boundary_vertices m ↔
  ∃ uv, uv ∈ boundary_halfedges m ∧ (y = uv.1 ∨ y = uv.2).
Proof.
  destruct (boundary_vertices_fold (boundary_halfedges m) []) as (H & _).
  unfold boundary_vertices. rewrite H. split; [|by right].
  by intros [?%elem_of_nil|?].
Qed.

Lemma elem_of_boundary_halfedges m u v :
  (u, v) ∈ boundary_halfedges m ↔
  ∃ d, (u, d) ∈ halfedge m ∧ (v, None) ∈ d.
Proof.
  unfold boundary_halfedges. rewrite list_elem_of_bind. split.
  - intros [[u' d] [Hin Hd]]. apply list_elem_of_bind in Hin as [[v' o] [Hin Hv]].
    case_decide; [|by apply elem_of_nil in Hin].
    apply list_elem_of_singleton in Hin. simplify_eq. eauto.
  - intros (d & Hd & Hv). exists (u, d). split; [|done].
    apply list_elem_of_bind. exists (v, None). split; [|done].
    rewrite decide_True by done. by left.
Qed.

Lemma boundary_halfedges_length m :
  length (boundary_halfedges m) ≤ length (halfedges m).
Proof.
  unfold boundary_halfedges, halfedges.
  induction (halfedge m) as [|[u d] h IH]; [done|].
  rewrite !bind_cons, !length_app. apply Nat.add_le_mono; [|done].
  rewrite length_fmap. unfold dkeys. rewrite length_fmap.
  clear. induction d as [|[v o] d IH]; [done|].
  rewrite bind_cons, length_app. simpl. case_decide; simpl; lia.
Qed.

Section boundary_loops.
Context (m : Mesh).
Hypothesis Hmb : manifold_boundary m.

Lemma boundary_halfedges_get u v :
  (u, v) ∈ boundary_halfedges m ↔ halfedge_get m u v = Some None.
Proof using Hmb.
  rewrite elem_of_boundary_halfedges. unfold halfedge_get. split.
  - intros (d & Hd & Hv).
    rewrite (elem_of_dget _ _ _ (mb_keys m Hmb) Hd). simpl.
    apply elem_of_dget; [|done]. eapply mb_nbrs; [done|].
    by apply elem_of_dget; [apply Hmb|].
  - destruct (dget (halfedge m) u) as [d|] eqn:Hd; [|done]. simpl.
    intros Hv. exists d. split; by apply dget_Some_elem_of.
Qed.

Lemma boundary_vertices_out y :
  y ∈ boundary_vertices m ↔ ∃ w, halfedge_get m y w = Some None.
Proof using Hmb.
  rewrite elem_of_boundary_vertices. split.
  - intros ([u v] & Hin & [->| ->]); apply boundary_halfedges_get in Hin;
      simpl; [eauto|]. by eapply mb_out.
  - intros [w Hw]. exists (y, w). split; [|by left].
    by apply boundary_halfedges_get.
Qed.

Lemma boundary_successor_spec y :
  y ∈ boundary_vertices m →
  ∃ w, boundary_successor m y = Some (Some w) ∧
    halfedge_get m y w = Some None ∧ w ∈ boundary_vertices m.
Proof using Hmb.
  intros [w Hw]%boundary_vertices_out.
  unfold boundary_successor, halfedge_get in *.
  destruct (dget (halfedge m) y) as [d|] eqn:Hd; [|done]. simpl in *.
  destruct (filter (λ kv, kv.2 = None) d) as [|[x o] r] eqn:Hfil.
  { exfalso. apply dget_Some_elem_of in Hw.
    assert ((w, None) ∈ filter (λ kv : nat * option nat, kv.2 = None) d) as H
      by by apply list_elem_of_filter.
    rewrite Hfil in H. by apply elem_of_nil in H. }
  assert ((x, o) ∈ filter (λ kv : nat * option nat, kv.2 = None) d) as Hx
    by (rewrite Hfil; left).
  apply list_elem_of_filter in Hx as [Ho Hx]. simpl in Ho. subst o.
  exists x. simpl. split; [done|].
  assert (dget d x = Some None) as Hget.
  { apply elem_of_dget; [|done]. by eapply mb_nbrs. }
  split; [done|].
  destruct (mb_out m Hmb y x) as [t Ht].
  { unfold halfedge_get. by rewrite Hd. }
  apply boundary_vertices_out. eauto.
Qed.

Lemma boundary_successor_inj y y' w :
  y ∈ boundary_vertices m → y' ∈ boundary_vertices m →
  boundary_successor m y = Some (Some w) →
  boundary_successor m y' = Some (Some w) → y = y'.
Proof using Hmb.
  intros Hy Hy' Hs Hs'.
  destruct (boundary_successor_spec y Hy) as (x & Hx & Hget & _).
  destruct (boundary_successor_spec y' Hy') as (x' & Hx' & Hget' & _).
  simplify_eq. by eapply mb_inj.
Qed.
End boundary_loops.

Lemma manifold_boundaryb_sound m : manifold_boundaryb m = true → manifold_boundary m.
Proof.
  unfold manifold_boundaryb. rewrite !andb_true_iff, bool_decide_eq_true.
  intros [[Hk Hn] Hb]. rewrite forallb_forall in Hn, Hb.
  assert (∀ u d, dget (halfedge m) u = Some d → NoDup (dkeys d)) as Hn'.
  { intros u d E. apply dget_Some_elem_of, list_elem_of_In, Hn in E.
    by apply bool_decide_eq_true in E. }
  assert (∀ u v, (u, v) ∈ boundary_halfedges m ↔ halfedge_get m u v = Some None)
    as Hget.
  { intros u v. rewrite elem_of_boundary_halfedges. unfold halfedge_get. split.
    - intros (d & Hd & Hv). rewrite (elem_of_dget _ _ _ Hk Hd). simpl.
      apply elem_of_dget; [|done]. eapply Hn'. by apply elem_of_dget.
    - destruct (dget (halfedge m) u) as [d|] eqn:Hd; [|done]. simpl.
      intros Hv. exists d. split; by apply dget_Some_elem_of. }
  assert (∀ u v, halfedge_get m u v = Some None →
    (∃ w, halfedge_get m v w = Some None) ∧
    (∃ t, halfedge_get m t u = Some None) ∧
    (∀ u', halfedge_get m u' v = Some None → u' = u)) as Hall.
  { intros u v Huv. apply Hget in Huv as Hin.
    apply list_elem_of_In, Hb in Hin. rewrite !andb_true_iff in Hin.
    destruct Hin as [[Ho Hi] Hj]. split; [|split].
    - apply existsb_exists in Ho as ([a b] & Hab & E).
      apply bool_decide_eq_true in E. simpl in E. subst.
      exists b. by apply Hget, list_elem_of_In.
    - apply existsb_exists in Hi as ([a b] & Hab & E).
      apply bool_decide_eq_true in E. simpl in E. subst.
      exists a. by apply Hget, list_elem_of_In.
    - intros u' Hu'. rewrite forallb_forall in Hj.
      apply Hget, list_elem_of_In, Hj in Hu'.
      apply bool_decide_eq_true in Hu'. by apply Hu'. }
  split; try done.
  - intros u v H. by apply Hall in H as (? & _).
  - intros u v H. by apply Hall in H as (_ & ? & _).
  - intros u u' v H H'. apply Hall in H' as (_ & _ & Hu). by apply Hu.
Qed.

Lemma boundary_successor_halfedge m x y :
  (∀ u d, dget (halfedge m) u = Some d → NoDup (dkeys d)) →
  boundary_successor m x = Some (Some y) → halfedge_get m x y = Some None.
Proof.
  intros Hn. unfold boundary_successor, halfedge_get.
  destruct (dget (halfedge m) x) as [d|] eqn:Hd; [|done]. simpl.
  destruct (filter (λ kv, kv.2 = None) d) as [|[z o] r] eqn:Hfil; [done|].
  intros [= ->].
  assert ((y, o) ∈ filter (λ kv : nat * option nat, kv.2 = None) d) as Hx
    by (rewrite Hfil; left).
  apply list_elem_of_filter in Hx as [Ho Hx]. simpl in Ho. subst o.
  apply elem_of_dget; [by eapply Hn|done].
Qed.

Lemma boundary_linked_snoc m b l n :
  boundary_linked m b → last b = Some l →
  boundary_successor m l = Some (Some n) → boundary_linked m (b ++ [n]).
Proof.
  intros Hl Hlast Hn i x y Hx Hy.
  assert (S i < length (b ++ [n])) as Hlt by (eapply lookup_lt_Some; eauto).
  rewrite length_app in Hlt. simpl in Hlt.
  rewrite lookup_app_l in Hx by lia.
  destruct (decide (S i < length b)) as [Hlt'|Hge].
  - rewrite lookup_app_l in Hy by lia. eauto.
  - assert (S i = length b) as Hi by lia.
    rewrite lookup_app_r, <- Hi, Nat.sub_diag in Hy by lia.
    simpl in Hy. simplify_eq.
    rewrite last_lookup, <- Hi in Hlast. simpl in Hlast. by simplify_eq.
Qed.

Section boundary_trace.
Context (m : Mesh).
Hypothesis Hmb : manifold_boundary m.

Lemma trace_boundary_manifold R0 fuel v0 path R' :
  NoDup R0 → (∀ x, x ∈ R0 → x ∈ boundary_vertices m) →
  successor_closed m R0 →
  v0 :: path ++ R' ≡ₚ R0 → boundary_linked m (v0 :: path) →
  length R' < fuel →
  ∃ path' R'' fuel',
    trace_boundary m fuel (v0 :: path) R' =
      Done (v0 :: path' ++ [v0], R'', fuel') ∧
    v0 :: path' ++ R'' ≡ₚ R0 ∧ boundary_linked m (v0 :: path' ++ [v0]) ∧
    length R'' ≤ fuel'.
Proof using Hmb.
  intros Hnd HB Hcl. revert path R'.
  induction fuel as [|fuel IH]; intros path R' Hperm Hlink Hlen; [lia|].
  assert (NoDup (v0 :: path ++ R')) as Hnd' by by rewrite Hperm.
  destruct (last (v0 :: path)) as [l|] eqn:Hlast;
    [|by apply last_None in Hlast].
  assert (l ∈ R0) as Hl.
  { rewrite <- Hperm, app_comm_cons. apply elem_of_app. left.
    by apply last_Some_elem_of. }
  destruct (Hcl l Hl) as (n & Hn & Hs).
  cbn [trace_boundary]. rewrite Hlast. cbn [mbind option_bind]. rewrite Hs.
  rewrite (last_snoc n (v0 :: path)). cbn [head app].
  pose proof (boundary_linked_snoc m _ _ _ Hlink Hlast Hs) as Hlink'.
  case_decide as Hclose.
  { subst n. exists path, R', fuel. repeat split; try done. lia. }
  assert (n ∈ R') as HnR.
  { rewrite <- Hperm in Hn. apply elem_of_cons in Hn as [?|Hn]; [done|].
    apply elem_of_app in Hn as [Hn|Hn]; [|done]. exfalso.
    apply list_elem_of_lookup in Hn as [j Hj].
    destruct (lookup_lt_is_Some_2 (v0 :: path) j) as [x Hx].
    { apply lookup_lt_Some in Hj. simpl. lia. }
    assert (boundary_successor m x = Some (Some n)) as Hsx.
    { apply (Hlink j x n Hx). by simpl. }
    assert (x = l) as ->.
    { apply (boundary_successor_inj m Hmb x l n); [|by apply HB|done..].
      apply HB. rewrite <- Hperm, app_comm_cons. apply elem_of_app. left.
      by eapply list_elem_of_lookup_2. }
    rewrite last_lookup in Hlast.
    assert (j = pred (length (v0 :: path))) as ->.
    { eapply NoDup_lookup; [|exact Hx|exact Hlast].
      rewrite app_comm_cons in Hnd'. by apply NoDup_app in Hnd' as [? _]. }
    apply lookup_lt_Some in Hj. simpl in Hj. lia. }
  unfold py_in. rewrite bool_decide_eq_true_2 by done.
  destruct (IH (path ++ [n]) (remove1 n R')) as (path' & R'' & fuel' & Hrun & ?).
  - rewrite <- Hperm. constructor. rewrite <- (app_assoc path [n]). simpl.
    by rewrite (remove1_Permutation n R' HnR).
  - done.
  - pose proof (length_remove1 n R' HnR). lia.
  - exists path', R'', fuel'. by rewrite <- Hrun.
Qed.

Lemma successor_closed_rest R0 v0 path' R'' :
  NoDup R0 → (∀ x, x ∈ R0 → x ∈ boundary_vertices m) →
  successor_closed m R0 →
  v0 :: path' ++ R'' ≡ₚ R0 → boundary_linked m (v0 :: path' ++ [v0]) →
  successor_closed m R''.
Proof using Hmb.
  intros Hnd HB Hcl Hperm Hlink x Hx.
  assert (NoDup (v0 :: path' ++ R'')) as Hnd' by by rewrite Hperm.
  assert (x ∈ R0) as Hx0.
  { rewrite <- Hperm, app_comm_cons. apply elem_of_app. by right. }
  destruct (Hcl x Hx0) as (y & Hy & Hs). exists y. split; [|done].
  rewrite <- Hperm, app_comm_cons in Hy.
  apply elem_of_app in Hy as [Hy|Hy]; [|done]. exfalso.
  assert (∃ k p, (v0 :: path') !! k = Some p ∧
            boundary_successor m p = Some (Some y)) as (k & p & Hp & Hsp).
  { apply elem_of_cons in Hy as [->|Hy].
    - destruct (last (v0 :: path')) as [p|] eqn:Hlast;
        [|by apply last_None in Hlast].
      exists (pred (length (v0 :: path'))), p.
      split; [by rewrite <- last_lookup|].
      rewrite last_lookup in Hlast.
      apply (Hlink (length path') p v0).
      + rewrite app_comm_cons, lookup_app_l by (simpl; lia). exact Hlast.
      + rewrite app_comm_cons.
        replace (S (length path')) with (length (v0 :: path') + 0) by (simpl; lia).
        by rewrite lookup_app_r, Nat.add_comm, Nat.add_sub by lia.
    - apply list_elem_of_lookup in Hy as [j Hj].
      destruct (lookup_lt_is_Some_2 (v0 :: path') j) as [p Hp].
      { apply lookup_lt_Some in Hj. simpl. lia. }
      exists j, p. split; [done|]. apply (Hlink j p y).
      + rewrite app_comm_cons, lookup_app_l; [done|].
        by apply lookup_lt_Some in Hp.
      + simpl. rewrite lookup_app_l; [done|]. by apply lookup_lt_Some in Hj. }
  assert (p ∈ v0 :: path') as Hpin by by eapply list_elem_of_lookup_2.
  assert (p = x) as ->.
  { apply (boundary_successor_inj m Hmb p x y); [|by apply HB|done..].
    apply HB. rewrite <- Hperm, app_comm_cons. apply elem_of_app. by left. }
  rewrite app_comm_cons in Hnd'.
  apply NoDup_app in Hnd' as (_ & Hdis & _). by apply (Hdis x).
Qed.

Lemma boundaries_loop_manifold rounds fuel R bs :
  NoDup R → (∀ x, x ∈ R → x ∈ boundary_vertices m) →
  successor_closed m R → length R ≤ rounds → length R ≤ fuel →
  ∃ bs', boundaries_loop m rounds fuel R bs = Done (bs ++ bs') ∧
    Forall (boundary_loop m) bs' ∧ concat (@removelast nat <$> bs') ≡ₚ R.
Proof using Hmb.
  revert fuel R bs.
  induction rounds as [|rounds IH]; intros fuel R bs Hnd HB Hcl Hr Hf.
  { destruct R; [|simpl in Hr; lia]. exists []. by rewrite app_nil_r. }
  destruct (pop R) as [[v0 R1]|] eqn:Hpop.
  2:{ apply pop_None in Hpop as ->. exists []. by rewrite app_nil_r. }
  cbn [boundaries_loop]. rewrite Hpop. apply pop_Some in Hpop as ->.
  rewrite length_app in Hr, Hf. simpl in Hr, Hf.
  assert (v0 :: [] ++ R1 ≡ₚ R1 ++ [v0]) as Hperm0.
  { simpl. by rewrite Permutation_cons_append. }
  assert (boundary_linked m [v0]) as Hlink0.
  { intros i x y Hx Hy. by destruct i. }
  assert (length R1 < fuel) as Hlt0 by lia.
  destruct (trace_boundary_manifold (R1 ++ [v0]) fuel v0 [] R1
              Hnd HB Hcl Hperm0 Hlink0 Hlt0)
    as (path' & R'' & fuel' & -> & Hperm & Hlink & Hlen).
  assert (NoDup (v0 :: path' ++ R'')) as Hnd' by by rewrite Hperm.
  assert (NoDup R'') as Hnd''.
  { rewrite app_comm_cons in Hnd'. by apply NoDup_app in Hnd' as (_ & _ & ?). }
  assert (∀ x, x ∈ R'' → x ∈ boundary_vertices m) as HB''.
  { intros x Hx. apply HB. rewrite <- Hperm, app_comm_cons.
    apply elem_of_app. by right. }
  assert (successor_closed m R'') as Hcl''.
  { exact (successor_closed_rest (R1 ++ [v0]) v0 path' R''
             Hnd HB Hcl Hperm Hlink). }
  assert (length R'' ≤ rounds) as Hr''.
  { apply Permutation_length in Hperm.
    rewrite length_app in Hperm. simpl in Hperm.
    rewrite length_app in Hperm. lia. }
  destruct (IH fuel' R'' (bs ++ [v0 :: path' ++ [v0]]) Hnd'' HB'' Hcl'' Hr'' Hlen)
    as (bs' & -> & Hgood & Hcat).
  exists ((v0 :: path' ++ [v0]) :: bs'). rewrite <- app_assoc.
  split; [done|]. split.
  - constructor; [|done]. split; [by eauto|].
    intros i x y Hx Hy. eapply boundary_successor_halfedge; [apply Hmb|].
    by eapply Hlink.
  - rewrite fmap_cons, concat_cons.
    replace (removelast (v0 :: path' ++ [v0])) with (v0 :: path')
      by (by rewrite app_comm_cons, List.removelast_last).
    rewrite Hcat. by rewrite <- Hperm.
Qed.
End boundary_trace.




(** ** Building a mesh from lists *)

Lemma dset_fresh {K V} `{EqDecision K} (d : dict K V) k v :
  k ∉ dkeys d → dset d k v = d ++ [(k, v)].
Proof.
  unfold dkeys. induction d as [|[k0 v0] d IH]; simpl; [done|].
  rewrite not_elem_of_cons. intros [Hne Hk].
  rewrite decide_False by done. by rewrite IH.
Qed.

Lemma hget_hset h u v x a b :
  hget (hset h u v x) a b =
  if decide (a = u ∧ b = v) then Some x else hget h a b.
Proof.
  unfold hget, hset. rewrite dget_dset.
  destruct (decide (a = u)) as [->|Hne]; simpl.
  - rewrite dget_dset. destruct (decide (b = v)) as [->|Hne'].
    + by rewrite decide_True.
    + rewrite decide_False by tauto. by destruct (dget h u).
  - by rewrite decide_False by tauto.
Qed.

Lemma hget_add_face_halfedge f h u v a b :
  hget (add_face_halfedge f h (u, v)) a b =
  if decide (a = u ∧ b = v) then Some (Some f)
  else if decide (a = v ∧ b = u) then
         match hget h v u with Some x => Some x | None => Some None end
  else hget h a b.
Proof.
  unfold add_face_halfedge. simpl.
  assert (dmem (default [] (dget (hset h u v (Some f)) v)) u =
          bool_decide (is_Some (hget (hset h u v (Some f)) v u))) as ->.
  { unfold dmem, hget. destruct (dget (hset h u v (Some f)) v) as [d|]; simpl;
      [|done].
    destruct (dget d u); [|done]. symmetry. apply bool_decide_eq_true_2. eauto. }
  case_bool_decide as Hs.
  - rewrite hget_hset. rewrite hget_hset in Hs.
    repeat case_decide; try done; destruct_and?; subst; try tauto.
    destruct Hs as [x Hx]. by rewrite Hx.
  - rewrite !hget_hset. rewrite hget_hset in Hs.
    repeat case_decide; try done; destruct_and?; subst; try tauto.
    + exfalso. apply Hs. eauto.
    + destruct (hget h v u); [|done]. exfalso. apply Hs. eauto.
Qed.

Lemma hget_fold_ops ops h0 a b :
  (∀ a b, hget h0 a b = None) →
  hget (foldl apply_op h0 ops) a b =
  match last (filter (λ o, o.1 = (a, b)) ops) with
  | Some o => Some (Some o.2)
  | None => if decide ((b, a) ∈ ops.*1) then Some None else None
  end.
Proof.
  intros H0. revert a b. induction ops as [|[[u v] j] ops IH] using rev_ind;
    intros a b.
  { simpl. by rewrite H0. }
  rewrite foldl_snoc. unfold apply_op at 1. simpl.
  rewrite hget_add_face_halfedge, filter_app, fmap_app.
  rewrite filter_cons, filter_nil. simpl.
  destruct (decide (a = u ∧ b = v)) as [[-> ->]|Hne].
  { rewrite decide_True by done. by rewrite last_snoc. }
  rewrite (decide_False (P := (u, v) = (a, b))) by (intros [= -> ->]; tauto).
  rewrite app_nil_r.
  destruct (decide (a = v ∧ b = u)) as [[-> ->]|Hne'].
  - rewrite !IH.
    destruct (last (filter (λ o : nat * nat * nat, o.1 = (v, u)) ops)); [done|].
    rewrite (decide_True (P := (u, v) ∈ ops.*1 ++ [(u, v)]))
      by (apply elem_of_app; right; by left).
    by case_decide.
  - rewrite IH.
    destruct (last (filter (λ o : nat * nat * nat, o.1 = (a, b)) ops)); [done|].
    assert ((b, a) ∈ ops.*1 ++ [(u, v)] ↔ (b, a) ∈ ops.*1) as Hiff.
    { rewrite elem_of_app, list_elem_of_singleton. split; [|by left].
      intros [?|[= -> ->]]; [done|tauto]. }
    repeat case_decide; tauto || done.
Qed.

Lemma zip_seq_snoc {A} (s : nat) (l : list A) (x : A) :
  zip (seq s (S (length l))) (l ++ [x]) =
  zip (seq s (length l)) l ++ [(s + length l, x)].
Proof.
  rewrite seq_S. by rewrite zip_with_app by by rewrite length_seq.
Qed.

Lemma dkeys_zip_seq {A} (s : nat) (l : list A) :
  dkeys (zip (seq s (length l)) l) = seq s (length l).
Proof. unfold dkeys. apply fst_zip. by rewrite length_seq. Qed.

Lemma add_vertices_spec vs :
  foldl (λ m p, (add_vertex m None p).2) empty_mesh vs =
  {| vertex := zip (seq 0 (length vs)) vs;
     halfedge := (λ k, (k, [])) <$> seq 0 (length vs);
     face := [];
     max_int_key := Z.of_nat (length vs) - 1;
     max_int_fkey := -1;
     strip := [] |}.
Proof.
  induction vs as [|p vs IH] using rev_ind; [done|].
  rewrite foldl_snoc, IH. unfold add_vertex. cbn [vertex halfedge face
    max_int_key max_int_fkey strip snd].
  replace (Z.to_nat (Z.of_nat (length vs) - 1 + 1)) with (length vs) by lia.
  assert (length vs ∉ dkeys (zip (seq 0 (length vs)) vs)) as Hfresh.
  { rewrite dkeys_zip_seq, elem_of_seq. lia. }
  assert (dmem (zip (seq 0 (length vs)) vs) (length vs) = false) as ->.
  { destruct (dmem _ _) eqn:E; [|done].
    apply dmem_true, dkeys_elem_of in E. done. }
  rewrite length_app. simpl length.
  replace (length vs + 1) with (S (length vs)) by lia.
  f_equal.
  - rewrite dset_fresh by done. by rewrite zip_seq_snoc.
  - rewrite dset_fresh.
    + by rewrite seq_S, fmap_app.
    + unfold dkeys. rewrite <- list_fmap_compose. simpl.
      rewrite list_fmap_id, elem_of_seq. lia.
  - lia.
Qed.

Lemma add_face_known_vertices m c :
  (∀ x, x ∈ c → x ∈ vertices m) →
  foldl (λ m k, if dmem (vertex m) k then m
                else (add_vertex m (Some k) origin).2) m c = m.
Proof.
  induction c as [|x c IH]; intros Hc; [done|]. simpl.
  assert (dmem (vertex m) x = true) as ->.
  { apply dmem_true, dkeys_elem_of, Hc. by left. }
  apply IH. intros y Hy. apply Hc. by right.
Qed.

Lemma add_faces_spec m1 fs :
  (-1 ≤ max_int_fkey m1)%Z →
  (∀ k, k ∈ faces m1 → k < Z.to_nat (max_int_fkey m1 + 1)) →
  Forall (λ c, 3 ≤ length c ∧ ∀ x, x ∈ c → x ∈ vertices m1) fs →
  foldl (λ m f, (add_face m f None).2) m1 fs =
  {| vertex := vertex m1;
     halfedge := foldl apply_op (halfedge m1)
       (table_ops (zip (seq (Z.to_nat (max_int_fkey m1 + 1)) (length fs)) fs));
     face := face m1 ++ zip (seq (Z.to_nat (max_int_fkey m1 + 1)) (length fs)) fs;
     max_int_key := max_int_key m1;
     max_int_fkey := max_int_fkey m1 + Z.of_nat (length fs);
     strip := strip m1 |}.
Proof.
  intros Hmax Hkeys. set (s := Z.to_nat (max_int_fkey m1 + 1)).
  induction fs as [|c fs IH] using rev_ind; intros Hfs.
  { simpl. rewrite app_nil_r, Z.add_0_r. by destruct m1. }
  apply Forall_app in Hfs as [Hfs Hc]. apply Forall_singleton in Hc as [Hlen Hc].
  rewrite foldl_snoc, IH by done. unfold add_face.
  rewrite decide_False by lia.
  rewrite add_face_known_vertices by done.
  cbn [vertex halfedge face max_int_key max_int_fkey strip snd].
  replace (Z.to_nat (max_int_fkey m1 + Z.of_nat (length fs) + 1))
    with (s + length fs) by lia.
  rewrite length_app. simpl length.
  replace (length fs + 1) with (S (length fs)) by lia.
  rewrite zip_seq_snoc. f_equal.
  - unfold table_ops. rewrite bind_app, foldl_app. simpl.
    rewrite app_nil_r. unfold face_ops. by rewrite foldl_fmap.
  - rewrite dset_fresh; [by rewrite app_assoc|].
    unfold dkeys. rewrite fmap_app. fold (dkeys (face m1)).
    fold (dkeys (zip (seq s (length fs)) fs)). rewrite dkeys_zip_seq.
    rewrite elem_of_app, elem_of_seq. intros [H|H]; [|lia].
    apply Hkeys in H. fold s in H. lia.
  - lia.
Qed.

Lemma hget_empty_tables (n : nat) a b :
  hget ((λ k, (k, [])) <$> seq 0 n) a b = None.
Proof.
  unfold hget. destruct (dget _ a) as [d|] eqn:E; [|done]. simpl.
  apply dget_Some_elem_of, list_elem_of_fmap in E as (k & [= -> ->] & _). done.
Qed.

Lemma from_vertices_and_faces_spec vs fs :
  Forall (λ c, 3 ≤ length c ∧ ∀ x, x ∈ c → x < length vs) fs →
  let m' := from_vertices_and_faces vs fs in
  vertices m' = seq 0 (length vs) ∧
  face m' = zip (seq 0 (length fs)) fs ∧
  ∀ a b, halfedge_get m' a b =
    match last (filter (λ o, o.1 = (a, b))
                  (table_ops (zip (seq 0 (length fs)) fs))) with
    | Some o => Some (Some o.2)
    | None =>
        if decide ((b, a) ∈ (table_ops (zip (seq 0 (length fs)) fs)).*1)
        then Some None else None
    end.
Proof.
  intros Hfs. unfold from_vertices_and_faces. rewrite add_vertices_spec.
  rewrite add_faces_spec; cbn [vertex halfedge face max_int_key max_int_fkey].
  - simpl. split; [apply dkeys_zip_seq|]. split; [done|].
    intros a b. unfold halfedge_get. cbn [halfedge].
    apply (hget_fold_ops _ _ a b). apply hget_empty_tables.
  - done.
  - by intros k ?%elem_of_nil.
  - eapply Forall_impl; [exact Hfs|]. intros c [Hlen Hc]. split; [done|].
    intros x Hx. unfold vertices. cbn [vertex]. rewrite dkeys_zip_seq.
    apply elem_of_seq. specialize (Hc x Hx). lia.
Qed.

(** ** The round trip through [to_vertices_and_faces] *)

Lemma position_seq (l : list nat) :
  NoDup l → (λ x, default 0 (index x l)) <$> l = seq 0 (length l).
Proof.
  intros Hnd. apply list_eq. intros i. rewrite list_lookup_fmap.
  destruct (l !! i) as [x|] eqn:E; simpl.
  - rewrite (index_lookup_NoDup _ _ _ Hnd E). simpl. symmetry.
    apply lookup_seq. split; [done|]. by eapply lookup_lt_Some.
  - symmetry. apply lookup_seq_ge. by apply lookup_ge_None.
Qed.

Lemma position_spec (l : list nat) x :
  x ∈ l → index x l = Some (default 0 (index x l)) ∧
    l !! default 0 (index x l) = Some x ∧ default 0 (index x l) < length l.
Proof. intros (i & -> & ? & ?)%index_Some. done. Qed.

Lemma position_inj (l : list nat) x y :
  x ∈ l → y ∈ l → default 0 (index x l) = default 0 (index y l) → x = y.
Proof.
  intros (_ & Hx & _)%position_spec (_ & Hy & _)%position_spec E.
  rewrite E in Hx. congruence.
Qed.

Lemma mapM_total {A B} (f : A → option B) (g : A → B) (l : list A) :
  (∀ x, x ∈ l → f x = Some (g x)) → mapM f l = Some (g <$> l).
Proof.
  induction l as [|x l IH]; intros H; [done|]. simpl.
  rewrite (H x) by by left. simpl. rewrite IH; [done|].
  intros y Hy. apply H. by right.
Qed.

Lemma pairwise_fmap {A B} (g : A → B) (l : list A) :
  pairwise (g <$> l) = prod_map g g <$> pairwise l.
Proof.
  unfold pairwise. destruct l as [|x l]; [done|]. simpl.
  revert x. induction l as [|y l IH]; intros x; [done|].
  simpl. f_equal. apply IH.
Qed.

Lemma cycle_keys_fmap {A B} (g : A → B) (l : list A) :
  cycle_keys (g <$> l) = prod_map g g <$> cycle_keys l.
Proof.
  unfold cycle_keys. by rewrite <- pairwise_fmap, fmap_app, fmap_take.
Qed.

Lemma cycle_keys_elem_of {A} (l : list A) x y :
  (x, y) ∈ cycle_keys l → x ∈ l ∧ y ∈ l.
Proof.
  unfold cycle_keys, pairwise. intros H.
  assert (∀ z, z ∈ l ++ take 1 l → z ∈ l) as Hin.
  { intros z [?|Hz]%elem_of_app; [done|].
    apply elem_of_take in Hz as (i & Hi & _). by eapply list_elem_of_lookup_2. }
  split; apply Hin.
  - by apply elem_of_zip_l in H.
  - apply elem_of_zip_r in H. destruct (l ++ take 1 l); [done|]. by right.
Qed.

Lemma elem_of_zip_seq {A} (l : list A) j c :
  (j, c) ∈ zip (seq 0 (length l)) l ↔ l !! j = Some c.
Proof.
  rewrite list_elem_of_lookup. split.
  - intros [i Hi]. apply lookup_zip_with_Some in Hi as (a & b & Heq & Ha & Hb).
    apply lookup_seq in Ha as [-> _]. by simplify_eq.
  - intros Hj. exists j. apply lookup_zip_with_Some. exists j, c.
    split; [done|]. split; [|done]. apply lookup_seq. split; [done|].
    by eapply lookup_lt_Some.
Qed.

Lemma elem_of_table_ops faces o :
  o ∈ table_ops faces ↔
  ∃ j c, (j, c) ∈ faces ∧ o.2 = j ∧ o.1 ∈ cycle_keys c.
Proof.
  unfold table_ops, face_ops. rewrite list_elem_of_bind. split.
  - intros ([j c] & Ho & Hjc). apply list_elem_of_fmap in Ho as (uv & -> & Huv).
    by exists j, c.
  - intros (j & c & Hjc & Hj & Huv). exists (j, c). split; [|done].
    apply list_elem_of_fmap. exists o.1. split; [|done].
    destruct o; simpl in *; by subst.
Qed.

Lemma last_filter_Some {A} (P : A → Prop) `{∀ x, Decision (P x)} (l : list A) o :
  last (filter P l) = Some o → o ∈ l ∧ P o.
Proof.
  intros Ho%last_Some_elem_of. apply list_elem_of_filter in Ho. tauto.
Qed.

Lemma last_filter_None {A} (P : A → Prop) `{∀ x, Decision (P x)} (l : list A) :
  last (filter P l) = None → ∀ o, o ∈ l → ¬ P o.
Proof.
  intros Hn%last_None o Ho HP.
  assert (o ∈ filter P l) as Hin by by apply list_elem_of_filter.
  rewrite Hn in Hin. by apply elem_of_nil in Hin.
Qed.

Lemma consistent_meshb_sound m : consistent_meshb m = true → consistent_mesh m.
Proof.
  unfold consistent_meshb. rewrite !andb_true_iff, !bool_decide_eq_true.
  intros [[[Hv Hfk] Hf] Hh]. rewrite forallb_forall in Hf, Hh.
  assert (Hface : ∀ f vs, face_vertices m f = Some vs →
    3 ≤ length vs ∧ (∀ x, x ∈ vs → x ∈ vertices m) ∧
    ∀ uv, uv ∈ cycle_keys vs → halfedge_get m uv.1 uv.2 = Some (Some f)).
  { intros f vs E. apply dget_Some_elem_of, list_elem_of_In, Hf in E.
    rewrite !andb_true_iff, bool_decide_eq_true, !forallb_forall in E.
    destruct E as [[Hlen Hin] Hhe]. simpl in *. split; [done|]. split.
    - intros x Hx. apply list_elem_of_In, Hin in Hx.
      by apply bool_decide_eq_true in Hx.
    - intros uv Huv. apply list_elem_of_In, Hhe in Huv.
      by apply bool_decide_eq_true in Huv. }
  assert (Hhe : ∀ u v, is_Some (halfedge_get m u v) →
    halfedge_ok m (u, v) = true ∧ u ∈ vertices m).
  { intros u v E. apply halfedge_get_halfedges, list_elem_of_In, Hh in E.
    apply andb_true_iff in E as [E1 E2]. split; [done|].
    by apply bool_decide_eq_true in E2. }
  split; try done.
  - intros f cyc E. apply Hface in E. tauto.
  - intros f cyc uv E. apply Hface in E as (_ & _ & E). apply E.
  - intros u v f E. destruct (Hhe u v) as [Hok _]; [eauto|].
    unfold halfedge_ok in Hok. simpl in Hok. rewrite E in Hok.
    apply andb_true_iff in Hok as [Hok _].
    destruct (face_vertices m f) as [vs|]; [|done].
    exists vs. split; [done|]. by apply bool_decide_eq_true in Hok.
  - intros u v E. destruct (Hhe u v E) as [Hok _]. destruct E as [x E].
    unfold halfedge_ok in Hok. simpl in Hok. rewrite E in Hok.
    destruct x.
    + apply andb_true_iff in Hok as [_ Hok]. by apply bool_decide_eq_true in Hok.
    + destruct (halfedge_get m v u) as [[?|]|]; eauto; done.
  - intros u v E. destruct (Hhe u v) as [Hok _]; [eauto|].
    unfold halfedge_ok in Hok. simpl in Hok. rewrite E in Hok.
    destruct (halfedge_get m v u) as [[?|]|]; eauto; done.
  - intros u v E. by apply Hhe in E as [_ ?].
Qed.

Section round_trip.
Context (m : Mesh).
Hypothesis Hcm : consistent_mesh m.

#[local] Abbreviation vs := (exported_vertices m).
#[local] Abbreviation fs := (exported_faces m).

Lemma to_vertices_and_faces_lists :
  to_vertices_and_faces m false = Some (inr (vs, fs)).
Proof using Hcm.
  unfold to_vertices_and_faces, exported_vertices, exported_faces.
  rewrite (mapM_total _ (λ k, default origin (vertex_coordinates m k))).
  2:{ intros k [p Hp]%dkeys_elem_of. unfold vertex_coordinates. by rewrite Hp. }
  simpl.
  rewrite (mapM_total _
    (λ f, vertex_position m <$> default [] (face_vertices m f))); [done|].
  intros f [cyc Hf]%dkeys_elem_of. unfold face_vertices. rewrite Hf. simpl.
  apply mapM_total. intros x Hx. unfold key_index, vertex_position.
  apply position_spec. by apply (cm_face m Hcm f cyc Hf).
Qed.

Lemma round_trip_faces_ok :
  Forall (λ c, 3 ≤ length c ∧ ∀ x, x ∈ c → x < length vs) fs.
Proof using Hcm.
  apply Forall_forall. unfold exported_faces.
  intros c (f & -> & [cyc Hf]%dkeys_elem_of)%list_elem_of_fmap.
  unfold face_vertices. rewrite Hf. simpl.
  destruct (cm_face m Hcm f cyc Hf) as [Hlen Hin].
  rewrite length_fmap. split; [done|].
  intros x (y & -> & Hy)%list_elem_of_fmap.
  unfold exported_vertices. rewrite length_fmap.
  apply position_spec. by apply Hin.
Qed.

Lemma round_trip_face_lookup f cyc :
  face_vertices m f = Some cyc →
  faces m !! face_position m f = Some f ∧
  fs !! face_position m f = Some (vertex_position m <$> cyc).
Proof using Hcm.
  intros Hf. assert (f ∈ faces m) as Hin by (apply dkeys_elem_of; eauto).
  destruct (position_spec _ _ Hin) as (_ & Hj & _).
  split; [done|]. unfold exported_faces. rewrite list_lookup_fmap.
  unfold face_position. rewrite Hj. simpl. by rewrite Hf.
Qed.

Lemma round_trip_ops u v j :
  u ∈ vertices m → v ∈ vertices m →
  ((vertex_position m u, vertex_position m v), j)
    ∈ table_ops (zip (seq 0 (length fs)) fs) ↔
  ∃ f, faces m !! j = Some f ∧ halfedge_get m u v = Some (Some f).
Proof using Hcm.
  intros Hu Hv. rewrite elem_of_table_ops. simpl. split.
  - intros (j' & c & Hjc%elem_of_zip_seq & <- & Hpair).
    unfold exported_faces in Hjc. rewrite list_lookup_fmap in Hjc.
    destruct (faces m !! j) as [f|] eqn:Hj; [|done]. simpl in Hjc.
    assert (f ∈ faces m) as Hin by by eapply list_elem_of_lookup_2.
    apply dkeys_elem_of in Hin as [cyc Hf]. unfold face_vertices in Hjc.
    rewrite Hf in Hjc. simpl in Hjc. simplify_eq.
    rewrite cycle_keys_fmap in Hpair.
    apply list_elem_of_fmap in Hpair as ([x y] & [= Hx Hy] & Hxy).
    destruct (cycle_keys_elem_of _ _ _ Hxy) as [Hxin Hyin].
    destruct (cm_face m Hcm f cyc Hf) as [_ Hcyc].
    apply position_inj in Hx; [|done|by apply Hcyc].
    apply position_inj in Hy; [|done|by apply Hcyc]. subst.
    exists f. split; [done|]. by apply (cm_face_he m Hcm f cyc (x, y)).
  - intros (f & Hj & Hhe).
    destruct (cm_he_face m Hcm _ _ _ Hhe) as (cyc & Hf & Hin).
    exists j, (vertex_position m <$> cyc). split; [|split; [done|]].
    + apply elem_of_zip_seq. unfold exported_faces.
      rewrite list_lookup_fmap, Hj. simpl.
      by rewrite Hf.
    + rewrite cycle_keys_fmap. apply list_elem_of_fmap. by exists (u, v).
Qed.

Lemma round_trip_halfedge u v :
  u ∈ vertices m → v ∈ vertices m →
  halfedge_get (from_vertices_and_faces vs fs)
    (vertex_position m u) (vertex_position m v) =
  (λ o : option nat, face_position m <$> o) <$> halfedge_get m u v.
Proof using Hcm.
  intros Hu Hv.
  destruct (from_vertices_and_faces_spec vs fs round_trip_faces_ok)
    as (_ & _ & ->).
  set (ops := table_ops (zip (seq 0 (length fs)) fs)).
  assert (∀ a b, a ∈ vertices m → b ∈ vertices m →
    (∀ f, halfedge_get m a b ≠ Some (Some f)) →
    last (filter (λ o, o.1 = (vertex_position m a, vertex_position m b)) ops)
      = None) as Hnone.
  { intros a b Ha Hb Hno.
    destruct (last (filter _ ops)) as [[[a' b'] j]|] eqn:E; [|done].
    apply last_filter_Some in E as [Hin [= -> ->]].
    apply (round_trip_ops a b j Ha Hb) in Hin as (f & _ & Hf). by apply Hno in Hf. }
  assert (∀ a b, a ∈ vertices m → b ∈ vertices m →
    (vertex_position m a, vertex_position m b) ∈ ops.*1 ↔
    ∃ f, halfedge_get m a b = Some (Some f)) as Hmem.
  { intros a b Ha Hb. rewrite list_elem_of_fmap. split.
    - intros ([[a' b'] j] & Heq & Hin). simpl in Heq. simplify_eq.
      apply (round_trip_ops a b j Ha Hb) in Hin as (f & _ & Hf). eauto.
    - intros [f Hf]. destruct (cm_he_face m Hcm _ _ _ Hf) as (cyc & Hc & _).
      destruct (round_trip_face_lookup f cyc Hc) as [Hj _].
      exists ((vertex_position m a, vertex_position m b), face_position m f).
      split; [done|]. apply (round_trip_ops a b _ Ha Hb). eauto. }
  destruct (halfedge_get m u v) as [[f|]|] eqn:Hhe; simpl.
  - destruct (cm_he_face m Hcm _ _ _ Hhe) as (cyc & Hc & _).
    destruct (round_trip_face_lookup f cyc Hc) as [Hj _].
    destruct (last (filter _ ops)) as [[[a' b'] j]|] eqn:E.
    + apply last_filter_Some in E as [Hin [= -> ->]].
      apply (round_trip_ops u v j Hu Hv) in Hin as (f' & Hj' & Hf').
      simplify_eq. simpl. do 2 f_equal.
      eapply NoDup_lookup; [apply (cm_face_keys m Hcm)|done..].
    + exfalso. eapply (last_filter_None _ _ E
        ((vertex_position m u, vertex_position m v), face_position m f)); [|done].
      apply (round_trip_ops u v _ Hu Hv). eauto.
  - rewrite (Hnone u v Hu Hv) by congruence.
    rewrite decide_True; [done|]. apply (Hmem v u Hv Hu).
    by apply (cm_he_boundary m Hcm).
  - rewrite (Hnone u v Hu Hv) by congruence.
    rewrite decide_False; [done|]. intros [f Hf]%(Hmem v u Hv Hu).
    destruct (cm_he_sym m Hcm v u) as [? ?]; [eauto|congruence].
Qed.
End round_trip.

(** C7. Exporting a consistent mesh with
    [to_vertices_and_faces(keep_keys=False)] and rebuilding it with
    [from_vertices_and_faces] gives an isomorphic mesh: sending a vertex
    key to its position among the vertices and a face key to its position
    among the faces maps the vertices and the faces of the mesh one to one
    onto those of the rebuilt mesh, every face cycle onto the cycle of its
    image, and every half-edge entry onto the entry of the images. *)
Theorem round_trip_isomorphic m :
  consistent_mesh m →
  ∃ vs fs, to_vertices_and_faces m false = Some (inr (vs, fs)) ∧
    let m' := from_vertices_and_faces vs fs in
    vertex_position m <$> vertices m = vertices m' ∧ NoDup (vertices m') ∧
    face_position m <$> faces m = faces m' ∧ NoDup (faces m') ∧
    (∀ f cyc, face_vertices m f = Some cyc →
       face_vertices m' (face_position m f) =
         Some (vertex_position m <$> cyc)) ∧
    (∀ u v, u ∈ vertices m → v ∈ vertices m →
       halfedge_get m' (vertex_position m u) (vertex_position m v) =
         (λ o : option nat, face_position m <$> o) <$> halfedge_get m u v).
Proof.
  intros Hcm. exists (exported_vertices m), (exported_faces m).
  split; [by apply to_vertices_and_faces_lists|]. cbn zeta.
  destruct (from_vertices_and_faces_spec _ _ (round_trip_faces_ok m Hcm))
    as (Hv & Hf & _).
  assert (length (exported_vertices m) = length (vertices m)) as Hlv
    by apply length_fmap.
  assert (length (exported_faces m) = length (faces m)) as Hlf
    by apply length_fmap.
  assert (faces (from_vertices_and_faces (exported_vertices m) (exported_faces m))
    = seq 0 (length (faces m))) as Hfk.
  { unfold faces at 1. by rewrite Hf, dkeys_zip_seq, Hlf. }
  split; [|split; [|split; [|split; [|split]]]].
  - rewrite Hv, Hlv. apply position_seq, Hcm.
  - rewrite Hv. apply NoDup_seq.
  - rewrite Hfk. apply position_seq, Hcm.
  - rewrite Hfk. apply NoDup_seq.
  - intros f cyc Hc.
    destruct (round_trip_face_lookup m Hcm f cyc Hc) as [_ Hj].
    unfold face_vertices at 1. rewrite Hf. apply elem_of_dget.
    + rewrite dkeys_zip_seq. apply NoDup_seq.
    + by apply elem_of_zip_seq.
  - by apply round_trip_halfedge.
Qed.

Lemma round_trip_isomorphic_witness :
  consistent_mesh kite ∧
  ∃ vs fs, to_vertices_and_faces kite false = Some (inr (vs, fs)) ∧
    let m' := from_vertices_and_faces vs fs in
    vertex_position kite <$> vertices kite = vertices m' ∧ NoDup (vertices m') ∧
    face_position kite <$> faces kite = faces m' ∧ NoDup (faces m') ∧
    (∀ f cyc, face_vertices kite f = Some cyc →
       face_vertices m' (face_position kite f) =
         Some (vertex_position kite <$> cyc)) ∧
    (∀ u v, u ∈ vertices kite → v ∈ vertices kite →
       halfedge_get m' (vertex_position kite u) (vertex_position kite v) =
         (λ o : option nat, face_position kite <$> o) <$> halfedge_get kite u v).
Proof.
  assert (consistent_mesh kite) as H.
  { apply consistent_meshb_sound. vm_compute. reflexivity. }
  split; [exact H|]. exact (round_trip_isomorphic kite H).
Defined.


(** ** Collapsing a strip *)

(** *** Item assignment and deletion *)

Section dict_update.
Context {K V : Type} `{EqDecision K}.
Implicit Types d : dict K V.

Lemma NoDup_dkeys_dset d k v : NoDup (dkeys d) → NoDup (dkeys (dset d k v)).
Proof.
  intros Hd. destruct (decide (k ∈ dkeys d)) as [Hk|Hk].
  - assert (dkeys (dset d k v) = dkeys d) as ->; [|done].
    unfold dkeys in *. clear Hd. induction d as [|[k0 v0] d IH]; simpl.
    { by apply elem_of_nil in Hk. }
    case_decide; subst; [done|]. rewrite !fmap_cons. f_equal. apply IH.
    rewrite fmap_cons in Hk. apply elem_of_cons in Hk as [?|?]; done.
  - rewrite dkeys_dset_fresh by done. apply NoDup_app. split_and!; [done| |].
    + intros x Hx ->%list_elem_of_singleton. done.
    + apply NoDup_singleton.
Qed.

Lemma dkeys_ddel_sublist d k : dkeys (ddel d k) `sublist_of` dkeys d.
Proof.
  unfold dkeys. induction d as [|[k0 v0] d IH]; simpl; [done|].
  case_decide; rewrite ?fmap_cons; simpl.
  - by apply sublist_cons.
  - by apply sublist_skip.
Qed.

Lemma NoDup_dkeys_ddel d k : NoDup (dkeys d) → NoDup (dkeys (ddel d k)).
Proof. intros Hd. by eapply sublist_NoDup, dkeys_ddel_sublist. Qed.

Lemma dget_ddel d k k' :
  NoDup (dkeys d) →
  dget (ddel d k) k' = if decide (k' = k) then None else dget d k'.
Proof.
  unfold dkeys. induction d as [|[k0 v0] d IH]; simpl; intros Hd.
  { by case_decide. }
  apply NoDup_cons in Hd as [Hk0 Hd]. simpl in Hk0.
  destruct (decide (k = k0)) as [->|Hne].
  - destruct (decide (k' = k0)) as [->|Hne']; [|done].
    apply dget_None_keys. done.
  - simpl. destruct (decide (k' = k0)) as [->|Hne'].
    + by rewrite decide_False.
    + by apply IH.
Qed.

Lemma length_ddel d k : k ∈ dkeys d → S (length (ddel d k)) = length d.
Proof.
  unfold dkeys. induction d as [|[k0 v0] d IH]; simpl; intros Hk.
  { by apply elem_of_nil in Hk. }
  case_decide; [done|]. simpl. f_equal. apply IH.
  apply elem_of_cons in Hk as [?|?]; done.
Qed.

Lemma length_replace d k v :
  NoDup (dkeys d) → k ∈ dkeys d → length (dset (ddel d k) k v) = length d.
Proof.
  intros Hd Hk. rewrite dset_fresh.
  - rewrite length_app. simpl. rewrite <- (length_ddel d k) by done. lia.
  - apply dget_None_keys. rewrite dget_ddel by done. by rewrite decide_True.
Qed.

Lemma dget_replace d k v k' :
  NoDup (dkeys d) →
  dget (dset (ddel d k) k v) k' = if decide (k' = k) then Some v else dget d k'.
Proof.
  intros Hd. rewrite dget_dset. case_decide; [done|].
  rewrite dget_ddel by done. by rewrite decide_False.
Qed.
End dict_update.

(** *** Rows of the half-edge table *)

Lemma hget_hdel h u v a b :
  rows_nodup h →
  hget (hdel h u v) a b = if decide (a = u ∧ b = v) then None else hget h a b.
Proof.
  intros Hh. unfold hget, hdel. rewrite dget_dset.
  destruct (decide (a = u)) as [->|Hne]; simpl.
  - destruct (dget h u) as [d|] eqn:Hd; simpl.
    + rewrite dget_ddel by eauto.
      destruct (decide (b = v)) as [->|Hne'].
      * by rewrite decide_True.
      * by rewrite decide_False by tauto.
    + by case_decide.
  - by rewrite decide_False by tauto.
Qed.

Lemma rows_nodup_hset h u v x : rows_nodup h → rows_nodup (hset h u v x).
Proof.
  intros Hh a d. unfold hset. rewrite dget_dset. case_decide as Ha.
  - intros [= <-]. apply NoDup_dkeys_dset.
    destruct (dget h u) as [d'|] eqn:Hd; simpl; [eauto|apply NoDup_nil_2].
  - apply Hh.
Qed.

Lemma rows_nodup_hdel h u v : rows_nodup h → rows_nodup (hdel h u v).
Proof.
  intros Hh a d. unfold hdel. rewrite dget_dset. case_decide as Ha.
  - intros [= <-]. apply NoDup_dkeys_ddel.
    destruct (dget h u) as [d'|] eqn:Hd; simpl; [eauto|apply NoDup_nil_2].
  - apply Hh.
Qed.

Lemma row_hset h u v x a : is_Some (dget h a) → is_Some (dget (hset h u v x) a).
Proof. unfold hset. rewrite dget_dset. case_decide; eauto. Qed.

Lemma row_hdel h u v a : is_Some (dget h a) → is_Some (dget (hdel h u v) a).
Proof. unfold hdel. rewrite dget_dset. case_decide; eauto. Qed.

(** *** [delete_face] *)

Lemma delete_face_halfedge_spec h a b :
  rows_nodup h → is_Some (dget h a) → is_Some (dget h b) →
  ∃ h', delete_face_halfedge (Some h) (a, b) = Some h' ∧ rows_nodup h' ∧
    (∀ x, is_Some (dget h x) → is_Some (dget h' x)) ∧
    (∀ x y f, hget h' x y = Some (Some f) ↔
              hget h x y = Some (Some f) ∧ (x, y) ≠ (a, b)).
Proof.
  intros Hh [ra Hra] Hb. unfold delete_face_halfedge. simpl. rewrite Hra. simpl.
  pose proof (row_hset h a b None b Hb) as [rb Hrb]. rewrite Hrb. simpl.
  assert (∀ x y f, hget (hset h a b None) x y = Some (Some f) ↔
                   hget h x y = Some (Some f) ∧ (x, y) ≠ (a, b)) as Hset.
  { intros x y f. rewrite hget_hset. case_decide as Hxy.
    - destruct Hxy as [-> ->]. naive_solver.
    - split; [|tauto]. intros ?. split; [done|]. intros [= -> ->]. tauto. }
  case_decide as Hopp.
  - eexists. split; [done|]. split_and!.
    + by apply rows_nodup_hdel, rows_nodup_hdel, rows_nodup_hset.
    + intros x Hx. by apply row_hdel, row_hdel, row_hset.
    + intros x y f.
      rewrite hget_hdel by by apply rows_nodup_hdel, rows_nodup_hset.
      rewrite hget_hdel by by apply rows_nodup_hset.
      assert (hget (hset h a b None) b a = Some None) as Hba.
      { unfold hget. by rewrite Hrb. }
      destruct (decide (x = b ∧ y = a)) as [[-> ->]|Hne].
      { split; [done|]. intros Hf. apply Hset in Hf. congruence. }
      destruct (decide (x = a ∧ y = b)) as [[-> ->]|Hne'].
      { split; [done|]. intros [_ ?]. done. }
      apply Hset.
  - eexists. split; [done|]. split_and!.
    + by apply rows_nodup_hset.
    + intros x Hx. by apply row_hset.
    + apply Hset.
Qed.

Lemma delete_fold_spec ps h :
  rows_nodup h →
  (∀ p, p ∈ ps → is_Some (dget h p.1) ∧ is_Some (dget h p.2)) →
  ∃ h', foldl delete_face_halfedge (Some h) ps = Some h' ∧ rows_nodup h' ∧
    (∀ x, is_Some (dget h x) → is_Some (dget h' x)) ∧
    (∀ x y f, hget h' x y = Some (Some f) ↔
              hget h x y = Some (Some f) ∧ (x, y) ∉ ps).
Proof.
  revert h. induction ps as [|[a b] ps IH]; intros h Hh Hps.
  { exists h. split_and!; [done..|]. intros x y f. rewrite elem_of_nil. tauto. }
  destruct (Hps (a, b)) as [Ha Hb]; [by left|].
  destruct (delete_face_halfedge_spec h a b Hh Ha Hb)
    as (h1 & Hstep & Hh1 & Hrows1 & Hget1).
  destruct (IH h1 Hh1) as (h' & Hfold & Hh' & Hrows' & Hget').
  { intros p Hp. destruct (Hps p) as [H1 H2]; [by right|]. eauto. }
  exists h'. split_and!; [|done|by eauto|].
  - change (foldl delete_face_halfedge (Some h) ((a, b) :: ps))
      with (foldl delete_face_halfedge (delete_face_halfedge (Some h) (a, b)) ps).
    by rewrite Hstep.
  - intros x y f. rewrite Hget', Hget1, not_elem_of_cons. tauto.
Qed.

Lemma delete_face_spec m f cyc :
  rows_nodup (halfedge m) → dget (face m) f = Some cyc →
  (∀ x, x ∈ cyc → is_Some (dget (halfedge m) x)) →
  ∃ m', delete_face m f = Some m' ∧ face m' = ddel (face m) f ∧
    vertex m' = vertex m ∧ max_int_key m' = max_int_key m ∧
    rows_nodup (halfedge m') ∧
    (∀ x, is_Some (dget (halfedge m) x) → is_Some (dget (halfedge m') x)) ∧
    (∀ x y g, hget (halfedge m') x y = Some (Some g) ↔
              hget (halfedge m) x y = Some (Some g) ∧ (x, y) ∉ cycle_keys cyc).
Proof.
  intros Hh Hf Hcyc.
  destruct (delete_fold_spec (cycle_keys cyc) (halfedge m) Hh)
    as (h' & Hfold & Hh' & Hrows & Hget).
  { intros [a b] [Ha Hb]%cycle_keys_elem_of. eauto. }
  eexists. split.
  { unfold delete_face, face_halfedges, face_vertices. rewrite Hf. simpl.
    rewrite Hfold. simpl. done. }
  simpl. done.
Qed.

(** *** [add_face] *)

Lemma add_fold_spec f ps h :
  rows_nodup h →
  rows_nodup (foldl (add_face_halfedge f) h ps) ∧
  (∀ x, is_Some (dget h x) →
        is_Some (dget (foldl (add_face_halfedge f) h ps) x)) ∧
  (∀ x y g, hget (foldl (add_face_halfedge f) h ps) x y = Some (Some g) →
            (g = f ∧ (x, y) ∈ ps) ∨ hget h x y = Some (Some g)).
Proof.
  revert h. induction ps as [|[a b] ps IH]; intros h Hh; simpl.
  { split_and!; [done..|]. intros. by right. }
  assert (rows_nodup (add_face_halfedge f h (a, b))) as Hh1.
  { unfold add_face_halfedge. simpl. case_match.
    - by apply rows_nodup_hset.
    - by apply rows_nodup_hset, rows_nodup_hset. }
  destruct (IH _ Hh1) as (Hh' & Hrows & Hget). split_and!; [done| |].
  - intros x Hx. apply Hrows. unfold add_face_halfedge. simpl. case_match.
    + by apply row_hset.
    + by apply row_hset, row_hset.
  - intros x y g Hg. apply Hget in Hg as [[-> Hin]|Hg].
    { left. split; [done|]. by right. }
    rewrite hget_add_face_halfedge in Hg.
    repeat case_decide; destruct_and?; simplify_eq.
    + left. split; [done|]. by left.
    + right. by destruct (hget h b a).
    + by right.
Qed.

Lemma add_face_spec m cyc f :
  3 ≤ length cyc → (∀ x, x ∈ cyc → x ∈ dkeys (vertex m)) →
  ∃ m', (add_face m cyc (Some f)).2 = m' ∧ face m' = dset (face m) f cyc ∧
    vertex m' = vertex m ∧ max_int_key m' = max_int_key m ∧
    halfedge m' = foldl (add_face_halfedge f) (halfedge m) (cycle_keys cyc).
Proof.
  intros Hlen Hcyc. unfold add_face.
  rewrite decide_False by lia. rewrite add_face_known_vertices by done.
  eexists. split; [done|]. simpl. done.
Qed.

(** *** [dual_edge_groups] *)

Lemma group_inv_dset P eg u v g :
  group_inv P eg → P u → P v → group_inv P (dset (dset eg (u, v) g) (v, u) g).
Proof.
  intros [Hsym Hkeys] Hu Hv. split.
  - intros [a b]. unfold flip. simpl. rewrite !dget_dset.
    pose proof (Hsym (a, b)) as Hab. unfold flip in Hab. simpl in Hab.
    repeat case_decide; simplify_eq; done.
  - intros a b. rewrite !dget_dset. repeat case_decide; simplify_eq; eauto.
Qed.

Lemma group_mono_dset (eg : dict edge nat) e g e' :
  is_Some (dget eg e') → is_Some (dget (dset eg e g) e').
Proof. rewrite dget_dset. case_decide; eauto. Qed.

Lemma relabel_group_spec P old new eg :
  group_inv P eg → NoDup (dkeys eg) →
  group_inv P (relabel_group old new eg) ∧
  NoDup (dkeys (relabel_group old new eg)) ∧
  (∀ e, is_Some (dget eg e) → is_Some (dget (relabel_group old new eg) e)).
Proof.
  unfold relabel_group. generalize (dkeys eg) at 2 3 4. intros l. revert eg.
  induction l as [|[a b] l IH]; intros eg Heg Hnd; simpl; [done|].
  case_decide as Hab.
  - destruct (proj2 Heg a b) as [Ha Hb]; [by rewrite Hab|].
    destruct (IH (dset (dset eg (a, b) new) (flip (a, b)) new))
      as (H1 & H2 & H3).
    { by apply group_inv_dset. }
    { by apply NoDup_dkeys_dset, NoDup_dkeys_dset. }
    split_and!; [done..|]. intros e He. by apply H3, group_mono_dset, group_mono_dset.
  - by apply IH.
Qed.

Lemma group_pair_match P (eg0 eg : dict edge nat) (mx : nat) u v w x :
  group_inv P eg → NoDup (dkeys eg) →
  (∀ e, is_Some (dget eg0 e) → is_Some (dget eg e)) →
  P u → P v → P w → P x →
  ∀ st, st = match dget eg (u, v), dget eg (w, x) with
             | Some new_group, Some old_group =>
                 (relabel_group old_group new_group eg, mx)
             | None, Some group =>
                 (dset (dset eg (u, v) group) (v, u) group, mx)
             | Some group, None =>
                 (dset (dset eg (w, x) group) (x, w) group, mx)
             | None, None =>
                 let g := S mx in
                 (dset (dset (dset (dset eg (u, v) g) (v, u) g) (w, x) g) (x, w) g, g)
             end →
  group_inv P st.1 ∧ NoDup (dkeys st.1) ∧
  (∀ e, is_Some (dget eg0 e) → is_Some (dget st.1 e)) ∧
  is_Some (dget st.1 (u, v)) ∧ is_Some (dget st.1 (w, x)).
Proof.
  intros Heg Hnd Hmono Hu Hv Hw Hx st ->.
  destruct (dget eg (u, v)) as [g1|] eqn:H1, (dget eg (w, x)) as [g2|] eqn:H2;
    simpl.
  - destruct (relabel_group_spec P g2 g1 eg Heg Hnd) as (Ha & Hb & Hc).
    split_and!; [done..|by eauto| |]; apply Hc; by rewrite ?H1, ?H2.
  - split_and!.
    + by apply group_inv_dset.
    + by apply NoDup_dkeys_dset, NoDup_dkeys_dset.
    + intros e He. by apply group_mono_dset, group_mono_dset, Hmono.
    + apply group_mono_dset, group_mono_dset. by rewrite H1.
    + apply group_mono_dset. rewrite dget_dset, decide_True by done. eauto.
  - split_and!.
    + by apply group_inv_dset.
    + by apply NoDup_dkeys_dset, NoDup_dkeys_dset.
    + intros e He. by apply group_mono_dset, group_mono_dset, Hmono.
    + apply group_mono_dset. rewrite dget_dset, decide_True by done. eauto.
    + apply group_mono_dset, group_mono_dset. by rewrite H2.
  - split_and!.
    + apply group_inv_dset; [apply group_inv_dset|..]; done.
    + by do 4 apply NoDup_dkeys_dset.
    + intros e He. by do 4 apply group_mono_dset; apply Hmono.
    + do 3 apply group_mono_dset. rewrite dget_dset, decide_True by done. eauto.
    + apply group_mono_dset. rewrite dget_dset, decide_True by done. eauto.
Qed.

Lemma group_pair_spec P eg mx u v w x :
  group_inv P eg → NoDup (dkeys eg) → P u → P v → P w → P x →
  group_inv P (group_pair (eg, mx) ((u, v), (w, x))).1 ∧
  NoDup (dkeys (group_pair (eg, mx) ((u, v), (w, x))).1) ∧
  (∀ e, is_Some (dget eg e) →
        is_Some (dget (group_pair (eg, mx) ((u, v), (w, x))).1 e)) ∧
  is_Some (dget (group_pair (eg, mx) ((u, v), (w, x))).1 (u, v)) ∧
  is_Some (dget (group_pair (eg, mx) ((u, v), (w, x))).1 (w, x)).
Proof.
  intros Heg Hnd Hu Hv Hw Hx. unfold group_pair.
  destruct (decide (u = v)) as [Huv|Huv];
    [destruct (dmem eg (w, x))
    |destruct (decide (w = x)) as [Hwx|Hwx]; [destruct (dmem eg (u, v))|]].
  - by eapply (group_pair_match P eg eg mx).
  - eapply (group_pair_match P eg
              (dset (dset eg (w, x) (S mx)) (x, w) (S mx)) (S mx)); try done.
    + by apply group_inv_dset.
    + by apply NoDup_dkeys_dset, NoDup_dkeys_dset.
    + intros e He. by apply group_mono_dset, group_mono_dset.
  - by eapply (group_pair_match P eg eg mx).
  - eapply (group_pair_match P eg
              (dset (dset eg (u, v) (S mx)) (v, u) (S mx)) (S mx)); try done.
    + by apply group_inv_dset.
    + by apply NoDup_dkeys_dset, NoDup_dkeys_dset.
    + intros e He. by apply group_mono_dset, group_mono_dset.
  - by eapply (group_pair_match P eg eg mx).
Qed.

Lemma dual_edge_groups_fold P (fs : dict nat (list nat)) eg mx :
  (∀ kf, kf ∈ fs → length kf.2 = 4 ∧ ∀ x, x ∈ kf.2 → P x) →
  group_inv P eg → NoDup (dkeys eg) →
  ∃ eg' mx',
    foldl (λ st kf,
      st ← st;
      match kf.2 with
      | [a; b; c; d] =>
          Some (foldl group_pair st [((a, b), (c, d)); ((b, c), (d, a))])
      | _ => None
      end) (Some (eg, mx)) fs = Some (eg', mx') ∧
    group_inv P eg' ∧ NoDup (dkeys eg') ∧
    (∀ e, is_Some (dget eg e) → is_Some (dget eg' e)) ∧
    (∀ kf p, kf ∈ fs → p ∈ cycle_keys kf.2 → is_Some (dget eg' p)).
Proof.
  revert eg mx. induction fs as [|[f cyc] fs IH]; intros eg mx Hfs Heg Hnd.
  { exists eg, mx. split_and!; [done..|]. intros ?? []%elem_of_nil. }
  destruct (Hfs (f, cyc)) as [Hlen HP]; [by left|]. simpl in Hlen, HP.
  destruct cyc as [|a [|b [|c [|d [|]]]]]; try done. clear Hlen.
  cbn [foldl mbind option_bind snd].
  assert (P a ∧ P b ∧ P c ∧ P d) as (Ha & Hb & Hc & Hd).
  { split_and!; apply HP; set_solver. }
  pose proof (group_pair_spec P eg mx a b c d Heg Hnd Ha Hb Hc Hd)
    as (Hi1 & Hn1 & Hm1 & Hab & Hcd).
  destruct (group_pair (eg, mx) (a, b, (c, d))) as [eg1 mx1]. cbn [fst] in *.
  pose proof (group_pair_spec P eg1 mx1 b c d a Hi1 Hn1 Hb Hc Hd Ha)
    as (Hi2 & Hn2 & Hm2 & Hbc & Hda).
  destruct (group_pair (eg1, mx1) (b, c, (d, a))) as [eg2 mx2]. cbn [fst] in *.
  destruct (IH eg2 mx2) as (eg' & mx' & Hfold & Hi' & Hn' & Hm' & Hcov);
    [|done..|].
  { intros kf Hkf. apply Hfs. by right. }
  exists eg', mx'. split_and!; [done..|by eauto|].
  intros kf p [->|Hkf]%elem_of_cons Hp; [|by eauto].
  apply Hm'. unfold cycle_keys, pairwise in Hp. simpl in Hp.
  set_solver.
Qed.

Lemma is_quadmesh_true m :
  is_quadmesh m = true ↔ ∀ kf, kf ∈ face m → length kf.2 = 4.
Proof.
  unfold is_quadmesh. rewrite List.forallb_forall. split; intros H kf Hkf.
  - apply list_elem_of_In, H in Hkf. by apply bool_decide_eq_true in Hkf.
  - apply bool_decide_eq_true, H. by apply list_elem_of_In.
Qed.

Lemma dual_edge_groups_spec m :
  is_quadmesh m = true →
  ∃ eg mx, dual_edge_groups m = Some (Some (eg, mx)) ∧
    group_inv (λ x, ∃ kf, kf ∈ face m ∧ x ∈ kf.2) eg ∧ NoDup (dkeys eg) ∧
    (∀ kf p, kf ∈ face m → p ∈ cycle_keys kf.2 → is_Some (dget eg p)).
Proof.
  intros Hq. unfold dual_edge_groups. rewrite Hq. cbn [negb].
  destruct (dual_edge_groups_fold (λ x, ∃ kf, kf ∈ face m ∧ x ∈ kf.2)
              (face m) [] 0) as (eg & mx & Hfold & Hi & Hn & _ & Hcov).
  - intros kf Hkf. split; [by eapply is_quadmesh_true|]. eauto.
  - split; [done|]. intros a b [? [=]].
  - apply NoDup_nil_2.
  - exists eg, mx. rewrite Hfold. done.
Qed.

(** *** The group of the collapsed edge *)

Lemma edges_to_collapse_elem_of m u v eg mx g e :
  dual_edge_groups m = Some (Some (eg, mx)) → NoDup (dkeys eg) →
  dget eg (u, v) = Some g →
  e ∈ edges_to_collapse m u v ↔ dget eg e = Some g.
Proof.
  intros Hd Hn Hg. unfold edges_to_collapse. rewrite Hd, Hg.
  rewrite list_elem_of_fmap. split.
  - intros ([e' g'] & -> & [Hg' Hin]%list_elem_of_filter). simpl in *. subst.
    by apply elem_of_dget.
  - intros He. exists (e, g). split; [done|].
    apply list_elem_of_filter. split; [done|]. by apply dget_Some_elem_of.
Qed.

(** *** The first loop: the faces of the strip are deleted *)

Lemma filter_ext_in {A} (P Q : A → Prop) `{!∀ x, Decision (P x)}
    `{!∀ x, Decision (Q x)} (l : list A) :
  (∀ x, x ∈ l → P x ↔ Q x) → filter P l = filter Q l.
Proof.
  induction l as [|a l IH]; intros HPQ; [done|].
  rewrite !filter_cons. rewrite IH by (intros x Hx; apply HPQ; by right).
  destruct (decide (P a)) as [Ha|Ha], (decide (Q a)) as [Hb|Hb]; try done.
  - apply HPQ in Ha; [done|by left].
  - apply HPQ in Hb; [done|by left].
Qed.

Lemma filter_all {A} (P : A → Prop) `{!∀ x, Decision (P x)} (l : list A) :
  (∀ x, x ∈ l → P x) → filter P l = l.
Proof.
  induction l as [|a l IH]; intros HP; [done|].
  rewrite filter_cons_True by (apply HP; by left).
  f_equal. apply IH. intros x Hx. apply HP. by right.
Qed.

Lemma ddel_filter {V} (d : dict nat V) k :
  NoDup (dkeys d) → ddel d k = filter (λ kv, kv.1 ≠ k) d.
Proof.
  unfold dkeys. induction d as [|[k0 v0] d IH]; simpl; intros Hd; [done|].
  apply NoDup_cons in Hd as [Hk0 Hd]. simpl in Hk0.
  rewrite filter_cons. simpl. destruct (decide (k = k0)) as [->|Hne].
  - rewrite decide_False by (intros ?; done).
    symmetry. apply filter_all. intros [k v] Hkv Heq. simpl in Heq. subst.
    apply Hk0, list_elem_of_fmap. by exists (k0, v).
  - rewrite decide_True by done. f_equal. by apply IH.
Qed.

Lemma side_in_false es cyc :
  side_in es cyc = false ↔ ∀ p, p ∈ cycle_keys cyc → p ∉ es.
Proof.
  unfold side_in. rewrite <- not_true_iff_false, List.existsb_exists. split.
  - intros Hn p Hp Hin. apply Hn. exists p. split; [by apply list_elem_of_In|].
    by apply bool_decide_eq_true.
  - intros Hn (p & Hp%list_elem_of_In & Hin%bool_decide_eq_true). by eapply Hn.
Qed.

Lemma strip_deleted_face_keys m0 es m :
  NoDup (dkeys (face m0)) → strip_deleted m0 es m → NoDup (dkeys (face m)).
Proof.
  intros Hn Hsd. rewrite (sd_face _ _ _ Hsd). unfold dkeys.
  by eapply sublist_NoDup, fmap_sublist, sublist_filter.
Qed.

Lemma strip_deleted_lookup m0 es m kf :
  NoDup (dkeys (face m0)) → strip_deleted m0 es m →
  kf ∈ face m0 → side_in es kf.2 = false → dget (face m) kf.1 = Some kf.2.
Proof.
  intros Hn Hsd Hkf Hs. apply elem_of_dget.
  - by eapply strip_deleted_face_keys.
  - rewrite (sd_face _ _ _ Hsd). apply list_elem_of_filter.
    by destruct kf.
Qed.

Lemma strip_deleted_skip m0 es m e :
  NoDup (dkeys (face m0)) → strip_deleted m0 es m →
  (∀ f, hget (halfedge m) e.1 e.2 ≠ Some (Some f)) →
  strip_deleted m0 (es ++ [e]) m.
Proof.
  intros Hn Hsd He. destruct Hsd as [Hface ? ? ? ? Hfh Hhf].
  split; try done. rewrite Hface. apply filter_ext_in. intros kf Hkf.
  rewrite !side_in_false. split; intros Hs p Hp.
  - rewrite not_elem_of_app, list_elem_of_singleton. split; [by apply Hs|].
    intros ->. apply (He kf.1). apply (Hfh kf.1 kf.2); [|done].
    eapply (strip_deleted_lookup m0 es); [done| |done|by apply side_in_false].
    by split.
  - specialize (Hs p Hp). rewrite not_elem_of_app in Hs. tauto.
Qed.

Lemma strip_deleted_delete m0 es m e f :
  NoDup (dkeys (face m0)) →
  (∀ f cyc x, dget (face m0) f = Some cyc → x ∈ cyc →
              is_Some (dget (halfedge m0) x)) →
  strip_deleted m0 es m → hget (halfedge m) e.1 e.2 = Some (Some f) →
  ∃ m', delete_face m f = Some m' ∧ strip_deleted m0 (es ++ [e]) m'.
Proof.
  intros Hn Hrows0 Hsd He.
  pose proof (strip_deleted_face_keys m0 es m Hn Hsd) as Hnm.
  destruct Hsd as [Hface Hv Hk Hnd Hrows Hfh Hhf].
  destruct (Hhf _ _ _ He) as (cyc & Hf & Hin).
  assert ((f, cyc) ∈ face m0) as Hf0.
  { apply dget_Some_elem_of in Hf. rewrite Hface in Hf.
    by apply list_elem_of_filter in Hf as [_ ?]. }
  destruct (delete_face_spec m f cyc Hnd Hf)
    as (m' & Hdel & Hface' & Hv' & Hk' & Hnd' & Hrows' & Hget').
  { intros x Hx. apply Hrows. eapply Hrows0; [|done]. by apply elem_of_dget. }
  exists m'. split; [done|].
  assert (∀ g c, dget (face m') g = Some c ↔ dget (face m) g = Some c ∧ g ≠ f)
    as Hlook.
  { intros g c. rewrite Hface', dget_ddel by done. case_decide; naive_solver. }
  split.
  - rewrite Hface', ddel_filter, Hface, list_filter_filter by done.
    apply filter_ext_in. intros kf Hkf. rewrite !side_in_false. split.
    + intros [Hne Hs] p Hp.
      rewrite not_elem_of_app, list_elem_of_singleton. split; [by apply Hs|].
      intros ->. apply Hne.
      assert (dget (face m) kf.1 = Some kf.2) as Hkf'.
      { apply elem_of_dget; [done|]. rewrite Hface.
        apply list_elem_of_filter. split; [by apply side_in_false|].
        by destruct kf. }
      pose proof (Hfh _ _ _ Hkf' Hp) as He'. congruence.
    + intros Hs. split.
      * intros Heq.
        assert (kf.2 = cyc) as Hcyc.
        { destruct kf as [k c]. simpl in *. subst k.
          apply (elem_of_dget _ _ _ Hn) in Hf0, Hkf. congruence. }
        apply (Hs e); [by rewrite Hcyc; destruct e|].
        apply elem_of_app. right. by left.
      * intros p Hp. specialize (Hs p Hp). rewrite not_elem_of_app in Hs. tauto.
  - congruence.
  - congruence.
  - done.
  - eauto.
  - intros g c [a b] [Hg Hne]%Hlook Hp. apply Hget'.
    split; [by apply (Hfh g c (a, b))|].
    intros Hp'. apply Hne.
    pose proof (Hfh _ _ _ Hg Hp) as H1. pose proof (Hfh _ _ _ Hf Hp') as H2.
    simpl in *. congruence.
  - intros a b g [Hg Hnin]%Hget'. destruct (Hhf _ _ _ Hg) as (c & Hc & Hab).
    exists c. split; [|done]. apply Hlook. split; [done|].
    intros ->. congruence.
Qed.

Lemma delete_strip_face_step m0 es m e :
  NoDup (dkeys (face m0)) →
  (∀ f cyc x, dget (face m0) f = Some cyc → x ∈ cyc →
              is_Some (dget (halfedge m0) x)) →
  strip_deleted m0 es m → is_Some (dget (halfedge m0) e.1) →
  ∃ m', delete_strip_face (Some m) e = Some m' ∧
        strip_deleted m0 (es ++ [e]) m'.
Proof.
  intros Hn Hrows0 Hsd Hrow.
  destruct (sd_rows _ _ _ Hsd _ Hrow) as [d Hd].
  unfold delete_strip_face, halfedge_mem, halfedge_get. simpl. rewrite Hd. simpl.
  assert (hget (halfedge m) e.1 e.2 = dget d e.2) as Hget.
  { unfold hget. by rewrite Hd. }
  unfold dmem. destruct (dget d e.2) as [[f|]|] eqn:Hf; simpl.
  - by apply strip_deleted_delete.
  - exists m. split; [done|]. apply strip_deleted_skip; [done..|].
    intros f. by rewrite Hget.
  - exists m. split; [done|]. apply strip_deleted_skip; [done..|].
    intros f. by rewrite Hget.
Qed.

Lemma delete_strip_faces_spec m0 es done m :
  NoDup (dkeys (face m0)) →
  (∀ f cyc x, dget (face m0) f = Some cyc → x ∈ cyc →
              is_Some (dget (halfedge m0) x)) →
  strip_deleted m0 done m →
  (∀ e, e ∈ es → is_Some (dget (halfedge m0) e.1)) →
  ∃ m', foldl delete_strip_face (Some m) es = Some m' ∧
        strip_deleted m0 (done ++ es) m'.
Proof.
  intros Hn Hrows0. revert done m.
  induction es as [|e es IH]; intros done m Hsd Hes.
  { exists m. by rewrite app_nil_r. }
  destruct (delete_strip_face_step m0 done m e Hn Hrows0 Hsd)
    as (m1 & Hstep & Hsd1); [apply Hes; by left|].
  destruct (IH (done ++ [e]) m1 Hsd1) as (m' & Hfold & Hsd').
  { intros e' He'. apply Hes. by right. }
  exists m'. split.
  - change (foldl delete_strip_face (Some m) (e :: es))
      with (foldl delete_strip_face (delete_strip_face (Some m) e) es).
    by rewrite Hstep.
  - by rewrite <- app_assoc in Hsd'.
Qed.

(** *** The second loop: the faces around a collapsed edge are relinked *)

Lemma strip_deleted_collapse_inv m0 es m :
  wf_mesh m0 → kernel_mesh m0 → strip_deleted m0 es m →
  collapse_inv m ∧ once_below (max_int_key m0) m.
Proof.
  intros Hwf Hk Hsd.
  pose proof (strip_deleted_face_keys m0 es m (km_face_keys _ Hk) Hsd) as Hn.
  assert (∀ f cyc, dget (face m) f = Some cyc → dget (face m0) f = Some cyc)
    as Hsub.
  { intros f cyc Hf%dget_Some_elem_of. rewrite (sd_face _ _ _ Hsd) in Hf.
    apply list_elem_of_filter in Hf as [_ Hf].
    apply elem_of_dget; [apply Hk|done]. }
  split; [split|].
  - done.
  - intros f cyc Hf%Hsub. by apply (wf_face_quad _ Hwf f).
  - intros f cyc x Hf%Hsub Hx. rewrite (sd_vertex _ _ _ Hsd).
    by eapply km_face_vertices.
  - intros x Hx. rewrite (sd_vertex _ _ _ Hsd) in Hx.
    by apply (sd_rows _ _ _ Hsd), km_rows.
  - apply Hsd.
  - apply Hsd.
  - intros x Hx. rewrite (sd_vertex _ _ _ Hsd) in Hx.
    rewrite (sd_max_key _ _ _ Hsd). by apply km_max_key.
  - intros f cyc i j x Hf%Hsub Hi Hj _.
    apply (wf_face_quad _ Hwf f) in Hf as [_ Hnd].
    by eapply NoDup_lookup.
Qed.

Lemma relink_face_spec K m vkey w f cyc :
  collapse_inv m → once_below K m →
  dget (face m) f = Some cyc → vkey ∈ cyc →
  w ∈ dkeys (vertex m) → (K < Z.of_nat w)%Z →
  ∃ m', relink_face vkey w (Some m) f = Some m' ∧
    collapse_inv m' ∧ once_below K m' ∧
    vertex m' = vertex m ∧ max_int_key m' = max_int_key m ∧
    length (face m') = length (face m) ∧
    (∀ g, g ≠ f → dget (face m') g = dget (face m) g).
Proof.
  intros Hinv Honce Hf Hv Hw HK.
  destruct Hinv as [Hn Hlen Hfv Hrows Hnd Hhf Hmax].
  destruct (index_Some vkey cyc Hv) as (idx & Hidx & Hlook & Hlt).
  destruct (delete_face_spec m f cyc Hnd Hf)
    as (m1 & Hdel & Hface1 & Hvert1 & Hmax1 & Hnd1 & Hrows1 & Hget1).
  { intros x Hx. eauto. }
  assert (∀ x, x ∈ <[idx:=w]> cyc → x ∈ dkeys (vertex m)) as Hfv'.
  { intros x (j & Hj)%list_elem_of_lookup.
    apply list_lookup_insert_Some in Hj as [(_ & <- & _)|[_ Hj]]; [done|].
    eapply Hfv; [done|]. by eapply list_elem_of_lookup_2. }
  destruct (add_face_spec m1 (<[idx:=w]> cyc) f)
    as (m' & Hadd & Hface' & Hvert' & Hmax' & Hhe').
  { rewrite length_insert, (Hlen f cyc Hf). lia. }
  { by rewrite Hvert1. }
  destruct (add_fold_spec f (cycle_keys (<[idx:=w]> cyc)) (halfedge m1) Hnd1)
    as (Hnd' & Hrows' & Hget'). rewrite <- Hhe' in Hnd', Hrows', Hget'.
  assert (∀ g, dget (face m') g =
               if decide (g = f) then Some (<[idx:=w]> cyc) else dget (face m) g)
    as Hlookup.
  { intros g. rewrite Hface', Hface1. by apply dget_replace. }
  exists m'. split.
  { unfold relink_face, face_vertices, substitute_first. simpl.
    rewrite Hf. simpl. rewrite Hidx. simpl. rewrite Hdel. simpl.
    by rewrite Hadd. }
  split; [split|split_and!].
  - rewrite Hface', Hface1. by apply NoDup_dkeys_dset, NoDup_dkeys_ddel.
  - intros g c. rewrite Hlookup. case_decide.
    + intros [= <-]. rewrite length_insert. eauto.
    + eauto.
  - intros g c x. rewrite Hlookup, Hvert', Hvert1. case_decide.
    + intros [= <-]. eauto.
    + eauto.
  - intros x Hx. rewrite Hvert', Hvert1 in Hx. eauto.
  - done.
  - intros a b g [[-> Hin]|Hg]%Hget'.
    + exists (<[idx:=w]> cyc). split; [|done].
      rewrite Hlookup. by rewrite decide_True.
    + apply Hget1 in Hg as [Hg Hnin]. destruct (Hhf _ _ _ Hg) as (c & Hc & Hab).
      exists c. split; [|done]. rewrite Hlookup. rewrite decide_False; [done|].
      intros ->. congruence.
  - intros x Hx. rewrite Hvert', Hvert1 in Hx. rewrite Hmax', Hmax1. eauto.
  - intros g c i j x. rewrite Hlookup. case_decide.
    + intros [= <-] Hi Hj Hx.
      apply list_lookup_insert_Some in Hi as [(_ & <- & _)|[_ Hi]]; [lia|].
      apply list_lookup_insert_Some in Hj as [(_ & <- & _)|[_ Hj]]; [lia|].
      by eapply Honce.
    + apply Honce.
  - congruence.
  - congruence.
  - rewrite Hface', Hface1. apply length_replace; [done|].
    apply dkeys_elem_of. eauto.
  - intros g Hg. rewrite Hlookup. by rewrite decide_False.
Qed.

Lemma relink_faces_spec K vkey w fs m :
  collapse_inv m → once_below K m → NoDup fs →
  (∀ f, f ∈ fs → ∃ cyc, dget (face m) f = Some cyc ∧ vkey ∈ cyc) →
  w ∈ dkeys (vertex m) → (K < Z.of_nat w)%Z →
  ∃ m', foldl (relink_face vkey w) (Some m) fs = Some m' ∧
    collapse_inv m' ∧ once_below K m' ∧
    vertex m' = vertex m ∧ max_int_key m' = max_int_key m ∧
    length (face m') = length (face m).
Proof.
  revert m. induction fs as [|f fs IH]; intros m Hinv Honce Hnd Hfs Hw HK.
  { by exists m. }
  apply NoDup_cons in Hnd as [Hf Hnd].
  destruct (Hfs f) as (cyc & Hcyc & Hv); [by left|].
  destruct (relink_face_spec K m vkey w f cyc Hinv Honce Hcyc Hv Hw HK)
    as (m1 & Hstep & Hinv1 & Honce1 & Hvert1 & Hmax1 & Hlen1 & Hother).
  destruct (IH m1 Hinv1 Honce1 Hnd) as (m' & Hfold & ? & ? & ? & ? & ?).
  { intros g Hg. rewrite Hother by (intros ->; done). apply Hfs. by right. }
  { by rewrite Hvert1. }
  { done. }
  exists m'. split_and!; try done; try congruence.
  change (foldl (relink_face vkey w) (Some m) (f :: fs))
    with (foldl (relink_face vkey w) (relink_face vkey w (Some m) f) fs).
  by rewrite Hstep.
Qed.

Lemma cycle_keys_lookup {A} (l : list A) a x :
  (a, x) ∈ cycle_keys l →
  ∃ i, l !! i = Some a ∧ (l ++ take 1 l) !! S i = Some x.
Proof.
  unfold cycle_keys, pairwise. intros (i & Hi)%list_elem_of_lookup.
  apply lookup_zip_Some in Hi as [Ha Hx]. rewrite lookup_tail in Hx.
  exists i. split; [|done].
  rewrite lookup_app_l in Ha; [done|].
  apply lookup_lt_Some in Hx. rewrite length_app, length_take in Hx. lia.
Qed.

Lemma NoDup_row_faces (d : dict nat (option nat)) :
  NoDup (dkeys d) →
  (∀ x y f, dget d x = Some (Some f) → dget d y = Some (Some f) → x = y) →
  NoDup (omap (λ kv : nat * option nat, kv.2) d).
Proof.
  unfold dkeys. induction d as [|[x o] d IH]; intros Hnd Hinj; simpl.
  { constructor. }
  apply NoDup_cons in Hnd as [Hx Hnd]. simpl in Hx.
  assert (∀ y v, dget d y = Some v → dget ((x, o) :: d) y = Some v) as Hd.
  { intros y v Hy. simpl. rewrite decide_False; [done|]. intros ->.
    apply Hx, dkeys_elem_of. eauto. }
  assert (NoDup (omap (λ kv : nat * option nat, kv.2) d)) as IH'.
  { apply IH; [done|]. intros y z f Hy%Hd Hz%Hd. by eapply Hinj. }
  destruct o as [f|]; simpl; [|done].
  apply NoDup_cons. split; [|done].
  intros ([y o] & Hy & Hf)%list_elem_of_omap. simpl in Hf. subst o.
  assert (x = y) as ->.
  { apply (Hinj x y f); [simpl; by rewrite decide_True|].
    by apply Hd, elem_of_dget. }
  apply Hx, list_elem_of_fmap. by exists (y, Some f).
Qed.

Lemma vertex_faces_spec K m vkey :
  collapse_inv m → once_below K m → (Z.of_nat vkey ≤ K)%Z →
  vkey ∈ dkeys (vertex m) →
  ∃ fs, vertex_faces m vkey = Some fs ∧ NoDup fs ∧
    ∀ f, f ∈ fs → ∃ cyc, dget (face m) f = Some cyc ∧ vkey ∈ cyc.
Proof.
  intros Hinv Honce HK Hv.
  destruct (ci_rows _ Hinv _ Hv) as [d Hd].
  assert (∀ x f, dget d x = Some (Some f) →
                 ∃ cyc, dget (face m) f = Some cyc ∧ (vkey, x) ∈ cycle_keys cyc)
    as Hrow.
  { intros x f Hx. apply (ci_he_face _ Hinv). unfold hget. by rewrite Hd. }
  exists (omap (λ kv : nat * option nat, kv.2) d). split_and!.
  - unfold vertex_faces. by rewrite Hd.
  - apply NoDup_row_faces; [by eapply ci_rows_nodup|].
    intros x y f (c & Hc & Hx)%Hrow (c' & Hc' & Hy)%Hrow.
    assert (c' = c) as -> by congruence.
    apply cycle_keys_lookup in Hx as (i & Hi & Hx).
    apply cycle_keys_lookup in Hy as (j & Hj & Hy).
    assert (i = j) as -> by by eapply Honce.
    congruence.
  - intros f ([x o] & Hin & Hf)%list_elem_of_omap. simpl in Hf. subst o.
    apply elem_of_dget in Hin; [|by eapply ci_rows_nodup].
    destruct (Hrow _ _ Hin) as (c & Hc & Hx). exists c. split; [done|].
    by apply cycle_keys_elem_of in Hx as [? _].
Qed.

Lemma add_vertex_spec K m p :
  collapse_inv m → once_below K m → (0 ≤ K ≤ max_int_key m)%Z →
  ∃ w m', add_vertex m None p = (w, m') ∧ collapse_inv m' ∧ once_below K m' ∧
    (K ≤ max_int_key m')%Z ∧ (K < Z.of_nat w)%Z ∧ w ∈ dkeys (vertex m') ∧
    face m' = face m ∧ (∀ x, x ∈ dkeys (vertex m) → x ∈ dkeys (vertex m')).
Proof.
  intros Hinv Honce HK. destruct Hinv as [Hn Hlen Hfv Hrows Hnd Hhf Hmax].
  remember (Z.to_nat (max_int_key m + 1)) as w eqn:Hw_def.
  assert (w ∉ dkeys (vertex m)) as Hw.
  { intros Hw%Hmax. lia. }
  assert (dmem (vertex m) w = false) as Hmem.
  { unfold dmem. by apply dget_None_keys in Hw as ->. }
  assert (∀ x, x ∈ dkeys (dset (vertex m) w p) ↔ x = w ∨ x ∈ dkeys (vertex m))
    as Hkeys.
  { intros x. rewrite !dkeys_elem_of, dget_dset. case_decide; naive_solver. }
  exists w, (mkMesh (dset (vertex m) w p) (dset (halfedge m) w []) (face m)
               (max_int_key m + 1) (max_int_fkey m) (strip m)).
  split; [unfold add_vertex; by rewrite <- Hw_def, Hmem|].
  split; [split; simpl|split_and!; simpl].
  - done.
  - done.
  - intros f cyc x Hf Hx. apply Hkeys. right. eauto.
  - intros x [->|Hx]%Hkeys; rewrite dget_dset; case_decide; eauto; done.
  - intros u d. rewrite dget_dset. case_decide.
    + intros [= <-]. apply NoDup_nil_2.
    + apply Hnd.
  - intros u v f Hf. apply Hhf. revert Hf. unfold hget. rewrite dget_dset.
    by case_decide.
  - intros x [->|Hx%Hmax]%Hkeys; lia.
  - done.
  - lia.
  - lia.
  - apply Hkeys. by left.
  - done.
  - intros x Hx. apply Hkeys. by right.
Qed.

Lemma merge_edge_vertices_spec K bv m e :
  collapse_inv m → once_below K m → (K ≤ max_int_key m)%Z →
  e.1 ∈ dkeys (vertex m) → e.2 ∈ dkeys (vertex m) →
  (Z.of_nat e.1 ≤ K)%Z → (Z.of_nat e.2 ≤ K)%Z →
  ∃ m', merge_edge_vertices bv (Some m) e = Some m' ∧
    collapse_inv m' ∧ once_below K m' ∧ (K ≤ max_int_key m')%Z ∧
    length (face m') = length (face m) ∧
    (∀ x, x ∈ dkeys (vertex m) → x ∈ dkeys (vertex m')).
Proof.
  intros Hinv Honce HK H1 H2 HK1 HK2.
  assert (∃ p,
    (if py_in e.1 bv && negb (py_in e.2 bv) then vertex_coordinates m e.2
     else if py_in e.2 bv && negb (py_in e.1 bv) then vertex_coordinates m e.1
     else edge_midpoint m e.1 e.2) = Some p) as [p Hp].
  { apply dkeys_elem_of in H1 as [p1 Hp1]. apply dkeys_elem_of in H2 as [p2 Hp2].
    unfold edge_midpoint, vertex_coordinates. rewrite Hp1, Hp2. simpl.
    repeat case_match; eauto. }
  destruct (add_vertex_spec K m p Hinv Honce)
    as (w & ma & Hadd & Hinva & Honcea & HKa & Hw & Hwa & Hfacea & Hverta);
    [lia|].
  destruct (vertex_faces_spec K ma e.1 Hinva Honcea HK1) as (fs1 & Hfs1 & Hnd1 & Hin1);
    [by apply Hverta|].
  destruct (relink_faces_spec K e.1 w fs1 ma Hinva Honcea Hnd1 Hin1 Hwa Hw)
    as (mb & Hfold1 & Hinvb & Honceb & Hvertb & Hmaxb & Hlenb).
  destruct (vertex_faces_spec K mb e.2 Hinvb Honceb HK2) as (fs2 & Hfs2 & Hnd2 & Hin2);
    [rewrite Hvertb; by apply Hverta|].
  destruct (relink_faces_spec K e.2 w fs2 mb Hinvb Honceb Hnd2 Hin2)
    as (mc & Hfold2 & Hinvc & Honcec & Hvertc & Hmaxc & Hlenc);
    [by rewrite Hvertb|done|].
  exists mc. split_and!; try done.
  - unfold merge_edge_vertices. cbn [mbind option_bind]. rewrite Hp.
    cbn [mbind option_bind]. rewrite Hadd. cbn [foldl mbind option_bind].
    rewrite Hfs1. cbn [mbind option_bind]. rewrite Hfold1.
    cbn [mbind option_bind]. rewrite Hfs2. cbn [mbind option_bind]. done.
  - lia.
  - rewrite Hlenc, Hlenb. by rewrite Hfacea.
  - intros x Hx. rewrite Hvertc, Hvertb. by apply Hverta.
Qed.

Lemma merge_edges_spec K bv es m :
  collapse_inv m → once_below K m → (K ≤ max_int_key m)%Z →
  (∀ e, e ∈ es → e.1 ∈ dkeys (vertex m) ∧ e.2 ∈ dkeys (vertex m) ∧
                 (Z.of_nat e.1 ≤ K)%Z ∧ (Z.of_nat e.2 ≤ K)%Z) →
  ∃ m', foldl (merge_edge_vertices bv) (Some m) es = Some m' ∧
    collapse_inv m' ∧ length (face m') = length (face m).
Proof.
  revert m. induction es as [|e es IH]; intros m Hinv Honce HK Hes.
  { by exists m. }
  destruct (Hes e) as (H1 & H2 & HK1 & HK2); [by left|].
  destruct (merge_edge_vertices_spec K bv m e Hinv Honce HK H1 H2 HK1 HK2)
    as (m1 & Hstep & Hinv1 & Honce1 & HKm1 & Hlen1 & Hvert1).
  destruct (IH m1 Hinv1 Honce1 HKm1) as (m' & Hfold & Hinv' & Hlen').
  { intros e' He'. destruct (Hes e') as (? & ? & ? & ?); [by right|].
    split_and!; eauto. }
  exists m'. split_and!; [|done|congruence].
  change (foldl (merge_edge_vertices bv) (Some m) (e :: es))
    with (foldl (merge_edge_vertices bv) (merge_edge_vertices bv (Some m) e) es).
  by rewrite Hstep.
Qed.

(** *** The collapse *)

Lemma kernel_meshb_sound m : kernel_meshb m = true → kernel_mesh m.
Proof.
  unfold kernel_meshb. rewrite !andb_true_iff, !List.forallb_forall.
  intros [[Hn Hf] Hv]. apply bool_decide_eq_true in Hn. split.
  - done.
  - intros f cyc x Hcyc%dget_Some_elem_of Hx.
    apply list_elem_of_In, Hf in Hcyc. rewrite List.forallb_forall in Hcyc.
    apply list_elem_of_In, Hcyc in Hx. by apply bool_decide_eq_true in Hx.
  - intros x Hx%list_elem_of_In%Hv. apply andb_true_iff in Hx as [Hx _].
    by apply dmem_true.
  - intros x Hx%list_elem_of_In%Hv. apply andb_true_iff in Hx as [_ Hx].
    by apply bool_decide_eq_true in Hx.
Qed.

Lemma touched_side_in es cyc :
  (∀ e, e ∈ es → flip e ∈ es) → touched es cyc = side_in es cyc.
Proof.
  intros Hflip. unfold touched, side_in.
  induction (cycle_keys cyc) as [|p l IH]; [done|]. simpl. rewrite IH.
  f_equal. unfold py_in.
  destruct (bool_decide (p ∈ es)) eqn:Hp; [done|]. simpl.
  apply bool_decide_eq_false. apply bool_decide_eq_false in Hp.
  intros Hin%Hflip. by destruct p.
Qed.

Lemma length_filter_complement {A} (P : A → Prop) `{!∀ x, Decision (P x)}
    (l : list A) :
  length (filter P l) + length (filter (λ x, ¬ P x) l) = length l.
Proof. by rewrite <- length_app, filter_app_complement. Qed.




(** ** List utilities *)

Section lists_facts.
Context {A : Type} `{EqDecision A}.
Implicit Types l : list A.

Lemma elem_of_insert_sorted x y (l : list Z) :
  y ∈ insert_sorted x l ↔ y = x ∨ y ∈ l.
Proof.
  induction l as [|z l IH]; simpl.
  - rewrite list_elem_of_singleton, elem_of_nil. tauto.
  - repeat case_decide; subst; rewrite ?elem_of_cons, ?IH; naive_solver.
Qed.

Lemma elem_of_sorted_set x (l : list Z) : x ∈ sorted_set l ↔ x ∈ l.
Proof.
  unfold sorted_set. induction l as [|z l IH]; simpl; [done|].
  rewrite elem_of_insert_sorted, elem_of_cons, IH. done.
Qed.

Lemma py_in_sorted_set x (l : list Z) : py_in x (sorted_set l) = py_in x l.
Proof.
  unfold py_in. apply bool_decide_ext, elem_of_sorted_set.
Qed.

Lemma segment_snoc l s i x :
  s ≤ i → l !! i = Some x → segment l s i = drop s (take i l) ++ [x].
Proof.
  intros Hs Hx. unfold segment.
  rewrite <- (take_drop i l) at 1. rewrite drop_app_le by (rewrite length_take; apply lookup_lt_Some in Hx; lia).
  rewrite take_app_ge by (rewrite length_drop, length_take; lia).
  rewrite length_drop, length_take.
  apply lookup_lt_Some in Hx as Hlt.
  replace (S i - s - (i `min` length l - s)) with 1 by lia.
  f_equal. rewrite (drop_S _ _ _ Hx). simpl. by rewrite take_0.
Qed.

(** The loop cuts after the positions that satisfy its test. *)
Lemma split_loop_segments l n indices rest processed s split_lists :
  processed ++ rest = l → s ≤ length processed →
  split_loop n indices (length processed) rest (drop s processed) split_lists
  = split_lists ++
    segments l s
      (filter (λ k, (py_in (Z.of_nat k) indices && negb (k =? 0))
                    || (k =? n - 1) = true)
         (seq (length processed) (length rest))).
Proof.
  revert processed s split_lists.
  induction rest as [|item rest IH]; intros processed s sl Hl Hs; simpl.
  { by rewrite app_nil_r. }
  assert (l !! length processed = Some item) as Hitem.
  { rewrite <- Hl. by rewrite list_lookup_middle. }
  assert ((processed ++ [item]) ++ rest = l) as Hl'.
  { by rewrite <- app_assoc. }
  assert (length (processed ++ [item]) = S (length processed)) as Hlen.
  { rewrite length_app. simpl. lia. }
  rewrite filter_cons.
  destruct ((py_in (Z.of_nat (length processed)) indices
             && negb (length processed =? 0))
            || (length processed =? n - 1)) eqn:Hcut.
  - rewrite decide_True by done. simpl.
    assert ([item] = drop (length processed) (processed ++ [item])) as Hcur.
    { rewrite drop_app_length'; done. }
    rewrite Hcur at 1. rewrite <- Hlen. rewrite (IH _ _ _ Hl') by (rewrite Hlen; lia).
    rewrite <- app_assoc. simpl. do 2 f_equal.
    rewrite (segment_snoc l s (length processed) item Hs Hitem).
    f_equal. rewrite <- Hl. by rewrite take_app_length.
  - rewrite decide_False by done.
    replace (drop s processed ++ [item]) with (drop s (processed ++ [item]))
      by (by rewrite drop_app_le).
    rewrite <- Hlen. apply (IH _ _ _ Hl'). rewrite Hlen. lia.
Qed.

Lemma elem_of_remove1_ne (x y : Z) (l : list Z) :
  x ≠ y → x ∈ remove1 y l ↔ x ∈ l.
Proof.
  intros Hne. induction l as [|z l IH]; simpl; [done|].
  case_decide; subst; rewrite !elem_of_cons, ?IH; naive_solver.
Qed.

Lemma elem_of_split_indices l indices (k : nat) :
  0 < k → k < length l - 1 →
  Z.of_nat k ∈ sorted_set (split_indices l indices) ↔ Z.of_nat k ∈ indices.
Proof.
  intros H0 Hk. rewrite elem_of_sorted_set. unfold split_indices.
  destruct (bool_decide (head l = last l)
            && py_in (Z.of_nat (length l) - 1)%Z indices); [|done].
  destruct (py_in 0%Z (remove1 (Z.of_nat (length l) - 1)%Z indices)).
  - apply elem_of_remove1_ne. lia.
  - rewrite elem_of_app, list_elem_of_singleton, elem_of_remove1_ne by lia.
    split; [intros [?|?]; [done|lia]|by left].
Qed.

Lemma cut_positions n (indices indices' : list Z) :
  0 < n →
  (∀ k, 0 < k → k < n - 1 → Z.of_nat k ∈ indices' ↔ Z.of_nat k ∈ indices) →
  filter (λ k, (py_in (Z.of_nat k) indices' && negb (k =? 0))
               || (k =? n - 1) = true) (seq 0 n)
  = split_positions n indices ++ [n - 1].
Proof.
  intros Hn Hin. destruct n as [|[|n]]; [lia| |].
  { unfold split_positions. simpl.
    rewrite filter_cons, decide_True; [done|]. by rewrite andb_false_r. }
  replace (S (S n)) with (1 + (n + 1)) at 1 by lia.
  rewrite seq_app, seq_app, !filter_app. simpl seq.
  rewrite filter_cons, decide_False, filter_nil
    by (simpl; rewrite andb_false_r; simpl; congruence).
  simpl app. f_equal.
  - unfold split_positions. replace (S (S n) - 2) with n by lia.
    apply filter_ext_in. intros k Hk%elem_of_seq.
    assert (∀ a b, a ≠ b → (a =? b) = false) as Hneq
      by (intros; by apply Nat.eqb_neq).
    rewrite !Hneq by lia.
    cbn [negb]. rewrite andb_true_r, orb_false_r. unfold py_in.
    rewrite bool_decide_eq_true. apply Hin; lia.
  - replace (1 + n) with (S (S n) - 1) by lia.
    rewrite filter_cons, decide_True, filter_nil; [done|].
    rewrite Nat.eqb_refl. by rewrite orb_true_r.
Qed.

Lemma split_loop_positions l indices :
  l ≠ [] →
  split_loop (length l) (sorted_set (split_indices l indices)) 0 l [] []
  = segments l 0 (split_positions (length l) indices ++ [length l - 1]).
Proof.
  intros Hl.
  pose proof (split_loop_segments l (length l)
                (sorted_set (split_indices l indices)) l [] 0 []) as H.
  simpl in H. rewrite H by done.
  rewrite (cut_positions (length l) indices); [done| |].
  - destruct l; [done|simpl; lia].
  - intros k ??. by apply elem_of_split_indices.
Qed.

Lemma segments_snoc l s es e :
  segments l s (es ++ [e])
  = segments l s es ++ [segment l (default s (last es)) e].
Proof.
  revert s. induction es as [|e' es IH]; intros s; [done|].
  cbn [app segments]. rewrite IH.
  assert (default e' (last es) = default s (last (e' :: es))) as ->; [|done].
  rewrite (last_cons e' es). by destruct (last es).
Qed.

Lemma list_split_segments l indices :
  l ≠ [] →
  head l ≠ last l ∨ 0%Z ∈ indices ∨ (Z.of_nat (length l) - 1)%Z ∈ indices →
  list_split l indices =
    Some (segments l 0 (split_positions (length l) indices ++ [length l - 1]),
          split_indices l indices).
Proof.
  intros Hne Hcase. unfold list_split. cbv zeta.
  rewrite (split_loop_positions l indices Hne).
  destruct (decide (head l = last l)) as [Hclosed|Hopen].
  - assert (py_in 0%Z (sorted_set (split_indices l indices)) = true) as H0.
    { rewrite py_in_sorted_set. unfold split_indices, py_in.
      rewrite (bool_decide_eq_true_2 _ Hclosed). cbn [andb].
      apply bool_decide_eq_true_2.
      destruct (bool_decide ((Z.of_nat (length l) - 1)%Z ∈ indices)) eqn:Hn.
      - destruct (bool_decide
                    (0%Z ∈ remove1 (Z.of_nat (length l) - 1)%Z indices)) eqn:H0.
        + by apply bool_decide_eq_true in H0.
        + apply elem_of_app. right. by left.
      - apply bool_decide_eq_false in Hn. by destruct Hcase as [?|[?|?]]. }
    rewrite H0. destruct (head l) as [first|] eqn:Hh; [|by destruct l].
    rewrite <- Hclosed. simpl. by rewrite andb_false_r.
  - destruct (head l) as [first|] eqn:Hh; [|by destruct l].
    destruct (last l) as [lst|] eqn:Hl; [|by apply last_None in Hl].
    simpl. rewrite bool_decide_eq_false_2 by congruence. done.
Qed.

(** X1. [list_split] without wrapping around, that is on an open list
    (first and last item differ) or on a closed one with [0] or [n - 1]
    among the indices: the result is the runs of the list between
    consecutive split positions, each run beginning with the item the one
    before ends with; the positions are the indices from 1 to [n - 2]
    among [indices], in increasing order and each once, and the last
    position [n - 1].  The list of indices of the caller is changed in
    place on a closed list that has [n - 1] among them, and only then. *)
Theorem list_split_no_wrap l indices :
  l ≠ [] →
  head l ≠ last l ∨ 0%Z ∈ indices ∨ (Z.of_nat (length l) - 1)%Z ∈ indices →
  list_split l indices =
    Some (segments l 0 (split_positions (length l) indices ++ [length l - 1]),
          split_indices l indices) ∧
  (head l ≠ last l ∨ (Z.of_nat (length l) - 1)%Z ∉ indices →
     split_indices l indices = indices) ∧
  (head l = last l → (Z.of_nat (length l) - 1)%Z ∈ indices →
     split_indices l indices =
       let removed := remove1 (Z.of_nat (length l) - 1)%Z indices in
       if decide (0%Z ∈ removed) then removed else removed ++ [0%Z]).
Proof.
  intros Hne Hcase. split; [by apply list_split_segments|]. split.
  - intros [Hopen|Hn]; unfold split_indices, py_in.
    + by rewrite (bool_decide_eq_false_2 _ Hopen).
    + rewrite (bool_decide_eq_false_2 _ Hn). by rewrite andb_false_r.
  - intros Hclosed Hn. unfold split_indices, py_in.
    rewrite (bool_decide_eq_true_2 _ Hclosed), (bool_decide_eq_true_2 _ Hn).
    simpl. by case_decide; [rewrite bool_decide_eq_true_2|rewrite bool_decide_eq_false_2].
Qed.

(** X2. On a closed list with neither [0] nor [n - 1] among the indices
    the split wraps around: the first run is taken off and its items
    after the first are put behind the last run, so that the runs start
    at the first split position; without any index from 1 to [n - 2] the
    call raises.  The list of the caller is left alone. *)
Theorem list_split_closed_wrap l indices :
  l ≠ [] → head l = last l →
  0%Z ∉ indices → (Z.of_nat (length l) - 1)%Z ∉ indices →
  list_split l indices =
    match split_positions (length l) indices with
    | [] => None
    | k :: more =>
        Some (segments l k more ++
              [segment l (default k (last more)) (length l - 1)
               ++ segment l 1 k], indices)
    end.
Proof.
  intros Hne Hclosed H0 Hn.
  assert (split_indices l indices = indices) as Hind.
  { unfold split_indices, py_in. rewrite (bool_decide_eq_false_2 _ Hn).
    by rewrite andb_false_r. }
  assert (py_in 0%Z (sorted_set indices) = false) as H0'.
  { rewrite py_in_sorted_set. by apply bool_decide_eq_false_2. }
  unfold list_split. cbv zeta.
  rewrite (split_loop_positions l indices Hne), Hind, H0'.
  destruct (head l) as [first|] eqn:Hh; [|by destruct l].
  rewrite <- Hclosed. simpl. rewrite bool_decide_eq_true_2 by done. simpl.
  destruct (split_positions (length l) indices) as [|k more]; simpl; [done|].
  rewrite segments_snoc, last_snoc. simpl.
  rewrite List.removelast_last. do 4 f_equal.
  unfold segment. rewrite drop_0, Nat.sub_0_r.
  replace (S k - 1) with k by lia.
  by rewrite (take_drop_commute l k 1).
Qed.

End lists_facts.

Lemma list_split_no_wrap_witness :
  list_split [10; 20; 30; 40; 50] [3; 1; 3; 7; -1]%Z =
    Some ([[10; 20]; [20; 30; 40]; [40; 50]], [3; 1; 3; 7; -1]%Z) ∧
  list_split [10; 20; 30; 40; 10] [4; 2]%Z =
    Some ([[10; 20; 30]; [30; 40; 10]], [2; 0]%Z).
Proof.
  split.
  - etrans.
    + apply (list_split_no_wrap [10; 20; 30; 40; 50] [3; 1; 3; 7; -1]%Z);
        [done|]. left. simpl. congruence.
    + by vm_compute.
  - etrans.
    + apply (list_split_no_wrap [10; 20; 30; 40; 10] [4; 2]%Z); [done|].
      right. right. simpl. set_solver.
    + by vm_compute.
Defined.

Lemma list_split_closed_wrap_witness :
  list_split [10; 20; 30; 40; 10] [3; 1]%Z =
    Some ([[20; 30; 40]; [40; 10; 20]], [3; 1]%Z) ∧
  list_split [10; 20; 30; 40; 10] [] = None.
Proof.
  split.
  - etrans.
    + apply (list_split_closed_wrap [10; 20; 30; 40; 10] [3; 1]%Z);
        [done|done|set_solver|simpl; set_solver].
    + by vm_compute.
  - etrans.
    + apply (list_split_closed_wrap [10; 20; 30; 40; 10] []);
        [done|done|set_solver|set_solver].
    + by vm_compute.
Defined.

(** *** Putting the runs together again *)

Section lists_glue.
Context {A : Type} `{EqDecision A}.
Implicit Types l : list A.

Lemma ascending_positions (P : nat → Prop) `{!∀ k, Decision (P k)}
    (s a len b : nat) :
  s < a → a + len ≤ b →
  ascending s (filter P (seq a len) ++ [b]) ∧
  Forall (λ e, e ≤ b) (filter P (seq a len) ++ [b]).
Proof.
  revert s a. induction len as [|len IH]; intros s a Hs Hb; simpl.
  { split; [split; [lia|done]|]. by repeat constructor. }
  rewrite filter_cons. case_decide.
  - destruct (IH a (S a)) as [H1 H2]; [lia..|]. simpl. split; [done|].
    constructor; [lia|done].
  - apply IH; lia.
Qed.

Lemma ascending_last s es : ascending s es → s ≤ default s (last es).
Proof.
  revert s. induction es as [|e es IH]; intros s; simpl; [done|].
  intros [Hs Has]. apply IH in Has. rewrite last_cons.
  destruct (last es); simpl in *; lia.
Qed.

Lemma tail_segment l s e :
  s ≤ e → tail (segment l s e) = take (e - s) (drop (S s) l).
Proof.
  intros Hs. unfold segment. replace (S e - s) with (1 + (e - s)) by lia.
  replace (S s) with (s + 1) by lia.
  rewrite <- (drop_drop l 1 s), (take_drop_commute (drop s l) (e - s) 1).
  by destruct (take (1 + (e - s)) (drop s l)).
Qed.

Lemma concat_tail_segments l s es :
  ascending s es →
  concat (tail <$> segments l s es)
  = take (default s (last es) - s) (drop (S s) l).
Proof.
  revert s. induction es as [|e es IH]; intros s.
  { intros _. simpl. by rewrite Nat.sub_diag. }
  cbn [ascending segments]. intros [Hs Has].
  rewrite fmap_cons. cbn [concat].
  rewrite (IH e Has), tail_segment by lia.
  pose proof (ascending_last e es Has) as Hlast.
  rewrite last_cons.
  assert (default s (match last es with Some y => Some y | None => Some e end)
          = default e (last es)) as -> by (by destruct (last es)).
  replace (drop (S e) l) with (drop (e - s) (drop (S s) l))
    by (rewrite drop_drop; f_equal; lia).
  rewrite take_take_drop. f_equal. lia.
Qed.

Lemma unsplit_segments l s e es :
  ascending s (e :: es) →
  unsplit (segments l s (e :: es))
  = segment l s (default e (last es)).
Proof.
  cbn [ascending]. intros [Hs Has]. unfold unsplit. cbn [segments].
  rewrite (concat_tail_segments l e es Has).
  pose proof (ascending_last e es Has) as Hlast.
  unfold segment.
  replace (drop (S e) l) with (drop (S e - s) (drop s l))
    by (rewrite drop_drop; f_equal; lia).
  rewrite take_take_drop. f_equal. lia.
Qed.

Lemma last_segment l s e x :
  s ≤ e → l !! e = Some x → last (segment l s e) = Some x.
Proof.
  intros Hs Hx. by rewrite (segment_snoc l s e x Hs Hx), last_snoc.
Qed.

Lemma head_segment l s e : s ≤ e → head (segment l s e) = l !! s.
Proof.
  intros Hs. unfold segment. rewrite head_lookup, lookup_take_lt by lia.
  rewrite lookup_drop. f_equal. lia.
Qed.

Lemma segments_joints l s es i p q :
  ascending s es → Forall (λ e, e < length l) es →
  segments l s es !! i = Some p → segments l s es !! S i = Some q →
  ∃ x, last p = Some x ∧ head q = Some x.
Proof.
  revert s i. induction es as [|e es IH]; intros s i; simpl; [done|].
  intros [Hs Has] [He Hes]%Forall_cons Hp Hq.
  destruct i as [|i]; [|by eapply (IH e i)].
  simpl in Hp, Hq. simplify_eq.
  destruct es as [|e' es]; [done|]. simpl in Hq, Has. simplify_eq.
  destruct (lookup_lt_is_Some_2 l e He) as [x Hx]. exists x.
  split; [apply last_segment; [lia|done]|].
  rewrite head_segment by lia. done.
Qed.

Lemma segments_sizes l s es :
  ascending s es → Forall (λ e, e < length l) es →
  Forall (λ p, 2 ≤ length p) (segments l s es).
Proof.
  revert s. induction es as [|e es IH]; intros s; simpl; [by constructor|].
  intros [Hs Has] [He Hes]%Forall_cons. constructor; [|by apply IH].
  unfold segment. rewrite length_take, length_drop. lia.
Qed.

(** X3. What [list_split] returns without wrapping around, on a list of
    two items or more, is a split of the list: every run has at least
    two items, each run begins with the item the run before ends with,
    and the runs put together again, the repeated items left out, are
    the list. *)
Theorem list_split_unsplit l indices :
  2 ≤ length l →
  head l ≠ last l ∨ 0%Z ∈ indices ∨ (Z.of_nat (length l) - 1)%Z ∈ indices →
  ∃ split_lists caller_indices,
    list_split l indices = Some (split_lists, caller_indices) ∧
    unsplit split_lists = l ∧
    Forall (λ p, 2 ≤ length p) split_lists ∧
    ∀ i p q, split_lists !! i = Some p → split_lists !! S i = Some q →
      ∃ x, last p = Some x ∧ head q = Some x.
Proof.
  intros Hlen Hcase.
  assert (l ≠ []) as Hne by (intros ->; simpl in Hlen; lia).
  eexists _, _. split; [by apply list_split_segments|].
  destruct (ascending_positions (λ k, Z.of_nat k ∈ indices) 0 1
              (length l - 2) (length l - 1)) as [Hasc Hle]; [lia..|].
  fold (split_positions (length l) indices) in Hasc, Hle.
  assert (Forall (λ e, e < length l)
            (split_positions (length l) indices ++ [length l - 1])) as Hlt.
  { eapply Forall_impl; [done|]. simpl. lia. }
  split_and!.
  - destruct (split_positions (length l) indices ++ [length l - 1])
      as [|e es] eqn:Hpos; [by destruct (split_positions _ _)|].
    rewrite unsplit_segments by done.
    assert (default e (last es) = length l - 1) as ->.
    { assert (last (e :: es) = Some (length l - 1)) as Hlast
        by (by rewrite <- Hpos, last_snoc).
      rewrite last_cons in Hlast. destruct (last es); by simplify_eq. }
    unfold segment. rewrite drop_0. apply take_ge. lia.
  - by apply segments_sizes.
  - intros i p q. by apply segments_joints.
Qed.
End lists_glue.

Lemma list_split_unsplit_witness :
  ∃ split_lists caller_indices,
    list_split [10; 20; 30; 40; 50] [3; 1]%Z
    = Some (split_lists, caller_indices) ∧
    unsplit split_lists = [10; 20; 30; 40; 50] ∧
    Forall (λ p, 2 ≤ length p) split_lists ∧
    ∀ i p q, split_lists !! i = Some p → split_lists !! S i = Some q →
      ∃ x, last p = Some x ∧ head q = Some x.
Proof.
  apply (list_split_unsplit [10; 20; 30; 40; 50] [3; 1]%Z); [simpl; lia|].
  left. simpl. congruence.
Defined.

(** *** Membership tests *)

Lemma are_items_in_list_iff {A} `{EqDecision A} (items l : list A) :
  are_items_in_list items l = true ↔ ∀ i, i ∈ items → i ∈ l.
Proof.
  induction items as [|x items IH]; simpl.
  - split; [|done]. by intros _ i ?%elem_of_nil.
  - unfold py_in. case_bool_decide as Hx.
    + rewrite IH. split.
      * intros H i [->|?]%elem_of_cons; auto.
      * intros H i Hi. apply H. by right.
    + split; [done|]. intros H. exfalso. apply Hx, H. by left.
Qed.

(** X4. [are_items_in_list] answers [True] exactly when every item is
    in the list, whatever their order and number; in particular for no
    items at all. *)
Theorem are_items_in_list_spec {A} `{EqDecision A} (items l : list A) :
  (are_items_in_list items l = true ↔ ∀ i, i ∈ items → i ∈ l) ∧
  (∀ items', items' ≡ₚ items →
     are_items_in_list items' l = are_items_in_list items l) ∧
  are_items_in_list [] l = true.
Proof.
  split; [apply are_items_in_list_iff|]. split; [|done].
  intros items' Hperm.
  destruct (are_items_in_list items l) eqn:E.
  - apply are_items_in_list_iff. intros i Hi. rewrite Hperm in Hi.
    by apply (are_items_in_list_iff items l).
  - apply not_true_is_false. intros E'.
    assert (are_items_in_list items l = true); [|congruence].
    apply are_items_in_list_iff. intros i Hi. rewrite <- Hperm in Hi.
    by apply (are_items_in_list_iff items' l).
Qed.

(** X5. [common_items(l1, l2)] keeps the items of [l1] that are in [l2],
    in their order and as often as [l1] has them; it gives [l1] back
    exactly when [are_items_in_list(l1, l2)] holds. *)
Theorem common_items_spec {A} `{EqDecision A} (l1 l2 : list A) :
  (∀ x, x ∈ common_items l1 l2 ↔ x ∈ l1 ∧ x ∈ l2) ∧
  common_items l1 l2 `sublist_of` l1 ∧
  are_items_in_list (common_items l1 l2) l2 = true ∧
  (common_items l1 l2 = l1 ↔ are_items_in_list l1 l2 = true).
Proof.
  assert (∀ x, x ∈ common_items l1 l2 ↔ x ∈ l1 ∧ x ∈ l2) as Hin.
  { intros x. unfold common_items, py_in.
    rewrite list_elem_of_filter, bool_decide_eq_true. tauto. }
  split_and!.
  - done.
  - apply sublist_filter.
  - apply are_items_in_list_iff. intros i Hi. by apply Hin in Hi as [_ ?].
  - rewrite are_items_in_list_iff. split.
    + intros Heq i Hi. rewrite <- Heq in Hi. by apply Hin in Hi as [_ ?].
    + intros Hall. apply filter_all. intros x Hx.
      by apply bool_decide_eq_true, Hall.
Qed.


(** ** Mesh modifications *)

(** *** Moving the vertices *)

Lemma dget_app_fresh {K V} `{EqDecision K} (pre d : dict K V) k :
  k ∉ dkeys pre → dget (pre ++ d) k = dget d k.
Proof.
  unfold dkeys. induction pre as [|[k0 v0] pre IH]; simpl; [done|].
  rewrite not_elem_of_cons. intros [Hne Hk]. by rewrite decide_False, IH.
Qed.

Lemma dset_app_fresh {K V} `{EqDecision K} (pre d : dict K V) k v :
  k ∉ dkeys pre → dset (pre ++ d) k v = pre ++ dset d k v.
Proof.
  unfold dkeys. induction pre as [|[k0 v0] pre IH]; simpl; [done|].
  rewrite not_elem_of_cons. intros [Hne Hk]. by rewrite decide_False, IH.
Qed.

Lemma mesh_move_fold (dx dy dz : Q) (rest : list Q) d pre m :
  vertex m = pre ++ d → NoDup (dkeys (pre ++ d)) →
  ∃ m', foldl (λ m vkey, m ← m;
                 snd <$> mesh_move_vertex m (dx :: dy :: dz :: rest) vkey)
              (Some m) (dkeys d) = Some m' ∧
    vertex m' = pre ++ ((λ kp : nat * xyz,
      (kp.1, (kp.2.1.1 + dx, kp.2.1.2 + dy, kp.2.2 + dz)%Q)) <$> d) ∧
    halfedge m' = halfedge m ∧ face m' = face m ∧ strip m' = strip m ∧
    max_int_key m' = max_int_key m ∧ max_int_fkey m' = max_int_fkey m.
Proof.
  revert pre m. induction d as [|[k p] d IH]; intros pre m Hv Hnd.
  { exists m. by rewrite Hv. }
  assert (k ∉ dkeys pre) as Hk.
  { unfold dkeys in *. rewrite fmap_app in Hnd. apply NoDup_app in Hnd as (_ & Hnd & _).
    intros Hin. apply (Hnd k Hin). by left. }
  cbn [dkeys fmap list_fmap foldl fst].
  set (m1 := {| vertex := pre ++ (k, (p.1.1 + dx, p.1.2 + dy, p.2 + dz)%Q) :: d;
                halfedge := halfedge m; face := face m;
                max_int_key := max_int_key m;
                max_int_fkey := max_int_fkey m; strip := strip m |}).
  assert (mesh_move_vertex m (dx :: dy :: dz :: rest) k
          = Some ((p.1.1 + dx, p.1.2 + dy, p.2 + dz)%Q, m1)) as Hstep.
  { unfold mesh_move_vertex, vertex_coordinates, m1. rewrite Hv.
    rewrite (dget_app_fresh pre _ k Hk). simpl.
    destruct (decide (k = k)); [|done]. simpl.
    rewrite (dset_app_fresh pre _ k _ Hk). simpl.
    destruct (decide (k = k)); [|done].
    rewrite (dget_app_fresh pre _ k Hk). simpl.
    by destruct (decide (k = k)). }
  cbn [mbind option_bind]. rewrite Hstep. cbn [fmap option_fmap option_map snd].
  destruct (IH (pre ++ [(k, (p.1.1 + dx, p.1.2 + dy, p.2 + dz)%Q)]) m1)
    as (m' & Hfold & Hv' & ? & ? & ? & ? & ?).
  - simpl. by rewrite <- app_assoc.
  - rewrite <- app_assoc. simpl. unfold dkeys in *.
    rewrite fmap_app in *. by rewrite fmap_cons in *.
  - exists m'. split; [exact Hfold|]. rewrite Hv', <- app_assoc. done.
Qed.

(** X6. [mesh_move] with a vector of three components or more adds the
    first three to the coordinates of every vertex, each vertex once,
    and touches nothing else: the vertex keys and their order, the
    faces, the half-edges and the strips stay as they are.  With fewer
    components it raises as soon as there is a vertex to move. *)
Theorem mesh_move_spec m vector :
  NoDup (vertices m) →
  (∀ dx dy dz rest, vector = dx :: dy :: dz :: rest →
     ∃ m', mesh_move m vector = Some m' ∧
       vertex m' = (λ kp : nat * xyz,
         (kp.1, (kp.2.1.1 + dx, kp.2.1.2 + dy, kp.2.2 + dz)%Q)) <$> vertex m ∧
       halfedge m' = halfedge m ∧ face m' = face m ∧ strip m' = strip m) ∧
  (length vector < 3 → vertices m ≠ [] → mesh_move m vector = None) ∧
  (vertices m = [] → mesh_move m vector = Some m).
Proof.
  intros Hnd. split_and!.
  - intros dx dy dz rest ->.
    destruct (mesh_move_fold dx dy dz rest (vertex m) [] m)
      as (m' & Hfold & Hv & Hh & Hf & Hs & _); [done..|].
    exists m'. unfold mesh_move, vertices. by rewrite Hfold.
  - intros Hlen Hne. unfold mesh_move, vertices, dkeys in *.
    destruct (vertex m) as [|[k p] d] eqn:Hv; [done|].
    cbn [fmap list_fmap foldl fst mbind option_bind].
    assert (mesh_move_vertex m vector k = None) as ->.
    { unfold mesh_move_vertex. rewrite Hv. simpl. rewrite decide_True by done.
      simpl. destruct vector as [|? [|? [|? ?]]]; simpl in *; try done. lia. }
    simpl. clear. induction (d.*1) as [|x l IH]; [done|]. done.
  - intros Hv. unfold mesh_move. by rewrite Hv.
Qed.

Lemma mesh_move_spec_witness :
  ∃ m', mesh_move two_quads [1; 2; 3]%Q = Some m' ∧
    vertex m' = (λ kp : nat * xyz,
      (kp.1, (kp.2.1.1 + 1, kp.2.1.2 + 2, kp.2.2 + 3)%Q)) <$> vertex two_quads ∧
    halfedge m' = halfedge two_quads ∧ face m' = face two_quads ∧
    strip m' = strip two_quads.
Proof.
  assert (NoDup (vertices two_quads)) as Hnd.
  { apply (bool_decide_eq_true_1 (NoDup (vertices two_quads))). by vm_compute. }
  by apply (proj1 (mesh_move_spec two_quads [1; 2; 3]%Q Hnd) 1%Q 2%Q 3%Q []).
Defined.

(** *** Substituting a vertex in faces *)

Lemma wf_collapse_inv m : wf_mesh m → kernel_mesh m → collapse_inv m.
Proof.
  intros Hwf Hk. split.
  - apply Hk.
  - intros f cyc Hf. by apply (wf_face_quad _ Hwf f).
  - apply Hk.
  - apply Hk.
  - apply (wf_nbrs_nodup _ Hwf).
  - apply (wf_he_face _ Hwf).
  - apply Hk.
Qed.

Lemma substitute_in_face_spec m old_vkey new_vkey f cyc :
  collapse_inv m → dget (face m) f = Some cyc →
  new_vkey ∈ dkeys (vertex m) →
  ∃ m', substitute_in_face old_vkey new_vkey (Some m) f = Some m' ∧
    collapse_inv m' ∧ vertex m' = vertex m ∧
    length (face m') = length (face m) ∧
    ∀ g, dget (face m') g =
      if decide (g = f)
      then Some ((λ key, if decide (key = old_vkey) then new_vkey else key)
                   <$> cyc)
      else dget (face m) g.
Proof.
  intros Hinv Hf Hnew.
  destruct Hinv as [Hn Hlen Hfv Hrows Hnd Hhf Hmax].
  set (cyc' := (λ key, if decide (key = old_vkey) then new_vkey else key)
                 <$> cyc).
  destruct (delete_face_spec m f cyc Hnd Hf)
    as (m1 & Hdel & Hface1 & Hvert1 & Hmax1 & Hnd1 & Hrows1 & Hget1).
  { intros x Hx. eauto. }
  assert (∀ x, x ∈ cyc' → x ∈ dkeys (vertex m)) as Hfv'.
  { intros x (y & -> & Hy)%list_elem_of_fmap. case_decide; eauto. }
  destruct (add_face_spec m1 cyc' f)
    as (m' & Hadd & Hface' & Hvert' & Hmax' & Hhe').
  { unfold cyc'. rewrite length_fmap, (Hlen f cyc Hf). lia. }
  { by rewrite Hvert1. }
  destruct (add_fold_spec f (cycle_keys cyc') (halfedge m1) Hnd1)
    as (Hnd' & Hrows' & Hget'). rewrite <- Hhe' in Hnd', Hrows', Hget'.
  assert (∀ g, dget (face m') g =
               if decide (g = f) then Some cyc' else dget (face m) g)
    as Hlookup.
  { intros g. rewrite Hface', Hface1. by apply dget_replace. }
  exists m'. split.
  { unfold substitute_in_face, face_vertices. cbn [mbind option_bind].
    rewrite Hf. cbn [mbind option_bind]. rewrite Hdel. cbn [mbind option_bind].
    fold cyc'. by rewrite Hadd. }
  split; [split|split_and!].
  - rewrite Hface', Hface1. by apply NoDup_dkeys_dset, NoDup_dkeys_ddel.
  - intros g c. rewrite Hlookup. case_decide.
    + intros [= <-]. unfold cyc'. rewrite length_fmap. eauto.
    + eauto.
  - intros g c x. rewrite Hlookup, Hvert', Hvert1. case_decide.
    + intros [= <-]. eauto.
    + eauto.
  - intros x Hx. rewrite Hvert', Hvert1 in Hx. eauto.
  - done.
  - intros a b g [[-> Hin]|Hg]%Hget'.
    + exists cyc'. split; [|done]. rewrite Hlookup. by rewrite decide_True.
    + apply Hget1 in Hg as [Hg Hnin]. destruct (Hhf _ _ _ Hg) as (c & Hc & Hab).
      exists c. split; [|done]. rewrite Hlookup. rewrite decide_False; [done|].
      intros ->. congruence.
  - intros x Hx. rewrite Hvert', Hvert1 in Hx. rewrite Hmax', Hmax1. eauto.
  - congruence.
  - rewrite Hface', Hface1. apply length_replace; [done|].
    apply dkeys_elem_of. eauto.
  - done.
Qed.

Lemma substitute_in_faces_spec old_vkey new_vkey fkeys m :
  collapse_inv m → (∀ f, f ∈ fkeys → f ∈ dkeys (face m)) →
  new_vkey ∈ dkeys (vertex m) →
  ∃ m', mesh_substitute_vertex_in_faces m old_vkey new_vkey fkeys = Some m' ∧
    collapse_inv m' ∧ vertex m' = vertex m ∧
    length (face m') = length (face m) ∧
    ∀ g, dget (face m') g =
      if decide (g ∈ fkeys)
      then fmap (M := list)
             (λ key, if decide (key = old_vkey) then new_vkey else key)
             <$> dget (face m) g
      else dget (face m) g.
Proof.
  unfold mesh_substitute_vertex_in_faces.
  revert m. induction fkeys as [|f fkeys IH]; intros m Hinv Hfs Hnew.
  { exists m. by split_and!. }
  assert (is_Some (dget (face m) f)) as [cyc Hcyc].
  { apply dkeys_elem_of, Hfs. by left. }
  destruct (substitute_in_face_spec m old_vkey new_vkey f cyc Hinv Hcyc Hnew)
    as (m1 & Hstep & Hinv1 & Hvert1 & Hlen1 & Hface1).
  destruct (IH m1 Hinv1) as (m' & Hfold & Hinv' & Hvert' & Hlen' & Hface').
  { intros g Hg. apply dkeys_elem_of. rewrite Hface1. case_decide; [eauto|].
    apply dkeys_elem_of, Hfs. by right. }
  { by rewrite Hvert1. }
  exists m'. split_and!; try done; try congruence.
  { change (foldl (substitute_in_face old_vkey new_vkey) (Some m) (f :: fkeys))
      with (foldl (substitute_in_face old_vkey new_vkey)
              (substitute_in_face old_vkey new_vkey (Some m) f) fkeys).
    by rewrite Hstep. }
  intros g. rewrite Hface', Hface1.
  destruct (decide (g = f)) as [->|Hne].
  - rewrite (decide_True (P := f ∈ f :: fkeys)) by by left. rewrite Hcyc. simpl.
    case_decide; [|done]. f_equal. rewrite <- list_fmap_compose.
    apply list_fmap_ext. intros _ x _. simpl. repeat case_decide; congruence.
  - destruct (decide (g ∈ fkeys)) as [Hg|Hg].
    + by rewrite decide_True by by right.
    + rewrite decide_False; [done|]. by intros [?|?]%elem_of_cons.
Qed.




(** ** The strip table after [collect_strips] *)

Section strip_shape.
Context (m : Mesh).
Hypothesis Hwf : wf_mesh m.

Lemma links_flip_reverse l : links m l → links m (flip <$> reverse l).
Proof using Hwf.
  intros Hl i a a' Ha Ha'.
  rewrite list_lookup_fmap in Ha, Ha'.
  destruct (reverse l !! i) as [y|] eqn:Hy; [|done].
  destruct (reverse l !! S i) as [y'|] eqn:Hy'; [|done].
  simplify_eq/=.
  apply reverse_lookup_Some in Hy as [Hy Hlt].
  apply reverse_lookup_Some in Hy' as [Hy' Hlt'].
  replace (length l - S i) with (S (length l - S (S i))) in Hy by lia.
  pose proof (Hl _ _ _ Hy' Hy) as Hn.
  apply strip_next_flip_opp in Hn. apply (opp_sym m Hwf) in Hn.
  by exists y'.
Qed.

Lemma links_tail_has_face l i e :
  links m l → l !! S i = Some e → has_face m (flip e).
Proof using Hwf.
  intros Hl Hi. destruct (links_pred m _ _ _ Hl Hi) as (p & Hp & Hn).
  apply strip_next_flip_opp in Hn.
  by apply (opp_has_face m Hwf) in Hn as [_ ?].
Qed.

Lemma collect_strip_loop_shape count l :
  chain m l → l ≠ [] → NoDup (canon <$> l) →
  length l + count = S (number_of_edges m) →
  ∃ r, collect_strip_loop m count l = Some r ∧ walk_shape m r.
Proof using Hwf.
  revert l. induction count as [|count IH]; intros l Hch Hne Hnd Hlen.
  { exfalso. assert (length l ≤ number_of_edges m); [|lia].
    apply length_le_number_of_edges; [done|].
    intros e He. apply has_face_inU_edges. by apply Hch. }
  destruct (last l) as [[u v]|] eqn:Hlast; [|by apply last_None in Hlast].
  destruct (head l) as [e0|] eqn:Hhead; [|by apply head_None in Hhead].
  assert (has_face m (u, v)) as Hfl.
  { apply Hch. by apply last_Some_elem_of. }
  destruct (has_face_opp m Hwf _ Hfl) as [[w x] Hopp].
  pose proof (opp_strip_next m _ _ Hopp) as Hnext.
  destruct (opp_has_face m Hwf _ _ Hopp) as [_ Hfs].
  simpl. rewrite Hlast. simpl. unfold opp in Hopp. simpl in Hopp.
  rewrite Hopp. simpl. rewrite Hhead. simpl.
  change (flip (w, x)) with (x, w) in Hnext.
  case_decide as Hclosed.
  { exists l. split; [done|]. split; [apply Hch|]. left. split; [apply Hch|].
    exists e0, (u, v). split_and!; [done..|]. by rewrite <- Hclosed. }
  assert (¬ inU (x, w) l) as Hfresh by (eapply strip_next_fresh; eauto).
  assert (NoDup (canon <$> (l ++ [(x, w)]))) as Hnd1.
  { rewrite fmap_app. apply NoDup_app. split; [done|]. split.
    - intros y Hy [->|[]%elem_of_nil]%elem_of_cons.
      by apply Hfresh, inU_canon.
    - simpl. apply NoDup_singleton. }
  assert (links m (l ++ [(x, w)])) as Hl1.
  { eapply links_snoc; eauto. apply Hch. }
  destruct (halfedge_blocked_spec m x w) as (bl & Hbl & Hblspec).
  { apply (has_face_flip_key m Hwf (w, x) Hfs). }
  rewrite Hbl. simpl. destruct bl.
  - assert (¬ has_face m (x, w)) as Hnf.
    { intros H. by apply Hblspec in H. }
    rewrite fmap_last, last_reverse, head_app, Hhead. simpl.
    assert (has_face m e0) as Hf0 by by apply Hch, head_Some_elem_of.
    destruct (halfedge_blocked_spec m e0.2 e0.1) as (bl' & Hbl' & Hblspec').
    { apply (has_face_flip_key m Hwf e0 Hf0). }
    rewrite Hbl'. simpl. destruct bl'.
    + exists (flip <$> reverse (l ++ [(x, w)])). split; [done|].
      split; [by apply links_flip_reverse|]. right.
      destruct l as [|e0' l']; [done|]. simpl in Hhead. simplify_eq.
      exists (w, x), (flip <$> reverse l'), (flip e0). split_and!.
      * rewrite <- app_comm_cons, reverse_cons, reverse_app, reverse_singleton.
        by rewrite !fmap_app.
      * intros e [->|He]%elem_of_cons; [done|].
        apply list_elem_of_fmap in He as (y & -> & Hy).
        rewrite elem_of_reverse in Hy.
        apply list_elem_of_lookup in Hy as [i Hi].
        apply (links_tail_has_face (e0 :: l') i); [apply Hch|done].
      * intros H. by apply Hblspec' in H.
      * done.
    + apply IH.
      * eapply chain_reverse; eauto. by apply Hblspec'.
      * intros H. apply fmap_nil_inv in H.
        apply (f_equal reverse) in H. rewrite reverse_involutive in H.
        by destruct l.
      * by apply NoDup_canon_flip_reverse.
      * rewrite length_fmap, length_reverse, length_app. simpl. lia.
  - apply IH; try done.
    + split; [|done].
      intros e [He|He]%elem_of_app; [by apply Hch|].
      apply list_elem_of_singleton in He as ->. by apply Hblspec.
    + by destruct l.
    + rewrite length_app. simpl. lia.
Qed.

Lemma collect_strip_shape u0 v0 r :
  collect_strip m u0 v0 = Some r →
  walk_shape m r ∧ is_strip m (u0, v0) r.
Proof using Hwf.
  intros Hr.
  assert (is_Some (halfedge_get m u0 v0)) as Hsome.
  { unfold collect_strip in Hr. destruct (halfedge_get m u0 v0); eauto.
    done. }
  destruct (collect_strip_spec m Hwf u0 v0 Hsome) as (r' & Hr' & Hstrip & _).
  assert (r' = r) as -> by congruence. split; [|done].
  destruct Hsome as [f Hf]. unfold collect_strip in Hr. rewrite Hf in Hr.
  simpl in Hr.
  set (e0 := if decide (f = None) then (v0, u0) else (u0, v0)) in Hr.
  assert (has_face m e0) as Hf0.
  { unfold e0. destruct (decide (f = None)) as [->|Hnn].
    - destruct (wf_he_boundary m Hwf _ _ Hf) as [g Hg]. by exists g.
    - destruct f as [f|]; [|done]. by exists f. }
  destruct (collect_strip_loop_shape (number_of_edges m) [e0])
    as (r' & Hr'' & Hshape).
  - split.
    + by intros e ->%list_elem_of_singleton.
    + intros i a b Ha Hb. destruct i; done.
  - done.
  - apply NoDup_singleton.
  - simpl. lia.
  - congruence.
Qed.

Lemma collect_strips_loop_entries (P : list edge → Prop) fuel rest k table k' table' :
  (∀ u0 v0 r, collect_strip m u0 v0 = Some r → P r) →
  (∀ s l, dget table s = Some l → P l) →
  collect_strips_loop m fuel rest k table = Some (k', table') →
  ∀ s l, dget table' s = Some l → P l.
Proof.
  intros HP. revert rest k table.
  induction fuel as [|fuel IH]; intros rest k table Htab Hrun; simpl in Hrun.
  - destruct (pop rest) as [[[u0 v0] rest']|]; [done|]. by simplify_eq.
  - destruct (pop rest) as [[[u0 v0] rest']|]; [|by simplify_eq].
    destruct (collect_strip m u0 v0) as [r|] eqn:Hr; [|done]. simpl in Hrun.
    eapply IH; [|exact Hrun].
    intros s l. rewrite dget_dset. case_decide; [|by apply Htab].
    intros [= <-]. eauto.
Qed.
End strip_shape.

(** What is known of the strip table once [collect_strips] has run on a
    well-formed quad mesh. *)
Lemma collect_strips_shape m :
  wf_mesh m →
  ∃ k table, collect_strips m = Some (k, set_strip m table) ∧
    table_ok m k table ∧ edges_split m [] table ∧
    ∀ s l, dget table s = Some l →
      walk_shape m l ∧ ∃ seed, is_strip m seed l.
Proof.
  intros Hwf.
  destruct (collect_strips_spec m Hwf) as (k & table & Hrun & Htab & Hsplit).
  exists k, table. split_and!; try done.
  unfold collect_strips in Hrun.
  destruct (not_none_edges m) as [rest|]; [|done]. simpl in Hrun.
  destruct (collect_strips_loop m (length rest) rest (-1) [])
    as [[k' table']|] eqn:Hloop; [|done].
  simpl in Hrun. injection Hrun as -> ->.
  eapply (collect_strips_loop_entries m); [| |exact Hloop].
  - intros u0 v0 r Hr. destruct (collect_strip_shape m Hwf u0 v0 r Hr).
    eauto.
  - by intros s l [=].
Qed.

(** *** [edge_strip] and [face_strips] *)

Lemma edge_strip_loop_Some t e s :
  NoDup (dkeys t) → edge_strip_loop t e = Some s →
  ∃ l, dget t s = Some l ∧ inU e l.
Proof.
  induction t as [|[k l] t IH]; simpl; [done|]. intros Hnd.
  apply NoDup_cons in Hnd as [Hk Hnd].
  destruct (py_in e l || py_in (flip e) l) eqn:E.
  - intros [= ->]. exists l. rewrite decide_True by done. split; [done|].
    apply orb_true_iff in E as [E|E]; apply bool_decide_eq_true in E.
    + by left.
    + by right.
  - intros Hs. destruct (IH Hnd Hs) as (l' & Hl' & Hin). exists l'.
    split; [|done]. rewrite decide_False; [done|]. intros ->.
    apply Hk. apply dkeys_elem_of. eauto.
Qed.

Lemma edge_strip_loop_None t e s l :
  edge_strip_loop t e = None → dget t s = Some l → ¬ inU e l.
Proof.
  induction t as [|[k l'] t IH]; simpl; [done|].
  destruct (py_in e l' || py_in (flip e) l') eqn:E; [done|].
  apply orb_false_iff in E as [E1 E2].
  apply bool_decide_eq_false in E1, E2.
  intros Hnone. case_decide; [|by apply IH].
  intros [= <-] [?|?]; done.
Qed.

Lemma edge_strip_loop_flip t e :
  edge_strip_loop t (flip e) = edge_strip_loop t e.
Proof.
  induction t as [|[k l] t IH]; simpl; [done|].
  rewrite flip_flip, IH, (orb_comm (py_in (flip e) l)). done.
Qed.

Lemma edge_strip_iff m k table e s :
  table_ok m k table →
  edge_strip (set_strip m table) e = Some s ↔
  ∃ l, dget table s = Some l ∧ inU e l.
Proof.
  intros (Hkeys & Hk & Hent & Hdisj). unfold edge_strip. simpl.
  assert (NoDup (dkeys table)) as Hnd.
  { rewrite Hkeys. apply NoDup_fmap_2; [apply Nat2Z.inj'|apply NoDup_seq]. }
  split; [by apply edge_strip_loop_Some|].
  intros (l & Hl & Hin).
  destruct (edge_strip_loop table e) as [s'|] eqn:E.
  - destruct (edge_strip_loop_Some _ _ _ Hnd E) as (l' & Hl' & Hin').
    destruct (decide (s' = s)) as [->|Hne]; [done|].
    by destruct (Hdisj s' s l' l e Hl' Hl Hne Hin').
  - by destruct (edge_strip_loop_None _ _ _ _ E Hl).
Qed.

Lemma table_ok_key_bounds m k table s l :
  table_ok m k table → dget table s = Some l → (0 ≤ s ≤ k)%Z.
Proof.
  intros (Hkeys & Hk & _) Hs.
  assert (s ∈ dkeys table) as Hin by (apply dkeys_elem_of; eauto).
  rewrite Hkeys in Hin. apply list_elem_of_fmap in Hin as (i & -> & Hi).
  apply elem_of_seq in Hi. lia.
Qed.

Lemma edges_split_strip m table e :
  edges_split m [] table → inU e (edges m) →
  ∃ s l, dget table s = Some l ∧ inU e l.
Proof.
  intros Hsplit He.
  destruct (Hsplit e He) as [[[H|H] _]|[_ H]]; [| |done];
    by apply elem_of_nil in H.
Qed.

(** X8. After [collect_strips] on a well-formed quad mesh, [edge_strip]
    gives every edge of the mesh, in either direction, the key of a
    strip that holds it, a key between 0 and the returned integer; it
    gives [None] for a pair that is no edge; and two edges get the same
    key exactly when they are linked by crossing faces to the opposite
    side. *)
Theorem edge_strip_after_collect_strips m :
  wf_mesh m →
  ∃ k m', collect_strips m = Some (k, m') ∧
    (∀ e, inU e (edges m) →
       ∃ s l, edge_strip m' e = Some s ∧ (0 ≤ s ≤ k)%Z ∧
         strip_edges m' s = Some l ∧ inU e l) ∧
    (∀ e, ¬ inU e (edges m) → edge_strip m' e = None) ∧
    (∀ e, edge_strip m' (flip e) = edge_strip m' e) ∧
    (∀ e e', inU e (edges m) →
       edge_strip m' e' = edge_strip m' e ↔ same_strip m e e').
Proof.
  intros Hwf.
  destruct (collect_strips_shape m Hwf)
    as (k & table & Hrun & Htab & Hsplit & Hshape).
  exists k, (set_strip m table). split; [done|].
  assert (∀ e, inU e (edges m) →
            ∃ s l, edge_strip (set_strip m table) e = Some s ∧
              dget table s = Some l ∧ inU e l) as Hedge.
  { intros e He. destruct (edges_split_strip m table e Hsplit He)
      as (s & l & Hs & Hin).
    exists s, l. split; [|done]. apply (edge_strip_iff m k); eauto. }
  split_and!.
  - intros e He. destruct (Hedge e He) as (s & l & Hs & Hl & Hin).
    exists s, l. split; [done|]. split; [|done].
    by eapply table_ok_key_bounds.
  - intros e He.
    destruct (edge_strip (set_strip m table) e) as [s|] eqn:E; [|done].
    apply (edge_strip_iff m k) in E as (l & Hl & Hin); [|done].
    destruct He. destruct Htab as (_ & _ & Hent & _).
    destruct (Hent s l Hl) as (_ & _ & _ & Hsub).
    destruct Hin as [Hin|Hin]; [by apply Hsub|].
    apply inU_flip. by apply Hsub.
  - intros e. apply edge_strip_loop_flip.
  - intros e e' He. destruct (Hedge e He) as (s & l & Hs & Hl & Hin).
    rewrite Hs. rewrite (edge_strip_iff m k) by done. split.
    + intros (l' & Hl' & Hin'). assert (l' = l) as -> by congruence.
      destruct (Hshape s l Hl) as (_ & seed & _ & _ & Hmem).
      etrans; [apply (same_strip_sym m Hwf)|]; by apply Hmem.
    + intros Hs'. exists l. split; [done|].
      destruct Htab as (_ & _ & Hent & _).
      destruct (Hent s l Hl) as (_ & _ & Hcl & _).
      by eapply strip_closed_rtc.
Qed.

Lemma edge_strip_after_collect_strips_witness :
  wf_mesh grid22 ∧
  ∃ k m', collect_strips grid22 = Some (k, m') ∧
    (∀ e, inU e (edges grid22) →
       ∃ s l, edge_strip m' e = Some s ∧ (0 ≤ s ≤ k)%Z ∧
         strip_edges m' s = Some l ∧ inU e l) ∧
    (∀ e, ¬ inU e (edges grid22) → edge_strip m' e = None) ∧
    (∀ e, edge_strip m' (flip e) = edge_strip m' e) ∧
    (∀ e e', inU e (edges grid22) →
       edge_strip m' e' = edge_strip m' e ↔ same_strip grid22 e e').
Proof.
  split.
  - apply wf_meshb_sound. vm_compute. reflexivity.
  - apply (edge_strip_after_collect_strips grid22).
    apply wf_meshb_sound. vm_compute. reflexivity.
Defined.

Lemma opp_quad m f a b c d :
  wf_mesh m → face_vertices m f = Some [a; b; c; d] → NoDup [a; b; c; d] →
  has_face m (a, b) ∧ has_face m (b, c) ∧
  opp m (a, b) (c, d) ∧ opp m (b, c) (d, a).
Proof.
  intros Hwf Hf Hnd.
  destruct (descendant_quad m f a b c d Hf Hnd) as (Ha & Hb & Hc & Hd).
  assert (∀ p q, (p, q) ∈ [(a, b); (b, c); (c, d); (d, a)] →
            halfedge_get m p q = Some (Some f)) as Hcyc.
  { intros p q Hpq. apply (wf_face_he m Hwf f [a; b; c; d] (p, q) Hf).
    by rewrite cycle_keys_quad. }
  assert (halfedge_get m a b = Some (Some f)) as Hab.
  { apply Hcyc. set_solver. }
  assert (halfedge_get m b c = Some (Some f)) as Hbc.
  { apply Hcyc. set_solver. }
  split_and!.
  - by exists f.
  - by exists f.
  - unfold opp, face_opposite_edge. simpl. rewrite Hab. simpl.
    rewrite Hb. simpl. by rewrite Hc.
  - unfold opp, face_opposite_edge. simpl. rewrite Hbc. simpl.
    rewrite Hc. simpl. by rewrite Hd.
Qed.

(** X9. After [collect_strips] on a well-formed quad mesh,
    [face_strips] of a face with vertex cycle a-b-c-d returns two strip
    keys: the first is the strip of the sides (a, b) and (c, d), the
    second the strip of the sides (b, c) and (d, a); both are keys between
    0 and the integer [collect_strips] returned. *)
Theorem face_strips_after_collect_strips m f :
  wf_mesh m → f ∈ faces m →
  ∃ k m' a b c d s1 s2, collect_strips m = Some (k, m') ∧
    face_vertices m f = Some [a; b; c; d] ∧
    face_strips m' f = Some [Some s1; Some s2] ∧
    (0 ≤ s1 ≤ k)%Z ∧ (0 ≤ s2 ≤ k)%Z ∧
    edge_strip m' (a, b) = Some s1 ∧ edge_strip m' (c, d) = Some s1 ∧
    edge_strip m' (b, c) = Some s2 ∧ edge_strip m' (d, a) = Some s2.
Proof.
  intros Hwf Hf.
  destruct (collect_strips_shape m Hwf)
    as (k & table & Hrun & Htab & Hsplit & _).
  apply dkeys_elem_of in Hf as [cyc Hcyc].
  destruct (wf_face_quad m Hwf f cyc Hcyc) as [Hlen Hnd].
  destruct (length_four _ Hlen) as (a & b & c & d & ->).
  destruct (opp_quad m f a b c d Hwf Hcyc Hnd) as (Hab & Hbc & Hoab & Hobc).
  assert (∀ e e', has_face m e → opp m e e' →
            ∃ s, (0 ≤ s ≤ k)%Z ∧ edge_strip (set_strip m table) e = Some s ∧
              edge_strip (set_strip m table) e' = Some s) as Hpair.
  { intros e e' He Hopp.
    destruct (edges_split_strip m table e Hsplit) as (s & l & Hs & Hin).
    { by apply has_face_inU_edges. }
    exists s. split; [by eapply table_ok_key_bounds|].
    split; apply (edge_strip_iff m k); try done; exists l; split; try done.
    destruct Htab as (_ & _ & Hent & _).
    destruct (Hent s l Hs) as (_ & _ & Hcl & _).
    apply (Hcl e e'); [done|by right]. }
  destruct (Hpair _ _ Hab Hoab) as (s1 & Hb1 & Hs1 & Hs1').
  destruct (Hpair _ _ Hbc Hobc) as (s2 & Hb2 & Hs2 & Hs2').
  exists k, (set_strip m table), a, b, c, d, s1, s2.
  split_and!; try done; try lia.
  unfold face_strips, face_halfedges, face_vertices. simpl.
  unfold face_vertices in Hcyc. rewrite Hcyc. simpl.
  by rewrite Hs1, Hs2.
Qed.

Lemma face_strips_after_collect_strips_witness :
  wf_mesh grid22 ∧ 3 ∈ faces grid22 ∧
  ∃ k m' a b c d s1 s2, collect_strips grid22 = Some (k, m') ∧
    face_vertices grid22 3 = Some [a; b; c; d] ∧
    face_strips m' 3 = Some [Some s1; Some s2] ∧
    (0 ≤ s1 ≤ k)%Z ∧ (0 ≤ s2 ≤ k)%Z ∧
    edge_strip m' (a, b) = Some s1 ∧ edge_strip m' (c, d) = Some s1 ∧
    edge_strip m' (b, c) = Some s2 ∧ edge_strip m' (d, a) = Some s2.
Proof.
  assert (3 ∈ faces grid22) as Hf.
  { vm_compute. set_solver. }
  split; [|split; [done|]].
  - apply wf_meshb_sound. vm_compute. reflexivity.
  - apply (face_strips_after_collect_strips grid22 3); [|done].
    apply wf_meshb_sound. vm_compute. reflexivity.
Defined.

(** *** [strip_faces] and [is_strip_closed] *)

Lemma mapM_halfedge_get m l :
  (∀ e, e ∈ l → is_Some (halfedge_get m e.1 e.2)) →
  ∃ fs, mapM (λ uv : edge, halfedge_get m uv.1 uv.2) l = Some fs ∧
    omap id fs = omap (λ uv : edge, mjoin (halfedge_get m uv.1 uv.2)) l.
Proof.
  induction l as [|e l IH]; intros Hl.
  { by exists []. }
  destruct IH as (fs & Hfs & Hfaces).
  { intros e' He'. apply Hl. by right. }
  destruct (Hl e) as [f Hf]; [by left|].
  exists (f :: fs). split.
  - simpl. rewrite Hf. simpl. by rewrite Hfs.
  - simpl. rewrite Hf.
    change (list_omap (option nat) nat id fs) with (omap id fs).
    rewrite Hfaces. by destruct f.
Qed.

Lemma omap_faces_all m l :
  (∀ e, e ∈ l → has_face m e) →
  length (omap (λ uv : edge, mjoin (halfedge_get m uv.1 uv.2)) l) = length l.
Proof.
  induction l as [|e l IH]; intros Hl; [done|].
  destruct (Hl e) as [f Hf]; [by left|]. simpl. rewrite Hf. simpl.
  f_equal. apply IH. intros e' He'. apply Hl. by right.
Qed.

Lemma omap_faces_elem_of m (l : list edge) f :
  f ∈ omap (λ uv : edge, mjoin (halfedge_get m uv.1 uv.2)) l ↔
  ∃ e, e ∈ l ∧ halfedge_get m e.1 e.2 = Some (Some f).
Proof.
  rewrite list_elem_of_omap. split; intros (e & He & Hf); exists e.
  - split; [done|]. by destruct (halfedge_get m e.1 e.2) as [[g|]|];
      simplify_eq/=.
  - split; [done|]. by rewrite Hf.
Qed.

Section strip_table.
Context (m : Mesh).
Hypothesis Hwf : wf_mesh m.

Lemma opp_same_face e e' f :
  opp m e e' → halfedge_get m e'.1 e'.2 = Some (Some f) →
  halfedge_get m e.1 e.2 = Some (Some f).
Proof using Hwf.
  intros Hopp Hf. destruct (opp_has_face m Hwf _ _ Hopp) as [[g Hg] _].
  destruct (face_opposite_edge_spec m Hwf _ _ _ Hg) as (w & x & Hwx & Hg' & _).
  unfold opp in Hopp. rewrite Hwx in Hopp. simplify_eq/=. congruence.
Qed.

Lemma no_face_boundary e :
  is_Some (halfedge_get m e.1 e.2) → ¬ has_face m e →
  halfedge_get m e.1 e.2 = Some None.
Proof.
  intros [[f|] Hf] Hno; [|done]. destruct Hno. by exists f.
Qed.

Lemma is_edge_on_boundary_inner e :
  has_face m e → has_face m (flip e) →
  is_edge_on_boundary m e.1 e.2 = Some false.
Proof.
  intros [f Hf] [g Hg]. unfold is_edge_on_boundary. simpl in Hg.
  rewrite Hg. simpl. by rewrite Hf.
Qed.

Lemma is_edge_on_boundary_first e :
  has_face m e → ¬ has_face m (flip e) →
  is_edge_on_boundary m e.1 e.2 = Some true.
Proof using Hwf.
  intros [f Hf] Hno. unfold is_edge_on_boundary.
  assert (halfedge_get m e.2 e.1 = Some None) as ->; [|done].
  apply (no_face_boundary (flip e)); [|done].
  apply (wf_he_sym m Hwf). eauto.
Qed.

Lemma is_edge_on_boundary_last e :
  has_face m (flip e) → ¬ has_face m e →
  is_edge_on_boundary m e.1 e.2 = Some true.
Proof using Hwf.
  intros [f Hf] Hno. unfold is_edge_on_boundary. simpl in Hf.
  rewrite Hf. simpl.
  rewrite (no_face_boundary e); [done| |done].
  apply (wf_he_sym m Hwf). eauto.
Qed.

(** The faces along a collected strip, and its boundary edges. *)
Lemma walk_shape_faces l :
  walk_shape m l →
  ∃ fs closed, 
    (l' ← Some l;
     fs ← mapM (λ uv : edge, halfedge_get m uv.1 uv.2) l'; Some (omap id fs))
      = Some fs ∧
    ('(u, v) ← head l; negb <$> is_edge_on_boundary m u v) = Some closed ∧
    (∀ f, f ∈ fs ↔ ∃ e, inU e l ∧ halfedge_get m e.1 e.2 = Some (Some f)) ∧
    (if closed : bool
     then length fs = length l ∧
          ∀ e, e ∈ l → is_edge_on_boundary m e.1 e.2 = Some false
     else S (length fs) = length l ∧
          ∃ e0 r el, l = e0 :: r ++ [el] ∧
            is_edge_on_boundary m e0.1 e0.2 = Some true ∧
            is_edge_on_boundary m el.1 el.2 = Some true ∧
            ∀ e, e ∈ r → is_edge_on_boundary m e.1 e.2 = Some false).
Proof using Hwf.
  intros [Hlinks Hshape].
  assert (∀ i e, l !! S i = Some e → has_face m (flip e)) as Htail.
  { intros i e. by apply links_tail_has_face. }
  assert (∀ e, e ∈ l → is_Some (halfedge_get m e.1 e.2)) as Hsome.
  { intros e [i Hi]%list_elem_of_lookup.
    destruct Hshape as [[Hall _]|(e0 & r & el & -> & Hall & _)].
    - destruct (Hall e) as [f Hf]; [|by eauto].
      by eapply list_elem_of_lookup_2.
    - destruct i as [|i].
      + simpl in Hi. simplify_eq. destruct (Hall e) as [f Hf]; [by left|eauto].
      + destruct (Htail i e Hi) as [f Hf]. apply (wf_he_sym m Hwf). eauto. }
  destruct (mapM_halfedge_get m l Hsome) as (fs' & Hfs' & Hfaces).
  exists (omap id fs'). simpl. rewrite Hfs'. simpl. rewrite Hfaces.
  assert (∀ f e, flip e ∈ l → halfedge_get m e.1 e.2 = Some (Some f) →
            (∃ el, head l = Some (flip e) ∧ last l = Some el ∧
               strip_next m el (flip e)) ∨
            (∃ i, l !! S i = Some (flip e)) →
            ∃ p, p ∈ l ∧ halfedge_get m p.1 p.2 = Some (Some f)) as Hback.
  { intros f e He Hf [(el & Hh & Hl & Hn)|[i Hi]].
    - exists el. split; [by apply last_Some_elem_of|].
      apply strip_next_flip_opp in Hn. rewrite flip_flip in Hn.
      by eapply opp_same_face.
    - destruct (links_pred m _ _ _ Hlinks Hi) as (p & Hp & Hn).
      exists p. split; [by eapply list_elem_of_lookup_2|].
      apply strip_next_flip_opp in Hn. rewrite flip_flip in Hn.
      by eapply opp_same_face. }
  destruct Hshape as [[Hall (e0 & el & Hhead & Hlast & Hn)]
                     |(e0 & r & el & -> & Hall & Hnl & Hn0)].
  - (* a ring *)
    assert (∀ e, e ∈ l → has_face m (flip e)) as Hflip.
    { intros e [i Hi]%list_elem_of_lookup. destruct i as [|i]; [|by eauto].
      rewrite <- head_lookup in Hi. simplify_eq.
      apply strip_next_flip_opp in Hn.
      by apply (opp_has_face m Hwf) in Hn as [_ ?]. }
    exists true. split; [done|]. split.
    { rewrite Hhead. simpl. destruct e0 as [u v].
      assert (is_edge_on_boundary m u v = Some false) as ->; [|done].
      apply (is_edge_on_boundary_inner (u, v)).
      - by apply Hall, head_Some_elem_of.
      - by apply Hflip, head_Some_elem_of. }
    split.
    + intros f. rewrite omap_faces_elem_of. split.
      * intros (e & He & Hf). exists e. split; [by left|done].
      * intros (e & [He|He] & Hf); [by eauto|].
        apply (Hback f e He Hf).
        apply list_elem_of_lookup in He as [i Hi]. destruct i as [|i]; [|eauto].
        left. exists el. rewrite <- head_lookup in Hi.
        assert (e0 = flip e) as -> by congruence. done.
    + split; [by apply omap_faces_all|].
      intros e He. apply is_edge_on_boundary_inner; auto.
  - (* from boundary to boundary *)
    assert (has_face m (flip el)) as Hfl.
    { apply (Htail (length r)).
      change ((e0 :: r ++ [el]) !! S (length r)) with ((r ++ [el]) !! length r).
      by rewrite list_lookup_middle. }
    exists false. split; [done|]. split.
    { simpl. destruct e0 as [u v].
      assert (is_edge_on_boundary m u v = Some true) as ->; [|done].
      apply (is_edge_on_boundary_first (u, v)); [|done].
      apply Hall. by left. }
    split.
    + intros f. rewrite omap_faces_elem_of. split.
      * intros (e & He & Hf). exists e. split; [by left|done].
      * intros (e & [He|He] & Hf); [by eauto|].
        apply (Hback f e He Hf).
        apply list_elem_of_lookup in He as [i Hi]. destruct i as [|i]; [|eauto].
        simpl in Hi. simplify_eq. destruct Hn0. rewrite flip_flip. by exists f.
    + split.
      * rewrite app_comm_cons, omap_app, !length_app.
        rewrite omap_faces_all by done. simpl.
        rewrite (no_face_boundary el); [simpl; lia| |done].
        apply Hsome. set_solver.
      * exists e0, r, el. split; [done|]. split_and!.
        -- apply is_edge_on_boundary_first; [|done]. apply Hall. by left.
        -- by apply is_edge_on_boundary_last.
        -- intros e He. apply is_edge_on_boundary_inner.
           ++ apply Hall. by right.
           ++ apply list_elem_of_lookup in He as [i Hi].
              apply (Htail i). simpl. by apply lookup_app_l_Some.
Qed.
End strip_table.

(** X10. After [collect_strips] on a well-formed quad mesh,
    [strip_faces] of a stored strip returns exactly the faces that have
    a side in the strip; the list has as many faces as the strip has
    edges when [is_strip_closed] answers [True], and one face less when
    it answers [False]. *)
Theorem strip_faces_after_collect_strips m :
  wf_mesh m →
  ∃ k m', collect_strips m = Some (k, m') ∧
    ∀ s l, strip_edges m' s = Some l →
      ∃ fs closed, strip_faces m' s = Some fs ∧
        is_strip_closed m' s = Some closed ∧
        (∀ f, f ∈ fs ↔
           ∃ e, inU e l ∧ halfedge_get m' e.1 e.2 = Some (Some f)) ∧
        length l = length fs + (if closed : bool then 0 else 1).
Proof.
  intros Hwf.
  destruct (collect_strips_shape m Hwf)
    as (k & table & Hrun & Htab & Hsplit & Hshape).
  exists k, (set_strip m table). split; [done|].
  intros s l Hl. unfold strip_edges in Hl. simpl in Hl.
  destruct (Hshape s l Hl) as [Hwalk _].
  destruct (walk_shape_faces m Hwf l Hwalk)
    as (fs & closed & Hfs & Hclosed & Hmem & Hcount).
  exists fs, closed. split_and!.
  - unfold strip_faces, strip_edges. simpl. by rewrite Hl.
  - unfold is_strip_closed. simpl. by rewrite Hl.
  - done.
  - destruct closed; [destruct Hcount as [-> _]|destruct Hcount as [<- _]];
      lia.
Qed.

Lemma strip_faces_after_collect_strips_witness :
  wf_mesh ring8 ∧
  ∃ k m', collect_strips ring8 = Some (k, m') ∧
    ∀ s l, strip_edges m' s = Some l →
      ∃ fs closed, strip_faces m' s = Some fs ∧
        is_strip_closed m' s = Some closed ∧
        (∀ f, f ∈ fs ↔
           ∃ e, inU e l ∧ halfedge_get m' e.1 e.2 = Some (Some f)) ∧
        length l = length fs + (if closed : bool then 0 else 1).
Proof.
  split.
  - apply wf_meshb_sound. vm_compute. reflexivity.
  - apply (strip_faces_after_collect_strips ring8).
    apply wf_meshb_sound. vm_compute. reflexivity.
Defined.

(** X11. After [collect_strips] on a well-formed quad mesh,
    [is_strip_closed] of a stored strip answers [True] exactly when no
    edge of the strip is on the boundary; when it answers [False] the
    strip has at least two edges, its first and its last edge are on the
    boundary and the edges between them are not.  For a key that is not
    in the strip table the call raises. *)
Theorem is_strip_closed_after_collect_strips m :
  wf_mesh m →
  ∃ k m', collect_strips m = Some (k, m') ∧
    (∀ s l, strip_edges m' s = Some l →
       (is_strip_closed m' s = Some true ∧
        ∀ e, e ∈ l → is_edge_on_boundary m' e.1 e.2 = Some false) ∨
       (is_strip_closed m' s = Some false ∧
        ∃ e0 r el, l = e0 :: r ++ [el] ∧
          is_edge_on_boundary m' e0.1 e0.2 = Some true ∧
          is_edge_on_boundary m' el.1 el.2 = Some true ∧
          ∀ e, e ∈ r → is_edge_on_boundary m' e.1 e.2 = Some false)) ∧
    (∀ s, s ∉ strips m' → is_strip_closed m' s = None).
Proof.
  intros Hwf.
  destruct (collect_strips_shape m Hwf)
    as (k & table & Hrun & Htab & Hsplit & Hshape).
  exists k, (set_strip m table). split; [done|]. split.
  - intros s l Hl. unfold strip_edges in Hl. simpl in Hl.
    destruct (Hshape s l Hl) as [Hwalk _].
    destruct (walk_shape_faces m Hwf l Hwalk)
      as (fs & closed & _ & Hclosed & _ & Hcount).
    assert (is_strip_closed (set_strip m table) s = Some closed) as ->.
    { unfold is_strip_closed. simpl. by rewrite Hl. }
    destruct closed; [left|right]; (split; [done|]); apply Hcount.
  - intros s Hs. unfold is_strip_closed, strips in *. simpl in *.
    apply dget_None_keys in Hs. by rewrite Hs.
Qed.

Lemma is_strip_closed_after_collect_strips_witness :
  wf_mesh ring8 ∧
  ∃ k m', collect_strips ring8 = Some (k, m') ∧
    (∀ s l, strip_edges m' s = Some l →
       (is_strip_closed m' s = Some true ∧
        ∀ e, e ∈ l → is_edge_on_boundary m' e.1 e.2 = Some false) ∨
       (is_strip_closed m' s = Some false ∧
        ∃ e0 r el, l = e0 :: r ++ [el] ∧
          is_edge_on_boundary m' e0.1 e0.2 = Some true ∧
          is_edge_on_boundary m' el.1 el.2 = Some true ∧
          ∀ e, e ∈ r → is_edge_on_boundary m' e.1 e.2 = Some false)) ∧
    (∀ s, s ∉ strips m' → is_strip_closed m' s = None).
Proof.
  split.
  - apply wf_meshb_sound. vm_compute. reflexivity.
  - apply (is_strip_closed_after_collect_strips ring8).
    apply wf_meshb_sound. vm_compute. reflexivity.
Defined.


(** ** Updating the strip table *)

Section dict_update_many.
Context {K V : Type} `{EqDecision K}.
Implicit Types d : dict K V.

Lemma dkeys_dset_mem d k v : k ∈ dkeys d → dkeys (dset d k v) = dkeys d.
Proof.
  unfold dkeys. induction d as [|[k0 v0] d IH]; simpl.
  - by intros ?%elem_of_nil.
  - intros Hk. case_decide as E; [by subst|]. simpl. f_equal. apply IH.
    apply elem_of_cons in Hk as [?|?]; done.
Qed.

Lemma dupdate_snoc d kvs k v :
  dupdate d (kvs ++ [(k, v)]) = dset (dupdate d kvs) k v.
Proof. unfold dupdate. by rewrite foldl_app. Qed.

(** Updating entries that are in the dictionary, each with a value
    computed from the old one. *)
Lemma dupdate_spec (F : V → V) d kvs :
  (∀ k v, (k, v) ∈ kvs → ∃ v0, dget d k = Some v0 ∧ v = F v0) →
  dkeys (dupdate d kvs) = dkeys d ∧
  ∀ k, dget (dupdate d kvs) k =
    if decide (k ∈ kvs.*1) then F <$> dget d k else dget d k.
Proof.
  induction kvs as [|[k v] kvs IH] using rev_ind; intros Hkvs.
  { split; [done|]. intros k. by rewrite decide_False by apply not_elem_of_nil. }
  destruct IH as [Hkeys Hget].
  { intros k' v' Hin. apply Hkvs, elem_of_app. by left. }
  destruct (Hkvs k v) as (v0 & Hv0 & ->).
  { apply elem_of_app. right. by left. }
  rewrite dupdate_snoc. split.
  - rewrite dkeys_dset_mem; [done|]. rewrite Hkeys.
    apply dkeys_elem_of. eauto.
  - intros k'. rewrite dget_dset, Hget, fmap_app. simpl.
    destruct (decide (k' = k)) as [->|Hne].
    + rewrite decide_True by set_solver. by rewrite Hv0.
    + destruct (decide (k' ∈ kvs.*1)) as [Hin|Hnin].
      * by rewrite decide_True by set_solver.
      * by rewrite decide_False by set_solver.
Qed.
End dict_update_many.

Lemma dget_fmap_values {K V} `{EqDecision K} (G : V → V) (d : dict K V) k :
  dget ((λ kv : K * V, (kv.1, G kv.2)) <$> d) k = G <$> dget d k.
Proof.
  induction d as [|[k0 v0] d IH]; simpl; [done|]. by case_decide.
Qed.

Lemma mapM_ext_in {A B} (f g : A → option B) l :
  (∀ x, x ∈ l → f x = g x) → mapM f l = mapM g l.
Proof.
  induction l as [|x l IH]; intros Hfg; [done|]. simpl.
  rewrite (Hfg x) by by left. destruct (g x); [|done]. simpl.
  rewrite IH; [done|]. intros y Hy. apply Hfg. by right.
Qed.

Lemma mapM_values {K V W} `{EqDecision K} (G : V → option W) (d : dict K V) :
  NoDup (dkeys d) →
  mapM (λ k, v ← dget d k; w ← G v; Some (k, w)) (dkeys d) =
  mapM (λ kv : K * V, w ← G kv.2; Some (kv.1, w)) d.
Proof.
  unfold dkeys. induction d as [|[k0 v0] d IH]; [done|].
  rewrite fmap_cons. intros [Hk Hnd]%NoDup_cons. simpl.
  rewrite decide_True by done. simpl. destruct (G v0) as [w|]; [|done]. simpl.
  rewrite <- IH by done. f_equal. apply mapM_ext_in. intros k Hin.
  rewrite decide_False; [done|]. by intros ->.
Qed.

Lemma mapM_total_fmap {A B} (f : A → option B) (g : A → B) l :
  (∀ x, x ∈ l → f x = Some (g x)) → mapM f l = Some (g <$> l).
Proof.
  induction l as [|x l IH]; intros Hfg; [done|]. simpl.
  rewrite (Hfg x) by by left. simpl. rewrite IH; [done|].
  intros y Hy. apply Hfg. by right.
Qed.

(** *** [substitute_vertex_in_strips] *)

(** X12. [substitute_vertex_in_strips] raises exactly when a chosen key
    is not in the strip table, and then nothing has been stored; when it
    returns, the table has the same keys in the same order, every chosen
    strip holds its former pairs with [new_vkey] in the place of
    [old_vkey], the other strips and the rest of the mesh are as before,
    and if the two keys differ no chosen strip names [old_vkey] any
    more.  Without a choice all strips are taken and the call returns. *)
Theorem substitute_vertex_in_strips_spec m old_vkey new_vkey skeys :
  (is_Some (substitute_vertex_in_strips m old_vkey new_vkey skeys) ↔
   ∀ s, s ∈ default (strips m) skeys → s ∈ strips m) ∧
  is_Some (substitute_vertex_in_strips m old_vkey new_vkey None) ∧
  ∀ m', substitute_vertex_in_strips m old_vkey new_vkey skeys = Some m' →
    strips m' = strips m ∧ vertex m' = vertex m ∧
    halfedge m' = halfedge m ∧ face m' = face m ∧
    (∀ s, strip_edges m' s =
       if decide (s ∈ default (strips m) skeys)
       then fmap (M := list) (substitute_in_edge old_vkey new_vkey)
              <$> strip_edges m s
       else strip_edges m s) ∧
    (new_vkey ≠ old_vkey → ∀ s l e, s ∈ default (strips m) skeys →
       strip_edges m' s = Some l → e ∈ l →
       e.1 ≠ old_vkey ∧ e.2 ≠ old_vkey).
Proof.
  assert (∀ chosen,
    is_Some (mapM (λ skey, edges ← dget (strip m) skey;
       Some (skey, substitute_in_edge old_vkey new_vkey <$> (edges : list edge)))
       chosen) ↔ ∀ s, s ∈ chosen → s ∈ strips m) as Hsome.
  { intros chosen. rewrite mapM_is_Some, Forall_forall.
    split; intros H s Hs; specialize (H s Hs).
    - apply dkeys_elem_of. unfold compose in H.
      destruct (dget (strip m) s); [eauto|]. simpl in H. by destruct H.
    - apply dkeys_elem_of in H as [l Hl]. unfold compose. rewrite Hl.
      simpl. by eexists. }
  assert (∀ skeys,
    is_Some (substitute_vertex_in_strips m old_vkey new_vkey skeys) ↔
    ∀ s, s ∈ default (strips m) skeys → s ∈ strips m) as Hret.
  { intros ks. rewrite <- Hsome. unfold substitute_vertex_in_strips.
    cbv zeta. destruct (mapM _ (default (strips m) ks)) as [entries|]; simpl.
    - split; intros _; by eexists.
    - split; intros [? ?]; done. }
  split; [apply Hret|]. split; [by apply Hret|].
  intros m' Hrun. unfold substitute_vertex_in_strips in Hrun. cbv zeta in Hrun.
  set (chosen := default (strips m) skeys) in *.
  destruct (mapM _ chosen) as [entries|] eqn:Hentries; [|done].
  simpl in Hrun. injection Hrun as <-.
  apply mapM_Some in Hentries.
  assert (entries.*1 = chosen ∧
          ∀ k v, (k, v) ∈ entries → ∃ v0, dget (strip m) k = Some v0 ∧
            v = substitute_in_edge old_vkey new_vkey <$> v0) as [Hkeys Hvals].
  { clear Hsome Hret. induction Hentries as [|s [k v] ks es Hs _ IH].
    { split; [done|]. by intros k v ?%elem_of_nil. }
    destruct IH as [IH1 IH2].
    destruct (dget (strip m) s) as [l|] eqn:Hl; [|done]. simpl in Hs.
    injection Hs as <- <-. split; [by rewrite fmap_cons, IH1|].
    intros k' v' [[= -> ->]|Hin]%elem_of_cons; eauto. }
  destruct (dupdate_spec (fmap (substitute_in_edge old_vkey new_vkey))
              (strip m) entries Hvals) as [Hdk Hdg].
  assert (∀ s, strip_edges (set_strip m (dupdate (strip m) entries)) s =
       if decide (s ∈ chosen)
       then fmap (M := list) (substitute_in_edge old_vkey new_vkey)
              <$> strip_edges m s
       else strip_edges m s) as Hedges.
  { intros s. unfold strip_edges. simpl. rewrite Hdg, Hkeys. done. }
  split_and!; try done.
  intros Hne s l e Hs. rewrite Hedges, decide_True by done.
  destruct (strip_edges m s) as [l0|]; [|done]. simpl. intros [= <-].
  intros (e0 & -> & _)%list_elem_of_fmap. unfold substitute_in_edge. simpl.
  split; case_decide; congruence.
Qed.

(** *** [delete_face_in_strips] *)

Lemma omap_filter_faces m fkey (l : list edge) :
  omap (λ uv : edge, mjoin (halfedge_get m uv.1 uv.2))
    (filter (λ e : edge, halfedge_get m e.1 e.2 ≠ Some (Some fkey)) l) =
  filter (λ f, f ≠ fkey)
    (omap (λ uv : edge, mjoin (halfedge_get m uv.1 uv.2)) l).
Proof.
  induction l as [|e l IH]; [done|].
  rewrite filter_cons.
  change (omap ?f (e :: l)) with
    (match f e with Some y => y :: omap f l | None => omap f l end).
  cbv beta.
  destruct (halfedge_get m e.1 e.2) as [[f|]|] eqn:Hf.
  - destruct (decide (f = fkey)) as [->|Hne].
    + rewrite decide_False by (by intros H; apply H). simpl.
      rewrite filter_cons, decide_False by (by intros H; apply H). done.
    + rewrite decide_True by congruence.
      change (omap ?f (e :: ?k)) with
        (match f e with Some y => y :: omap f k | None => omap f k end).
      cbv beta. rewrite Hf. simpl.
      rewrite filter_cons, decide_True by done. by f_equal.
  - rewrite decide_True by done.
      change (omap ?f (e :: ?k)) with
        (match f e with Some y => y :: omap f k | None => omap f k end).
      cbv beta. rewrite Hf. done.
  - rewrite decide_True by done. 
      change (omap ?f (e :: ?k)) with
        (match f e with Some y => y :: omap f k | None => omap f k end).
      cbv beta. rewrite Hf. done.
Qed.

Lemma delete_face_in_strip_spec m fkey l :
  (∀ e, e ∈ l → is_Some (halfedge_get m e.1 e.2)) →
  delete_face_in_strip m fkey l =
  Some (filter (λ e : edge, halfedge_get m e.1 e.2 ≠ Some (Some fkey)) l).
Proof.
  intros Hl. unfold delete_face_in_strip.
  assert (∃ marked,
    mapM (λ uv : edge, f ← halfedge_get m uv.1 uv.2; Some (uv, f)) l
      = Some marked ∧
    (filter (λ p : edge * option nat, p.2 ≠ Some fkey) marked).*1 =
    filter (λ e : edge, halfedge_get m e.1 e.2 ≠ Some (Some fkey)) l)
    as (marked & -> & Hmarked).
  { induction l as [|e l IH]; [by exists []|].
    destruct IH as (marked & Hm & Hfilter).
    { intros e' He'. apply Hl. by right. }
    destruct (Hl e) as [f Hf]; [by left|].
    exists ((e, f) :: marked). simpl. rewrite Hf. simpl. rewrite Hm. simpl.
    split; [done|]. rewrite !filter_cons. simpl. rewrite Hf.
    destruct (decide (f = Some fkey)) as [->|Hne].
    - rewrite decide_False by (by intros H; apply H).
      by rewrite decide_False by (by intros H; apply H).
    - rewrite decide_True by done. rewrite decide_True by congruence.
      rewrite fmap_cons. simpl. by f_equal. }
  simpl. by rewrite Hmarked.
Qed.

(** X13. [delete_face_in_strips(fkey)] on a strip table whose pairs are
    all in the half-edge table returns; the strips keep their keys and
    their order, every strip loses exactly the pairs whose half-edge
    holds [fkey], the rest of the mesh is untouched, and afterwards
    [strip_faces] of a strip is its former answer without [fkey]. *)
Theorem delete_face_in_strips_spec m fkey :
  NoDup (strips m) →
  Forall (λ kv : Z * list edge,
    Forall (λ e : edge, is_Some (halfedge_get m e.1 e.2)) kv.2) (strip m) →
  ∃ m', delete_face_in_strips m fkey = Some m' ∧
    strips m' = strips m ∧ vertex m' = vertex m ∧
    halfedge m' = halfedge m ∧ face m' = face m ∧
    (∀ s, strip_edges m' s =
       filter (λ e : edge, halfedge_get m e.1 e.2 ≠ Some (Some fkey))
         <$> strip_edges m s) ∧
    (∀ s, strip_faces m' s = filter (λ f, f ≠ fkey) <$> strip_faces m s) ∧
    (∀ s fs, strip_faces m' s = Some fs → fkey ∉ fs).
Proof.
  intros Hnd Hall. rewrite Forall_forall in Hall.
  assert (∀ s l e, dget (strip m) s = Some l → e ∈ l →
            is_Some (halfedge_get m e.1 e.2)) as Hsome.
  { intros s l e Hs He. apply dget_Some_elem_of in Hs.
    specialize (Hall _ Hs). rewrite Forall_forall in Hall. by apply Hall. }
  set (G := filter (λ e : edge, halfedge_get m e.1 e.2 ≠ Some (Some fkey))).
  set (table := (λ kv : Z * list edge, (kv.1, G kv.2)) <$> strip m).
  assert (delete_face_in_strips m fkey = Some (set_strip m table)) as Hrun.
  { unfold delete_face_in_strips, strips.
    rewrite (mapM_values (delete_face_in_strip m fkey)) by done.
    rewrite (mapM_total_fmap _ (λ kv : Z * list edge, (kv.1, G kv.2))); [done|].
    intros [s l] Hin. simpl. rewrite delete_face_in_strip_spec; [done|].
    intros e He. apply (Hsome s l); [|done]. by apply elem_of_dget. }
  assert (∀ s, strip_edges (set_strip m table) s = G <$> strip_edges m s)
    as Hedges.
  { intros s. unfold strip_edges, table. simpl. apply dget_fmap_values. }
  assert (∀ s, strip_faces (set_strip m table) s =
            filter (λ f, f ≠ fkey) <$> strip_faces m s) as Hfaces.
  { intros s. unfold strip_faces at 1. rewrite Hedges. unfold strip_faces.
    destruct (strip_edges m s) as [l|] eqn:Hl; [|done]. simpl.
    destruct (mapM_halfedge_get m l) as (fs & -> & Hfs).
    { intros e He. by apply (Hsome s l). }
    destruct (mapM_halfedge_get (set_strip m table) (G l)) as (fs' & Hfs' & Hfs'').
    { intros e He. apply (Hsome s l); [done|].
      unfold G in He. by apply list_elem_of_filter in He as [_ ?]. }
    rewrite Hfs'. simpl. f_equal. rewrite Hfs'', Hfs.
    exact (omap_filter_faces m fkey l). }
  exists (set_strip m table). split_and!; try done.
  - unfold strips, table, dkeys. simpl. rewrite <- list_fmap_compose.
    by apply list_fmap_ext.
  - intros s fs. rewrite Hfaces. destruct (strip_faces m s); [|done].
    simpl. intros [= <-] [? _]%list_elem_of_filter. done.
Qed.

Lemma delete_face_in_strips_spec_witness :
  ∃ m', delete_face_in_strips grid22_strips 3 = Some m' ∧
    strips m' = strips grid22_strips ∧ vertex m' = vertex grid22_strips ∧
    halfedge m' = halfedge grid22_strips ∧ face m' = face grid22_strips ∧
    (∀ s, strip_edges m' s =
       filter (λ e : edge,
         halfedge_get grid22_strips e.1 e.2 ≠ Some (Some 3))
         <$> strip_edges grid22_strips s) ∧
    (∀ s, strip_faces m' s =
       filter (λ f, f ≠ 3) <$> strip_faces grid22_strips s) ∧
    (∀ s fs, strip_faces m' s = Some fs → 3 ∉ fs).
Proof.
  apply (delete_face_in_strips_spec grid22_strips 3).
  - apply (bool_decide_eq_true_1 (NoDup (strips grid22_strips))).
    by vm_compute.
  - apply (bool_decide_eq_true_1 (Forall (λ kv : Z * list edge,
      Forall (λ e : edge, is_Some (halfedge_get grid22_strips e.1 e.2)) kv.2)
      (strip grid22_strips))).
    by vm_compute.
Defined.
